(** * Elephant Coder: incremental index and file-level impact analysis

    A shallow embedding of [elephant_coder/state_store.py] (the SQLite fact
    store), [elephant_coder/index_engine.py] (parser, scanner, graph
    builder and impact analyzer) and [elephant_coder/env_utils.py] (the
    dotenv loader), followed by the properties of the specification that
    are checked against it and by further properties of the code.

    Conventions of the embedding
    - Python [str] is [string]; order on strings is the code-point order
      ([String.leb]).
    - Python [int] is [Z].
    - Python [float] values that occur (weights, confidences, strengths,
      mtimes, timestamps) are exact rationals [Q].  The only float
      arithmetic of the engine is [round(0.75 / dist, 3)] under
      [max(0.25, _)]: for [dist = 2] and [dist = 3] the quotient is a dyadic
      number (0.375, 0.25) that the rational computation reproduces, and for
      [dist >= 4] both computations stay below the floor 0.25.
    - a [dict] is a [gmap], a [set] a [gset]; a table of the store is the
      list of its rows in rowid order, the [indexed_files] table (primary key
      [file_path]) is a [gmap].
    - the project tree is a finite map from project-relative POSIX paths to
      files; it has no symbolic links, so [Path.resolve()] is the identity on
      the paths that are enumerated. *)

From Stdlib Require Import Ascii String QArith Qround.
From stdpp Require Import base gmap sets list strings sorting.

#[global] Instance Q_eq_dec : EqDecision Q.
Proof. solve_decision. Defined.

#[global] Instance Q_countable : Countable Q.
Proof.
  refine (inj_countable' (λ q : Q, (Qnum q, Qden q)) (λ p, Qmake p.1 p.2) _).
  by intros [].
Defined.

(** ** Python built-ins used by the engine *)

Module Py.

(** [max(a, b)] returns [a] unless [b > a]; [min(a, b)] returns [a] unless
    [b < a]. *)
Definition max (a b : Q) : Q := if Qle_bool b a then a else b.
Definition min (a b : Q) : Q := if Qle_bool a b then a else b.

(** Rounding to the nearest integer, ties to even. *)
Definition round_half_even (q : Q) : Z :=
  let f := Qfloor q in
  match Qcompare (q - inject_Z f) (1 # 2) with
  | Lt => f
  | Gt => (f + 1)%Z
  | Eq => if Z.even f then f else (f + 1)%Z
  end.

(** [round(q, 3)]. *)
Definition round3 (q : Q) : Q := round_half_even (q * 1000) # 1000.

(** [sorted] on strings and on sets of strings. *)
Definition sorted_str (l : list string) : list string :=
  merge_sort String.le l.
Definition sorted_set (s : gset string) : list string :=
  sorted_str (elements s).

(** A [dict] whose iteration order matters: the items in insertion order;
    assigning to a key that is present keeps its position. *)
Fixpoint dict_set {V} (d : list (string * V)) (k : string) (v : V)
    : list (string * V) :=
  match d with
  | [] => [(k, v)]
  | (k', v') :: d' =>
      if decide (k' = k) then (k', v) :: d' else (k', v') :: dict_set d' k v
  end.
Definition dict_of_items {V} (items : list (string * V))
    : list (string * V) :=
  foldl (λ d kv, dict_set d kv.1 kv.2) [] items.

(** [sep.join(l)]. *)
Definition join (sep : string) (l : list string) : string :=
  String.concat sep l.

(** [s.split(c)] for a one-character separator. *)
Fixpoint split (c : ascii) (s : string) : list string :=
  match s with
  | EmptyString => [EmptyString]
  | String a s' =>
      if Ascii.eqb a c then EmptyString :: split c s'
      else match split c s' with
           | w :: ws => String a w :: ws
           | [] => [String a EmptyString]
           end
  end.

(** [s.startswith(p)]; [strip_prefix p s] is the rest of [s] after [p]. *)
Fixpoint strip_prefix (p s : string) : option string :=
  match p, s with
  | EmptyString, _ => Some s
  | String a p', String b s' =>
      if Ascii.eqb a b then strip_prefix p' s' else None
  | String _ _, EmptyString => None
  end.
Definition startswith (s p : string) : bool :=
  bool_decide (is_Some (strip_prefix p s)).

(** [s.endswith(p)]. *)
Definition endswith (s p : string) : bool :=
  startswith (String.rev s) (String.rev p).

(** [s.replace("\\", "/")]. *)
Fixpoint replace_backslash (s : string) : string :=
  match s with
  | EmptyString => EmptyString
  | String a s' =>
      String (if Ascii.eqb a "\"%char then "/"%char else a)
             (replace_backslash s')
  end.

(** [s.strip()] for the ASCII white space characters. *)
Definition is_space (a : ascii) : bool :=
  let n := Ascii.N_of_ascii a in
  ((9 <=? n) && (n <=? 13) || (28 <=? n) && (n <=? 32))%N.
Fixpoint lstrip (s : string) : string :=
  match s with
  | String a s' => if is_space a then lstrip s' else s
  | EmptyString => EmptyString
  end.
Definition strip (s : string) : string :=
  String.rev (lstrip (String.rev (lstrip s))).

(** Lexicographic order on tuples of strings ([Path.parts]). *)
Fixpoint parts_leb (p q : list string) : bool :=
  match p, q with
  | [], _ => true
  | _ :: _, [] => false
  | a :: p', b :: q' =>
      match String.compare a b with
      | Lt => true
      | Gt => false
      | Eq => parts_leb p' q'
      end
  end.

End Py.

(** ** The fact store ([state_store.py]) *)

Module StateStore.

(** Row of [indexed_files] without its key. *)
Record IndexedFile := {
  file_hash : string;
  mtime : Q;
  indexed_at : Q;
  parse_error : option string
}.

Record SymbolRow := {
  sym_file_path : string;
  symbol_name : string;
  qualname : string;
  kind : string;
  lineno : Z;
  end_lineno : Z;
  signature : string
}.

Record ImportRow := {
  imp_file_path : string;
  module_name : string
}.

Record CallRow := {
  call_file_path : string;
  caller_qualname : string;
  callee_name : string
}.

Record EdgeRow := {
  src_file : string;
  dst_file : string;
  edge_type : string;
  weight : Q
}.

Record t := {
  indexed_files : gmap string IndexedFile;
  symbols : list SymbolRow;
  imports : list ImportRow;
  calls : list CallRow;
  edges : list EdgeRow
}.

(** A freshly created database ([_init_schema]). *)
Definition empty : t :=
  {| indexed_files := ∅; symbols := []; imports := []; calls := [];
     edges := [] |}.

(** What [get_indexed_file_meta] returns for one path. *)
Record FileMeta := {
  meta_file_hash : string;
  meta_mtime : Q;
  meta_parse_error : option string
}.

Definition get_indexed_file_meta (st : t) : gmap string FileMeta :=
  (λ r, {| meta_file_hash := file_hash r; meta_mtime := mtime r;
           meta_parse_error := parse_error r |}) <$> indexed_files st.

(** [INSERT ... ON CONFLICT(file_path) DO UPDATE]. *)
Definition upsert_indexed_file (st : t) (file_path file_hash : string)
    (mtime indexed_at : Q) (parse_error : option string) : t :=
  {| indexed_files :=
       <[file_path := {| file_hash := file_hash; mtime := mtime;
                         indexed_at := indexed_at;
                         parse_error := parse_error |}]> (indexed_files st);
     symbols := symbols st; imports := imports st; calls := calls st;
     edges := edges st |}.

(** The five [DELETE] statements of [delete_file]. *)
Definition delete_file (st : t) (file_path : string) : t :=
  {| indexed_files := delete file_path (indexed_files st);
     symbols := filter (λ r, sym_file_path r ≠ file_path) (symbols st);
     imports := filter (λ r, imp_file_path r ≠ file_path) (imports st);
     calls := filter (λ r, call_file_path r ≠ file_path) (calls st);
     edges := filter (λ r, ¬ (src_file r = file_path ∨ dst_file r = file_path))
                     (edges st) |}.

(** A symbol as the parser reports it (the dict built by [_Collector]). *)
Record SymbolItem := {
  item_symbol_name : string;
  item_qualname : string;
  item_kind : string;
  item_lineno : Z;
  item_end_lineno : Z;
  item_signature : string
}.

(** A call reference as the parser reports it. *)
Record CallItem := {
  item_caller_qualname : string;
  item_callee_name : string
}.

Definition replace_file_analysis (st : t) (file_path : string)
    (syms : list SymbolItem) (imps : list string) (cls : list CallItem) : t :=
  {| indexed_files := indexed_files st;
     symbols :=
       filter (λ r, sym_file_path r ≠ file_path) (symbols st) ++
       ((λ i, {| sym_file_path := file_path;
                 symbol_name := item_symbol_name i;
                 qualname := item_qualname i;
                 kind := item_kind i;
                 lineno := item_lineno i;
                 end_lineno := item_end_lineno i;
                 signature := item_signature i |}) <$> syms);
     imports :=
       filter (λ r, imp_file_path r ≠ file_path) (imports st) ++
       ((λ m, {| imp_file_path := file_path; module_name := m |}) <$> imps);
     calls :=
       filter (λ r, call_file_path r ≠ file_path) (calls st) ++
       ((λ i, {| call_file_path := file_path;
                 caller_qualname := item_caller_qualname i;
                 callee_name := item_callee_name i |}) <$> cls);
     edges := edges st |}.

Definition list_imports (st : t) : list ImportRow := imports st.
Definition list_calls (st : t) : list CallRow := calls st.
Definition list_symbols (st : t) : list SymbolRow := symbols st.
Definition list_edges (st : t) : list EdgeRow := edges st.

(** [out.setdefault(name, set()).add(file)] over all symbol rows. *)
Definition symbol_files_by_name (st : t) : gmap string (gset string) :=
  foldl (λ out r,
           <[symbol_name r :=
               (out !!! symbol_name r) ∪ {[sym_file_path r]}]> out)
        ∅ (symbols st).

(** [INSERT OR IGNORE] under [UNIQUE(src_file, dst_file, edge_type)]. *)
Definition insert_or_ignore (tbl : list EdgeRow) (e : EdgeRow) : list EdgeRow :=
  if bool_decide (Exists (λ r, src_file r = src_file e ∧
                               dst_file r = dst_file e ∧
                               edge_type r = edge_type e) tbl)
  then tbl else tbl ++ [e].

Definition replace_edges (st : t) (es : list EdgeRow) : t :=
  {| indexed_files := indexed_files st; symbols := symbols st;
     imports := imports st; calls := calls st;
     edges := foldl insert_or_ignore [] es |}.

Record Counts := {
  count_indexed_files : nat;
  count_symbols : nat;
  count_imports : nat;
  count_calls : nat;
  count_edges : nat;
  count_parse_errors : nat
}.

Definition get_counts (st : t) : Counts :=
  {| count_indexed_files := size (indexed_files st);
     count_symbols := length (symbols st);
     count_imports := length (imports st);
     count_calls := length (calls st);
     count_edges := length (edges st);
     count_parse_errors :=
       size (filter (λ kv, parse_error kv.2 ≠ None) (indexed_files st)) |}.

End StateStore.

(** ** Syntax trees ([ast]) *)

Module Ast.

Record alias := { alias_name : string; alias_asname : option string }.

(** The node classes the engine distinguishes; every other class is
    [Other] with its child nodes in field order.  A parameter ([ast.arg])
    is the pair of its name and its annotation. *)
#[local] Unset Elimination Schemes.
Inductive node : Type :=
| Module_ (body : list node)
| Import (names : list alias)
| ImportFrom (module : option string) (names : list alias) (level : Z)
| ClassDef (name : string) (bases keywords body decorator_list : list node)
    (lineno end_lineno : Z)
| FunctionDef (is_async : bool) (name : string)
    (posonlyargs args : list (string * option node))
    (vararg : option (string * option node))
    (kwonlyargs : list (string * option node))
    (kw_defaults : list (option node))
    (kwarg : option (string * option node))
    (defaults body decorator_list : list node)
    (returns : option node)
    (lineno end_lineno : Z)
| Call (func : node) (args keywords : list node)
| Name (id : string)
| Attribute (value : node) (attr : string)
| Other (children : list node).
#[local] Set Elimination Schemes.

(** What [ast.parse(source, filename)] does: it returns a tree or raises
    [SyntaxError] or [ValueError]; the string is [str(exc)]. *)
Inductive parse_outcome :=
| Parsed (tree : node)
| RaisesSyntaxError (msg : string)
| RaisesValueError (msg : string).

(** [ast.walk]: the node and all its descendants. *)
Fixpoint walk (n : node) : list node :=
  n ::
  match n with
  | Module_ body => flat_map walk body
  | Import _ | ImportFrom _ _ _ | Name _ => []
  | ClassDef _ bases keywords body decorator_list _ _ =>
      flat_map walk bases ++ flat_map walk keywords ++
      flat_map walk body ++ flat_map walk decorator_list
  | FunctionDef _ _ posonlyargs args vararg kwonlyargs kw_defaults kwarg
      defaults body decorator_list returns _ _ =>
      let of_arg a :=
        match a with (_, Some x) => walk x | (_, None) => [] end in
      let of_opt o := match o with Some x => walk x | None => [] end in
      flat_map of_arg posonlyargs ++ flat_map of_arg args ++
      match vararg with Some a => of_arg a | None => [] end ++
      flat_map of_arg kwonlyargs ++ flat_map of_opt kw_defaults ++
      match kwarg with Some a => of_arg a | None => [] end ++
      flat_map walk defaults ++ flat_map walk body ++
      flat_map walk decorator_list ++ of_opt returns
  | Call func args keywords =>
      walk func ++ flat_map walk args ++ flat_map walk keywords
  | Attribute value _ => walk value
  | Other children => flat_map walk children
  end.

End Ast.

(** ** The source parser ([index_engine.py], module level) *)

Module Parser.
Import Ast StateStore.

(** The interpreter services the parser calls. *)
Record Platform := {
  (** [ast.parse(source, filename=...)] *)
  ast_parse : string → string → parse_outcome;
  (** [ast.unparse(node)], [None] when it raises *)
  ast_unparse : node → option string;
  (** [hashlib.sha256(text.encode(...)).hexdigest()] *)
  sha256_hexdigest : string → string
}.

Definition _sha256_text (P : Platform) (value : string) : string :=
  sha256_hexdigest P value.

Definition _safe_unparse (P : Platform) (n : option node) : string :=
  match n with
  | None => ""
  | Some x => default "" (ast_unparse P x)
  end.

(** One step of the loops of [_extract_imports] over [node.names]. *)
Definition add_import_names (out : gset string) (names : list alias)
    : gset string :=
  foldl (λ out a,
           if bool_decide (alias_name a ≠ "") then out ∪ {[alias_name a]}
           else out)
        out names.

Definition add_from_names (module : string) (out : gset string)
    (names : list alias) : gset string :=
  foldl (λ out a,
           if bool_decide (alias_name a = "*") then
             if bool_decide (module ≠ "") then out ∪ {[module]} else out
           else if bool_decide (module ≠ "") then
             out ∪ {[module +:+ "." +:+ alias_name a]}
           else out ∪ {[alias_name a]})
        out names.

Definition import_tokens (out : gset string) (n : node) : gset string :=
  match n with
  | Import names => add_import_names out names
  | ImportFrom module names _ =>
      add_from_names (default "" module) out names
  | _ => out
  end.

Definition _extract_imports (tree : node) : list string :=
  Py.sorted_set (foldl import_tokens ∅ (walk tree)).

(** State of a [_Collector]. *)
Record Collector := {
  scope : list string;
  coll_symbols : list SymbolItem;
  coll_calls : list CallItem
}.

Definition new_collector : Collector :=
  {| scope := []; coll_symbols := []; coll_calls := [] |}.

Definition _qualname (c : Collector) (name : string) : string :=
  match scope c with
  | [] => name
  | _ => Py.join "." (scope c ++ [name])
  end.

Definition append_symbol (c : Collector) (s : SymbolItem) : Collector :=
  {| scope := scope c; coll_symbols := coll_symbols c ++ [s];
     coll_calls := coll_calls c |}.
Definition append_call (c : Collector) (s : CallItem) : Collector :=
  {| scope := scope c; coll_symbols := coll_symbols c;
     coll_calls := coll_calls c ++ [s] |}.
Definition scope_append (c : Collector) (name : string) : Collector :=
  {| scope := scope c ++ [name]; coll_symbols := coll_symbols c;
     coll_calls := coll_calls c |}.
Definition scope_pop (c : Collector) : Collector :=
  {| scope := removelast (scope c); coll_symbols := coll_symbols c;
     coll_calls := coll_calls c |}.

Definition _function_signature (P : Platform) (is_async : bool)
    (name : string) (args : list (string * option node))
    (vararg kwarg : option (string * option node))
    (returns : option node) : string :=
  let params :=
    ((λ a : string * option node,
        a.1 +:+ (if a.2 is Some _ then ": " +:+ _safe_unparse P a.2 else ""))
       <$> args) ++
    match vararg with Some a => ["*" +:+ a.1] | None => [] end ++
    match kwarg with Some a => ["**" +:+ a.1] | None => [] end in
  let ret :=
    if returns is Some _ then " -> " +:+ _safe_unparse P returns else "" in
  let prefix := if is_async then "async def" else "def" in
  prefix +:+ " " +:+ name +:+ "(" +:+ Py.join ", " params +:+ ")" +:+ ret.

Definition class_signature (P : Platform) (name : string)
    (bases : list node) : string :=
  let bases :=
    Py.join ", "
      (filter (λ s, s ≠ "") ((λ b, _safe_unparse P (Some b)) <$> bases)) in
  if bool_decide (bases ≠ "")
  then "class " +:+ name +:+ "(" +:+ bases +:+ ")"
  else "class " +:+ name.

(** [callee] of [visit_Call]. *)
Definition callee_of (func : node) : string :=
  match func with
  | Name id => id
  | Attribute _ attr => attr
  | _ => ""
  end.

Section Visit.
Variable P : Platform.

(** [_Collector.visit]: [visit_ClassDef], [visit_FunctionDef],
    [visit_AsyncFunctionDef] and [visit_Call], and [generic_visit] for
    every other class. *)
Fixpoint visit (n : node) (c : Collector) : Collector :=
  let visit_all ns c := fold_left (λ c x, visit x c) ns c in
  let visit_opt o c := match o with Some x => visit x c | None => c end in
  let visit_arg (a : string * option node) c :=
    match a with (_, Some x) => visit x c | (_, None) => c end in
  let visit_args ars c := fold_left (λ c a, visit_arg a c) ars c in
  match n with
  | ClassDef name bases keywords body decorator_list lineno end_lineno =>
      let c :=
        append_symbol c
          {| item_symbol_name := name; item_qualname := _qualname c name;
             item_kind := "class"; item_lineno := lineno;
             item_end_lineno := end_lineno;
             item_signature := class_signature P name bases |} in
      let c := scope_append c name in
      let c := visit_all bases c in
      let c := visit_all keywords c in
      let c := visit_all body c in
      let c := visit_all decorator_list c in
      scope_pop c
  | FunctionDef is_async name posonlyargs args vararg kwonlyargs
      kw_defaults kwarg defaults body decorator_list returns
      lineno end_lineno =>
      let c :=
        append_symbol c
          {| item_symbol_name := name; item_qualname := _qualname c name;
             item_kind := if is_async then "async_function" else "function";
             item_lineno := lineno; item_end_lineno := end_lineno;
             item_signature :=
               _function_signature P is_async name args vararg kwarg
                 returns |} in
      let c := scope_append c name in
      let c := visit_args posonlyargs c in
      let c := visit_args args c in
      let c := match vararg with Some a => visit_arg a c | None => c end in
      let c := visit_args kwonlyargs c in
      let c := fold_left (λ c o, visit_opt o c) kw_defaults c in
      let c := match kwarg with Some a => visit_arg a c | None => c end in
      let c := visit_all defaults c in
      let c := visit_all body c in
      let c := visit_all decorator_list c in
      let c := visit_opt returns c in
      scope_pop c
  | Call func args keywords =>
      let callee := callee_of func in
      let c :=
        if bool_decide (callee ≠ "") then
          append_call c
            {| item_caller_qualname :=
                 match scope c with
                 | [] => "<module>"
                 | _ => Py.join "." (scope c)
                 end;
               item_callee_name := callee |}
        else c in
      let c := visit func c in
      let c := visit_all args c in
      visit_all keywords c
  | Module_ body => visit_all body c
  | Attribute value _ => visit value c
  | Other children => visit_all children c
  | Import _ | ImportFrom _ _ _ | Name _ => c
  end.

(** [_parse_python_file], given the text [path.read_text(...)] returned
    and [str(path)]. *)
Definition _parse_python_file (source filename : string)
    : list SymbolItem * list string * list CallItem * option string :=
  match ast_parse P source filename with
  | RaisesSyntaxError msg | RaisesValueError msg => ([], [], [], Some msg)
  | Parsed tree =>
      let collector := visit tree new_collector in
      let imports := _extract_imports tree in
      (coll_symbols collector, imports, coll_calls collector, None)
  end.
End Visit.

End Parser.

(** ** The index service ([index_engine.py], class [IndexService]) *)

Module IndexService.
Import Ast StateStore Parser.

(** A regular file of the project tree: what [read_text] and
    [stat().st_mtime] return for it. *)
Record File := { read_text : string; st_mtime : Q }.

(** The project tree below [project_root], keyed by the project-relative
    POSIX path of each regular file. *)
Abbreviation Tree := (gmap string File).

Definition _SKIP_DIRS : gset string :=
  list_to_set
    [".elephant-coder"; ".git"; ".venv"; "venv"; "__pycache__";
     ".mypy_cache"; ".pytest_cache"; "node_modules"; "dist"; "build"].

(** [path.parts] of a project-relative path. *)
Definition parts (rel : string) : list string := Py.split "/" rel.

(** A [Path] below the root is kept as its relative POSIX string, so
    [_normalize_rel] is the identity on it. *)
Definition _normalize_rel (path : string) : string := path.

(** [project_root.rglob("*.py")], in the order the file system lists. *)
Definition rglob_py (fs : Tree) : list (string * File) :=
  filter (λ pf, Py.endswith (List.last (parts pf.1) "") ".py" = true)
         (map_to_list fs).

(** Order of [Path] objects: by their parts. *)
Definition path_le (p q : string * File) : Prop :=
  Py.parts_leb (parts p.1) (parts q.1) = true.

#[global] Instance path_le_dec : RelDecision path_le.
Proof. intros p q. unfold path_le. apply _. Defined.

Definition _iter_python_files (fs : Tree) : list (string * File) :=
  let files :=
    filter (λ pf, (list_to_set (parts pf.1) : gset string) ∩ _SKIP_DIRS = ∅)
           (rglob_py fs) in
  merge_sort path_le files.

(** [Path.joinpath] ignores empty segments; [with_suffix(".py")] on a name
    without a dot appends the suffix. *)
Definition module_candidates (module_name : string) : list string :=
  let ps := filter (λ s, s ≠ "") (Py.split "." module_name) in
  match ps with
  | [] => [Py.join "/" ["__init__.py"]]
  | _ =>
      [Py.join "/" (removelast ps ++ [List.last ps "" +:+ ".py"]);
       Py.join "/" (ps ++ ["__init__.py"])]
  end.

Definition _resolve_import_to_file (fs : Tree) (module_name : string)
    : option string :=
  if bool_decide (module_name = "") then None
  else
    _normalize_rel <$>
      List.find (λ c, bool_decide (is_Some (fs !! c)))
                (module_candidates module_name).

(** The tuples of the [edges] set of [_rebuild_edges]. *)
Abbreviation EdgeTuple := (string * string * string * Q)%type.

Definition edge_leb (a b : EdgeTuple) : bool :=
  let '(s1, d1, t1, w1) := a in
  let '(s2, d2, t2, w2) := b in
  match String.compare s1 s2 with
  | Lt => true | Gt => false
  | Eq =>
      match String.compare d1 d2 with
      | Lt => true | Gt => false
      | Eq =>
          match String.compare t1 t2 with
          | Lt => true | Gt => false
          | Eq => Qle_bool w1 w2
          end
      end
  end.

Definition edge_le (a b : EdgeTuple) : Prop := edge_leb a b = true.

#[global] Instance edge_le_dec : RelDecision edge_le.
Proof. intros a b. unfold edge_le. apply _. Defined.

Definition import_edges (fs : Tree) (edges : gset EdgeTuple)
    (rows : list ImportRow) : gset EdgeTuple :=
  foldl (λ edges row,
           let src := imp_file_path row in
           match _resolve_import_to_file fs (module_name row) with
           | Some dst =>
               if bool_decide (dst ≠ "" ∧ dst ≠ src)
               then edges ∪ {[(src, dst, "import", 1 # 1)]}
               else edges
           | None => edges
           end)
        edges rows.

Definition call_edges (symbols_by_name : gmap string (gset string))
    (edges : gset EdgeTuple) (rows : list CallRow) : gset EdgeTuple :=
  foldl (λ edges row,
           let src := call_file_path row in
           let callee := callee_name row in
           foldl (λ edges dst,
                    if bool_decide (dst ≠ src)
                    then edges ∪ {[(src, dst, "call", 7 # 10)]}
                    else edges)
                 edges
                 (elements (default ∅ (symbols_by_name !! callee))))
        edges rows.

Definition edge_row (e : EdgeTuple) : EdgeRow :=
  let '(src, dst, ty, w) := e in
  {| src_file := src; dst_file := dst; edge_type := ty; weight := w |}.

(** [_rebuild_edges]: the new store and [len(edges)]. *)
Definition _rebuild_edges (fs : Tree) (st : StateStore.t)
    : StateStore.t * nat :=
  let symbols_by_name := symbol_files_by_name st in
  let edges := import_edges fs ∅ (list_imports st) in
  let edges := call_edges symbols_by_name edges (list_calls st) in
  (replace_edges st
     (edge_row <$> merge_sort edge_le (elements edges)),
   size edges).

(** The result of [refresh_index] ([elapsed_ms], a wall-clock reading, is
    left out). *)
Record RefreshStats := {
  files_scanned : nat;
  files_indexed : nat;
  files_skipped : nat;
  files_deleted : nat;
  parse_errors : nat;
  symbols_total : nat;
  edges_total : nat
}.

(** The condition under which the loop of [refresh_index] skips a file. *)
Definition unchanged (prev : option FileMeta) (file_hash : string)
    (mtime : Q) : bool :=
  match prev with
  | None => false
  | Some prev =>
      bool_decide (meta_file_hash prev = file_hash) &&
      Qeq_bool (meta_mtime prev) mtime &&
      bool_decide (meta_parse_error prev = None ∨
                   meta_parse_error prev = Some "")
  end.

(** State of the main loop of [refresh_index]; [parsed] lists the paths
    handed to [_parse_python_file], in call order. *)
Record Scan := {
  scan_store : StateStore.t;
  scan_indexed : nat;
  scan_skipped : nat;
  scan_parse_errors : nat;
  parsed : list string
}.

Section Refresh.
Variable P : Platform.
(** [time.time()] at its n-th call of one refresh. *)
Variable time_time : nat → Q.

Definition scan_file (previous : gmap string FileMeta) (s : Scan)
    (item : string * (string * File)) : Scan :=
  let '(rel, (path, file)) := item in
  let source := read_text file in
  let file_hash := _sha256_text P source in
  let mtime := st_mtime file in
  let prev := previous !! rel in
  if unchanged prev file_hash mtime then
    {| scan_store := scan_store s; scan_indexed := scan_indexed s;
       scan_skipped := S (scan_skipped s);
       scan_parse_errors := scan_parse_errors s; parsed := parsed s |}
  else
    let '(symbols, imports, calls, parse_error) :=
      _parse_python_file P (read_text file) path in
    let st :=
      upsert_indexed_file (scan_store s) rel file_hash mtime
        (time_time (scan_indexed s)) parse_error in
    let st := replace_file_analysis st rel symbols imports calls in
    {| scan_store := st; scan_indexed := S (scan_indexed s);
       scan_skipped := scan_skipped s;
       scan_parse_errors :=
         if parse_error is Some _ then S (scan_parse_errors s)
         else scan_parse_errors s;
       parsed := parsed s ++ [rel] |}.

(** [current_map]. *)
Definition current_map_of (current_files : list (string * File))
    : list (string * (string * File)) :=
  Py.dict_of_items ((λ pf, (_normalize_rel pf.1, pf)) <$> current_files).

(** The paths [refresh_index] deletes, in order. *)
Definition deleted_paths (previous : gmap string FileMeta)
    (current_map : list (string * (string * File))) : list string :=
  Py.sorted_set (dom previous ∖ list_to_set current_map.*1).

(** [refresh_index] up to the end of its main loop. *)
Definition refresh_scan (fs : Tree) (st : StateStore.t) : Scan :=
  let previous := get_indexed_file_meta st in
  let current_map := current_map_of (_iter_python_files fs) in
  let st := foldl delete_file st (deleted_paths previous current_map) in
  foldl (scan_file previous)
        {| scan_store := st; scan_indexed := 0; scan_skipped := 0;
           scan_parse_errors := 0; parsed := [] |}
        current_map.

Definition refresh_index (fs : Tree) (st : StateStore.t)
    : StateStore.t * RefreshStats :=
  let previous := get_indexed_file_meta st in
  let current_files := _iter_python_files fs in
  let current_map := current_map_of current_files in
  let files_deleted := length (deleted_paths previous current_map) in
  let files_scanned := length current_files in
  let s := refresh_scan fs st in
  let '(st, edges_total) := _rebuild_edges fs (scan_store s) in
  let counts := get_counts st in
  (st,
   {| files_scanned := files_scanned;
      files_indexed := scan_indexed s;
      files_skipped := scan_skipped s;
      files_deleted := files_deleted;
      parse_errors := scan_parse_errors s;
      symbols_total := count_symbols counts;
      edges_total := edges_total |}).
End Refresh.

(** *** The predictive oracle ([grilly.experimental.cognitive]) *)

(** The interface of the class [WorldModel] the engine relies on.  The
    constructor returns [inl (str exc)] when it raises. *)
Record WorldModelClass := {
  world : Type;
  WorldModel : Z → Z → Z → string + world;
  add_fact : world → string → string → string → Q → string → world;
  add_causal_link : world → string → string → Q → world;
  predict_consequence : world → string → list (string * Q);
  len_facts : world → nat;
  len_expectations : world → nat;
  has_capsule_encoder : world → bool
}.

(** The attributes [__init__] sets. *)
Record Config := {
  world_model_enabled : bool;
  world_model_dim : Z;
  world_model_capsule_dim : Z;
  world_model_semantic_dims : Z;
  world_model_max_edge_facts : Z;
  world_model_max_symbol_facts : Z
}.

Definition init (world_model_enabled : bool)
    (world_model_dim world_model_capsule_dim world_model_semantic_dims
     world_model_max_edge_facts world_model_max_symbol_facts : Z) : Config :=
  let capsule_dim := Z.max 0 world_model_capsule_dim in
  let semantic_dims := Z.max 1 world_model_semantic_dims in
  {| world_model_enabled := world_model_enabled;
     world_model_dim := Z.max 64 world_model_dim;
     world_model_capsule_dim := capsule_dim;
     world_model_semantic_dims :=
       if ((0 <? capsule_dim) && (capsule_dim <=? semantic_dims))%Z
       then Z.max 1 (capsule_dim - 4) else semantic_dims;
     world_model_max_edge_facts := Z.max 0 world_model_max_edge_facts;
     world_model_max_symbol_facts := Z.max 0 world_model_max_symbol_facts |}.

(** The defaults of [__init__]. *)
Definition default_config : Config := init true 512 32 28 20000 5000.

Record WorldSummary := {
  enabled : bool;
  error : option string;
  facts : nat;
  expectations : nat;
  edge_facts : nat;
  symbol_facts : nat;
  symbol_facts_truncated : nat;
  capsule_enabled : bool;
  capsule_dim : Z;
  semantic_dims : Z;
  dim : Z;
  max_edge_facts : Z;
  max_symbol_facts : Z;
  capsule_active : bool
}.

(** [l[:n]]. *)
Definition slice_to {A} (n : Z) (l : list A) : list A :=
  if (0 <=? n)%Z then take (Z.to_nat n) l
  else take (length l - Z.to_nat (- n)) l.

Section World.
Variable self : Config.
(** Outcome of [import grilly.experimental.cognitive]: the module, or
    [inl (str exc)] when the import raises. *)
Variable cognitive : string + WorldModelClass.

Definition summary_base : WorldSummary :=
  {| enabled := false; error := None; facts := 0; expectations := 0;
     edge_facts := 0; symbol_facts := 0; symbol_facts_truncated := 0;
     capsule_enabled := (0 <? world_model_capsule_dim self)%Z;
     capsule_dim := world_model_capsule_dim self;
     semantic_dims := world_model_semantic_dims self;
     dim := world_model_dim self;
     max_edge_facts := world_model_max_edge_facts self;
     max_symbol_facts := world_model_max_symbol_facts self;
     capsule_active := false |}.

Definition with_error (s : WorldSummary) (msg : string) : WorldSummary :=
  {| enabled := enabled s; error := Some msg; facts := facts s;
     expectations := expectations s; edge_facts := edge_facts s;
     symbol_facts := symbol_facts s;
     symbol_facts_truncated := symbol_facts_truncated s;
     capsule_enabled := capsule_enabled s; capsule_dim := capsule_dim s;
     semantic_dims := semantic_dims s; dim := dim s;
     max_edge_facts := max_edge_facts s;
     max_symbol_facts := max_symbol_facts s;
     capsule_active := capsule_active s |}.

(** [_build_cognitive_world]: the bound method
    [world.predict_consequence] of the world that was built ([None] when
    there is no world) and the summary. *)
Definition _build_cognitive_world (st : StateStore.t)
    : option (string → list (string * Q)) * WorldSummary :=
  if negb (world_model_enabled self) then
    (None, with_error summary_base "disabled by config")
  else
    match cognitive with
    | inl exc =>
        (None, with_error summary_base ("cognitive import failed: " +:+ exc))
    | inr C =>
        match WorldModel C (world_model_dim self)
                (world_model_capsule_dim self)
                (world_model_semantic_dims self) with
        | inl exc =>
            (None,
             with_error summary_base ("world model init failed: " +:+ exc))
        | inr w =>
            let edge_rows :=
              slice_to (world_model_max_edge_facts self) (list_edges st) in
            let w :=
              foldl (λ w edge,
                       let src := src_file edge in
                       let dst := dst_file edge in
                       let strength := weight edge in
                       let relation :=
                         if bool_decide (edge_type edge = "import")
                         then "imports" else "calls" in
                       let conf :=
                         Py.max (2 # 10) (Py.min (1 # 1) strength) in
                       let w :=
                         add_fact C w ("file:" +:+ src) relation
                           ("file:" +:+ dst) conf "index" in
                       add_causal_link C w ("file:" +:+ src)
                         ("file:" +:+ dst) conf)
                    w edge_rows in
            let all_symbols := list_symbols st in
            let sym_rows :=
              slice_to (world_model_max_symbol_facts self) all_symbols in
            let w :=
              foldl (λ w sym,
                       add_fact C w ("file:" +:+ sym_file_path sym)
                         "contains" ("symbol:" +:+ qualname sym)
                         (9 # 10) "index")
                    w sym_rows in
            (Some (predict_consequence C w),
             {| enabled := true; error := None;
                facts := len_facts C w;
                expectations := len_expectations C w;
                edge_facts := length edge_rows;
                symbol_facts := length sym_rows;
                symbol_facts_truncated :=
                  length all_symbols - length sym_rows;
                capsule_enabled := capsule_enabled summary_base;
                capsule_dim := capsule_dim summary_base;
                semantic_dims := semantic_dims summary_base;
                dim := dim summary_base;
                max_edge_facts := max_edge_facts summary_base;
                max_symbol_facts := max_symbol_facts summary_base;
                capsule_active := has_capsule_encoder C w |})
        end
    end.
End World.

(** *** The impact analyzer *)

Record ImpactEntry := {
  file_path : string;
  distance : Z;
  impact_kind : string;
  confidence : Q;
  impact_source : string
}.

Record ImpactReport := {
  changed_files : list string;
  impacted : list ImpactEntry;
  direct_count : nat;
  transitive_count : nat;
  world_model : WorldSummary;
  world_predicted_files : list string;
  report_max_depth : Z
}.

(** [reverse.setdefault(dst, []).append((src, edge_type, weight))]. *)
Definition reverse_of (edges : list EdgeRow)
    : gmap string (list (string * string * Q)) :=
  foldl (λ reverse edge,
           <[dst_file edge :=
               default [] (reverse !! dst_file edge) ++
               [(src_file edge, edge_type edge, weight edge)]]> reverse)
        ∅ edges.

(** State of the traversal: the [distance] dict and the [frontier]
    deque. *)
Record Bfs := { bfs_distance : gmap string Z; frontier : list string }.

(** The [for dep, _, _ in reverse.get(cur, [])] loop. *)
Definition push_neighbors (cur_dist : Z) (s : Bfs)
    (deps : list (string * string * Q)) : Bfs :=
  foldl (λ s d,
           let dep := d.1.1 in
           if bool_decide (bfs_distance s !! dep = None) then
             {| bfs_distance := <[dep := (cur_dist + 1)%Z]> (bfs_distance s);
                frontier := frontier s ++ [dep] |}
           else s)
        s deps.

(** One iteration of [while frontier]. A node of the frontier always has a
    distance (the code would raise [KeyError] otherwise). *)
Definition bfs_step (reverse : gmap string (list (string * string * Q)))
    (max_depth : Z) (s : Bfs) : Bfs :=
  match frontier s with
  | [] => s
  | cur :: rest =>
      let s := {| bfs_distance := bfs_distance s; frontier := rest |} in
      match bfs_distance s !! cur with
      | None => s
      | Some cur_dist =>
          if (max_depth <=? cur_dist)%Z then s
          else push_neighbors cur_dist s (default [] (reverse !! cur))
      end
  end.

Fixpoint bfs_loop (fuel : nat)
    (reverse : gmap string (list (string * string * Q)))
    (max_depth : Z) (s : Bfs) : Bfs :=
  match fuel, frontier s with
  | S fuel, _ :: _ => bfs_loop fuel reverse max_depth (bfs_step reverse max_depth s)
  | _, _ => s
  end.

(** The seeding loop. *)
Definition bfs_init (changed : list string) : Bfs :=
  foldl (λ s file_path,
           {| bfs_distance := <[file_path := 0%Z]> (bfs_distance s);
              frontier := frontier s ++ [file_path] |})
        {| bfs_distance := ∅; frontier := [] |} changed.

(** The traversal of [impact_for_files].  Every node enters the frontier
    at most once, and only changed files and edge sources do, so the loop
    ends within [length changed + length edges] iterations. *)
Definition static_distance_of (edges : list EdgeRow) (changed : list string)
    (max_depth : Z) : Bfs :=
  bfs_loop (length changed + length edges) (reverse_of edges) max_depth
           (bfs_init changed).

(** State of the augmentation loop. *)
Record Predicted := {
  predicted_set : gset string;
  predicted_strength : gmap string Q;
  pred_distance : gmap string Z
}.

(** Body of [for effect, strength in consequences]. *)
Definition note_prediction (indexed_files : gset string) (p : Predicted)
    (c : string * Q) : Predicted :=
  let '(effect_str, strength) := c in
  match Py.strip_prefix "file:" effect_str with
  | None => p
  | Some predicted =>
      if bool_decide (predicted ∉ indexed_files) then p
      else
        {| predicted_set := predicted_set p ∪ {[predicted]};
           predicted_strength :=
             <[predicted :=
                 Py.max strength
                   (default (0 # 1) (predicted_strength p !! predicted))]>
               (predicted_strength p);
           pred_distance :=
             match pred_distance p !! predicted with
             | None => <[predicted := 1%Z]> (pred_distance p)
             | Some d =>
                 if (1 <? d)%Z then <[predicted := 1%Z]> (pred_distance p)
                 else pred_distance p
             end |}
  end.

Definition apply_predictions (predict : string → list (string * Q))
    (indexed_files : gset string) (changed : list string)
    (distance : gmap string Z) : Predicted :=
  foldl (λ p file_path,
           foldl (note_prediction indexed_files) p
                 (predict ("file:" +:+ file_path)))
        {| predicted_set := ∅; predicted_strength := ∅;
           pred_distance := distance |}
        changed.

(** Order of [sorted(distance.items(), key=lambda x: (x[1], x[0]))]. *)
Definition item_le (a b : string * Z) : Prop :=
  (a.2 < b.2)%Z ∨ (a.2 = b.2 ∧ String.le a.1 b.1).

#[global] Instance item_le_dec : RelDecision item_le.
Proof. intros a b. unfold item_le. apply _. Defined.

(** Kind and confidence by distance. *)
Definition classify (dist : Z) : string * Q :=
  if (dist =? 0)%Z then ("changed", 1 # 1)
  else if (dist =? 1)%Z then ("direct", 85 # 100)
  else ("transitive",
        Py.max (25 # 100) (Py.round3 ((75 # 100) / inject_Z dist))).

(** Body of the loop that builds [impacted]. *)
Definition entry_of (static_distance : gmap string Z) (p : Predicted)
    (item : string * Z) : ImpactEntry :=
  let '(file_path, dist) := item in
  let '(kind, confidence) := classify dist in
  let in_static := bool_decide (is_Some (static_distance !! file_path)) in
  let in_predicted := bool_decide (file_path ∈ predicted_set p) in
  let '(source, confidence) :=
    if (dist =? 0)%Z then ("changed", confidence)
    else if in_static && in_predicted then ("graph+world_model", confidence)
    else if in_predicted && negb in_static then
      ("world_model",
       Py.max confidence
         (Py.round3 (default (4 # 10) (predicted_strength p !! file_path))))
    else if in_predicted then
      ("graph",
       Py.max confidence
         (Py.round3 (default confidence (predicted_strength p !! file_path))))
    else ("graph", confidence) in
  {| file_path := file_path; distance := dist; impact_kind := kind;
     confidence := confidence; impact_source := source |}.

Section Impact.
Variable self : Config.
Variable cognitive : string + WorldModelClass.
(** [Path(norm).resolve().relative_to(project_root).as_posix()] for an
    absolute [norm]; [None] when [relative_to] raises [ValueError]. *)
Variable relative_to_root : string → option string.

(** The loop that fills [normalized]. *)
Definition normalize_inputs (indexed_files : gset string)
    (changed_files : list string) : list string :=
  foldl (λ normalized item,
           let norm := Py.strip (Py.replace_backslash item) in
           if bool_decide (norm ∈ indexed_files) then normalized ++ [norm]
           else if Py.startswith norm "/" then
             match relative_to_root norm with
             | Some rel =>
                 if bool_decide (rel ≠ "" ∧ rel ∈ indexed_files)
                 then normalized ++ [rel] else normalized
             | None => normalized
             end
           else normalized)
        [] changed_files.

Definition impact_for_files (st : StateStore.t)
    (changed_files : list string) (max_depth : Z) : ImpactReport :=
  let indexed_files := dom (get_indexed_file_meta st) in
  let normalized := normalize_inputs indexed_files changed_files in
  let changed := Py.sorted_set (list_to_set normalized) in
  let edges := list_edges st in
  let static_distance :=
    bfs_distance (static_distance_of edges changed max_depth) in
  let '(world, world_summary) := _build_cognitive_world self cognitive st in
  let p :=
    match world with
    | Some predict =>
        apply_predictions predict indexed_files changed static_distance
    | None =>
        {| predicted_set := ∅; predicted_strength := ∅;
           pred_distance := static_distance |}
    end in
  let impacted :=
    entry_of static_distance p <$>
      merge_sort item_le (map_to_list (pred_distance p)) in
  {| changed_files := changed;
     impacted := impacted;
     direct_count :=
       length (filter (λ e, impact_kind e = "direct") impacted);
     transitive_count :=
       length (filter (λ e, impact_kind e = "transitive") impacted);
     world_model := world_summary;
     world_predicted_files := Py.sorted_set (predicted_set p);
     report_max_depth := max_depth |}.
End Impact.


End IndexService.

(** ** Environment files ([env_utils.py]) *)

Module EnvUtils.

(** [os.environ]. *)
Abbreviation Environ := (gmap string string).

(** The double quote character. *)
Definition dquote : string := String "034"%char "".

(** [line.split("=", 1)] on a line that contains ["="]: the text before
    and the text after the first ["="]; [None] when ["=" not in line]. *)
Fixpoint split_eq (line : string) : option (string * string) :=
  match line with
  | EmptyString => None
  | String a rest =>
      if Ascii.eqb a "="%char then Some (EmptyString, rest)
      else match split_eq rest with
           | Some (key, value) => Some (String a key, value)
           | None => None
           end
  end.

(** The key and the value one line of the file assigns; [None] for a line
    the loop skips before it looks at [os.environ]. *)
Definition parse_line (raw_line : string) : option (string * string) :=
  let line := Py.strip raw_line in
  if bool_decide (line = "") || Py.startswith line "#" then None
  else
    match split_eq line with
    | None => None
    | Some (key, value) =>
        let key := Py.strip key in
        if bool_decide (key = "") then None
        else
          let value := Py.strip value in
          let value :=
            if (Py.startswith value "'" || Py.startswith value dquote) &&
               (Py.endswith value "'" || Py.endswith value dquote) &&
               (2 <=? String.length value)
            then String.substring 1 (String.length value - 2) value
            else value in
          Some (key, value)
    end.

(** Body of the loop of [load_dotenv]: the environment and [loaded]. *)
Definition load_line (state : Environ * nat) (raw_line : string)
    : Environ * nat :=
  match parse_line raw_line with
  | None => state
  | Some (key, value) =>
      if bool_decide (is_Some (state.1 !! key)) then state
      else (<[key := value]> state.1, S state.2)
  end.

(** [load_dotenv]: [dotenv] is [None] when the file does not exist, and
    [read_text(...).splitlines()] otherwise; the result is the new
    environment and the number returned. *)
Definition load_dotenv (dotenv : option (list string)) (environ : Environ)
    : Environ * nat :=
  match dotenv with
  | None => (environ, 0)
  | Some lines => foldl load_line (environ, 0) lines
  end.

End EnvUtils.

(** ** Concrete projects

    Small trees, with an interpreter whose [ast.parse] is tabulated on the
    texts that occur, on which the engine is evaluated. *)

Module Scenario.
Import Ast StateStore Parser IndexService.
#[local] Open Scope string_scope.

Definition mk_alias (name : string) : alias :=
  {| alias_name := name; alias_asname := None |}.

(** A [def] without parameters, decorators or return annotation. *)
Definition def_ (name : string) (body : list node) (lineno end_lineno : Z)
    : node :=
  FunctionDef false name [] [] None [] [] None [] body [] None
    lineno end_lineno.

(** [x = e], [return e] and a constant: classes the engine does not
    distinguish. *)
Definition assign_ (target value : node) : node := Other [target; value].
Definition return_ (e : node) : node := Other [e].
Definition const : node := Other [].

Definition nl : string := String "010"%char "".

(** The files of the tests of the engine. *)
Definition text_import_b := "import b" +:+ nl +:+ nl +:+ "x = 1" +:+ nl.
Definition text_def_foo :=
  "def foo():" +:+ nl +:+ "    return 1" +:+ nl.
Definition text_use_foo :=
  "from b import foo" +:+ nl +:+ nl +:+
  "def bar():" +:+ nl +:+ "    return foo()" +:+ nl.
Definition text_broken :=
  "def broken(:" +:+ nl +:+ "    return 0" +:+ nl.

Definition text_def_zed :=
  "def zed():" +:+ nl +:+ "    return 2" +:+ nl.
Definition text_import_helper := "import build.helper" +:+ nl.
Definition text_nested_import :=
  "def f():" +:+ nl +:+ "    import os" +:+ nl.

Definition tree_import_b : node :=
  Module_ [Import [mk_alias "b"]; assign_ (Name "x") const].
Definition tree_def_foo : node :=
  Module_ [def_ "foo" [return_ const] 1 2].
Definition tree_use_foo : node :=
  Module_ [ImportFrom (Some "b") [mk_alias "foo"] 0;
           def_ "bar" [return_ (Call (Name "foo") [] [])] 3 4].
Definition tree_def_zed : node :=
  Module_ [def_ "zed" [return_ const] 1 2].
Definition tree_import_helper : node :=
  Module_ [Import [mk_alias "build.helper"]].
Definition tree_nested_import : node :=
  Module_ [def_ "f" [Import [mk_alias "os"]] 1 2].

(** [ast.parse] on these texts; any other text is taken not to parse. *)
Definition parse_table : list (string * node) :=
  [(text_import_b, tree_import_b); (text_def_foo, tree_def_foo);
   (text_use_foo, tree_use_foo); (text_def_zed, tree_def_zed);
   (text_import_helper, tree_import_helper);
   (text_nested_import, tree_nested_import)].

Definition table_parse (source filename : string) : parse_outcome :=
  match List.find (λ kv, bool_decide (kv.1 = source)) parse_table with
  | Some kv => Parsed kv.2
  | None => RaisesSyntaxError ("invalid syntax (" +:+ filename +:+ ", line 1)")
  end.

Definition python : Platform :=
  {| ast_parse := table_parse;
     ast_unparse := λ _, None;
     sha256_hexdigest := λ s, "sha256:" +:+ s |}.

Definition clock (n : nat) : Q := inject_Z (1000 + Z.of_nat n).

Definition file (text : string) : File :=
  {| read_text := text; st_mtime := 17 # 1 |}.

(** End-to-end scenario A of the specification. *)
Definition tree_abc : gmap string File :=
  list_to_map [("a.py", file text_import_b); ("b.py", file text_def_foo);
               ("c.py", file text_use_foo)].

(** Scenario A with one more file that nothing depends on. *)
Definition tree_abcz : gmap string File :=
  <["z.py" := file text_def_zed]> tree_abc.

(** One file that does not parse. *)
Definition tree_broken : gmap string File :=
  list_to_map [("bad.py", file text_broken)].

(** End-to-end scenario C: one valid file and one with a syntax error. *)
Definition tree_ok_bad : gmap string File :=
  list_to_map [("ok.py", file text_def_foo); ("bad.py", file text_broken)].

(** A module that imports a file of the excluded directory [build]. *)
Definition tree_build : gmap string File :=
  list_to_map [("main.py", file text_import_helper);
               ("build/helper.py", file text_def_foo)].

(** A world model that predicts, for a change of [b.py], a consequence on
    [z.py] with strength 0.5, on [a.py] with strength 0.95 and on a file
    that is not indexed. *)
Definition oracle : WorldModelClass :=
  {| world := unit;
     WorldModel := λ _ _ _, inr ();
     add_fact := λ w _ _ _ _ _, w;
     add_causal_link := λ w _ _ _, w;
     predict_consequence := λ _ subject,
       if bool_decide (subject = "file:b.py")
       then [("file:z.py", 1 # 2); ("file:a.py", 95 # 100);
             ("file:gone.py", 1 # 1); ("symbol:foo", 1 # 1)]
       else [];
     len_facts := λ _, 0;
     len_expectations := λ _, 0;
     has_capsule_encoder := λ _, true |}.

Definition no_abs (norm : string) : option string := None.

Definition no_grilly : string + WorldModelClass :=
  inl "No module named 'grilly'".
Definition entry_a : ImpactEntry :=
  {| file_path := "a.py"; distance := 1; impact_kind := "direct";
     confidence := 85 # 100; impact_source := "graph" |}.

Definition store_abc : StateStore.t :=
  (refresh_index python clock tree_abc StateStore.empty).1.
Definition store_abcz : StateStore.t :=
  (refresh_index python clock tree_abcz StateStore.empty).1.

End Scenario.

(** ** Predicates in which the properties are stated *)

Module Spec.
Import Ast StateStore Parser IndexService.

(** A candidate of the scanner: a [.py] file outside the excluded
    directories. *)
Definition candidate (pf : string * File) : Prop :=
  Py.endswith (List.last (parts pf.1) "") ".py" = true ∧
  (list_to_set (parts pf.1) : gset string) ∩ _SKIP_DIRS = ∅.

#[global] Instance candidate_dec pf : Decision (candidate pf).
Proof. unfold candidate. apply _. Defined.

(** The text of the file parses. *)
Definition parses (P : Platform) (pf : string * File) : bool :=
  match ast_parse P (read_text pf.2) pf.1 with
  | Parsed _ => true
  | _ => false
  end.

(** The module tokens one import statement contributes: [import a.b]
    gives [a.b], [from a.b import c] gives [a.b.c], [from a.b import *]
    gives [a.b], and [from . import c] gives [c]. *)
Definition from_token (module : string) (a : alias) : option string :=
  if bool_decide (alias_name a = "*") then
    if bool_decide (module ≠ "") then Some module else None
  else if bool_decide (module ≠ "") then
    Some (module +:+ "." +:+ alias_name a)
  else Some (alias_name a).

Definition tokens_of (n : node) : list string :=
  match n with
  | Import names => filter (λ x, x ≠ "") (alias_name <$> names)
  | ImportFrom module names _ => omap (from_token (default "" module)) names
  | _ => []
  end.

(** The loop of [refresh_index] does not skip the item. *)
Definition stale (P : Platform) (previous : gmap string FileMeta)
    (item : string * (string * File)) : bool :=
  negb (unchanged (previous !! item.1) (_sha256_text P (read_text item.2.2))
                  (st_mtime item.2.2)).

(** No row of any table mentions [path]. *)
Definition absent (path : string) (st : StateStore.t) : Prop :=
  indexed_files st !! path = None ∧
  Forall (λ r, sym_file_path r ≠ path) (symbols st) ∧
  Forall (λ r, imp_file_path r ≠ path) (imports st) ∧
  Forall (λ r, call_file_path r ≠ path) (calls st) ∧
  Forall (λ e, src_file e ≠ path ∧ dst_file e ≠ path) (edges st).

(** No fact row (symbol, import, call) mentions [path]. *)
Definition no_facts (path : string) (st : StateStore.t) : Prop :=
  Forall (λ r, sym_file_path r ≠ path) (symbols st) ∧
  Forall (λ r, imp_file_path r ≠ path) (imports st) ∧
  Forall (λ r, call_file_path r ≠ path) (calls st).

(** Every fact row is owned by an indexed file. *)
Definition owned (st : StateStore.t) : Prop :=
  Forall (λ r, is_Some (indexed_files st !! sym_file_path r)) (symbols st) ∧
  Forall (λ r, is_Some (indexed_files st !! imp_file_path r)) (imports st) ∧
  Forall (λ r, is_Some (indexed_files st !! call_file_path r)) (calls st).

(** Where an edge of the rebuilt graph comes from. *)
Definition import_origin (fs : Tree) (st : StateStore.t) (e : EdgeRow)
    : Prop :=
  edge_type e = "import" ∧ weight e = 1 # 1 ∧ src_file e ≠ dst_file e ∧
  ∃ row, row ∈ imports st ∧ imp_file_path row = src_file e ∧
         _resolve_import_to_file fs (module_name row) = Some (dst_file e).

Definition call_origin (st : StateStore.t) (e : EdgeRow) : Prop :=
  edge_type e = "call" ∧ weight e = 7 # 10 ∧ src_file e ≠ dst_file e ∧
  ∃ row sym, row ∈ calls st ∧ sym ∈ symbols st ∧
             call_file_path row = src_file e ∧
             symbol_name sym = callee_name row ∧
             sym_file_path sym = dst_file e.

(** [g] is a reverse neighbour of [f]: some edge goes from [g] to [f]. *)
Definition depends_on (edges : list EdgeRow) (f g : string) : Prop :=
  ∃ e, e ∈ edges ∧ dst_file e = f ∧ src_file e = g.

(** [hops edges changed n f]: [f] is reached from a changed file by [n]
    reverse edges. *)
Inductive hops (edges : list EdgeRow) (changed : list string)
    : nat → string → Prop :=
| hops_seed f : f ∈ changed → hops edges changed 0 f
| hops_edge n f g :
    hops edges changed n f → depends_on edges f g →
    hops edges changed (S n) g.

(** Order of two nodes by their recorded distances. *)
Definition dist_le (m : gmap string Z) (f g : string) : Prop :=
  ∀ x y, m !! f = Some x → m !! g = Some y → (x ≤ y)%Z.

(** The invariant of the traversal: recorded distances are hop counts
    within the depth; the frontier holds recorded nodes, once each, in
    the order of their distances, which span at most two levels; the
    neighbours of every node that was processed below the maximal depth
    are recorded; the changed files are at distance 0. *)
Record inv (edges : list EdgeRow) (changed : list string) (max_depth : Z)
    (s : Bfs) : Prop := {
  inv_sound : ∀ f x, bfs_distance s !! f = Some x →
    ∃ n, x = Z.of_nat n ∧ hops edges changed n f ∧ (x ≤ Z.max 0 max_depth)%Z;
  inv_frontier : ∀ f, f ∈ frontier s → is_Some (bfs_distance s !! f);
  inv_nodup : NoDup (frontier s);
  inv_sorted : StronglySorted (dist_le (bfs_distance s)) (frontier s);
  inv_window : ∀ cur rest h f x,
    frontier s = cur :: rest → bfs_distance s !! cur = Some h →
    bfs_distance s !! f = Some x → (x ≤ h + 1)%Z;
  inv_closed : ∀ f x g,
    bfs_distance s !! f = Some x → f ∉ frontier s → (x < max_depth)%Z →
    depends_on edges f g →
    ∃ y, bfs_distance s !! g = Some y ∧ (y ≤ x + 1)%Z;
  inv_seeds : ∀ f, f ∈ changed → bfs_distance s !! f = Some 0%Z
}.

(** Nodes that can be discovered at all, and the measure that every
    iteration of the traversal decreases. *)
Definition universe (edges : list EdgeRow) (changed : list string)
    : gset string :=
  list_to_set changed ∪ list_to_set (src_file <$> edges).
Definition potential (edges : list EdgeRow) (changed : list string)
    (s : Bfs) : nat :=
  size (universe edges changed ∖ dom (bfs_distance s)) + length (frontier s).

(** A consequence that passes the checks of the augmentation loop. *)
Definition valid_of (indexed : gset string) (c : string * Q)
    : option (string * Q) :=
  match Py.strip_prefix "file:" c.1 with
  | Some f => if bool_decide (f ∉ indexed) then None else Some (f, c.2)
  | None => None
  end.

(** The distance of a predicted file, given its distance so far. *)
Definition lower1 (o : option Z) : Z :=
  match o with
  | None => 1
  | Some d => if (1 <? d)%Z then 1 else d
  end.

(** The augmentation state after a valid prediction of [g]. *)
Definition upd (p : Predicted) (g : string) (s : Q) : Predicted :=
  {| predicted_set := predicted_set p ∪ {[g]};
     predicted_strength :=
       <[g := Py.max s (default (0 # 1) (predicted_strength p !! g))]>
         (predicted_strength p);
     pred_distance :=
       <[g := lower1 (pred_distance p !! g)]> (pred_distance p) |}.

(** The oracle names [f], with strength [s], as a consequence of a change
    of one of the changed files, and [f] is an indexed path. *)
Definition predicted_for (predict : string → list (string * Q))
    (indexed : gset string) (changed : list string) (f : string) (s : Q)
    : Prop :=
  f ∈ indexed ∧
  ∃ c, c ∈ changed ∧ ("file:" +:+ f, s) ∈ predict ("file:" +:+ c).

(** [s] bounds every strength predicted for [f], and is one of them or
    the initial 0.0. *)
Definition strongest (predict : string → list (string * Q))
    (indexed : gset string) (changed : list string) (f : string) (s : Q)
    : Prop :=
  (∀ s', predicted_for predict indexed changed f s' → (s' <= s)%Q) ∧
  (0 <= s)%Q ∧
  (predicted_for predict indexed changed f s ∨ s = 0 # 1).

(** The oracle cannot be used: it is disabled, its module does not
    import, or its constructor raises. *)
Definition unavailable (self : Config)
    (cognitive : string + WorldModelClass) : Prop :=
  world_model_enabled self = false ∨
  match cognitive with
  | inl _ => True
  | inr C =>
      ∃ exc, WorldModel C (world_model_dim self)
               (world_model_capsule_dim self)
               (world_model_semantic_dims self) = inl exc
  end.

(** The augmentation state of a call of [impact_for_files]. *)
Definition predictions (self : Config)
    (cognitive : string + WorldModelClass)
    (relative_to_root : string → option string) (st : StateStore.t)
    (changed_files : list string) (max_depth : Z) : Predicted :=
  let changed :=
    IndexService.changed_files
      (impact_for_files self cognitive relative_to_root st changed_files
         max_depth) in
  let sd :=
    bfs_distance (static_distance_of (list_edges st) changed max_depth) in
  match (_build_cognitive_world self cognitive st).1 with
  | Some predict =>
      apply_predictions predict (dom (get_indexed_file_meta st)) changed sd
  | None =>
      {| predicted_set := ∅; predicted_strength := ∅; pred_distance := sd |}
  end.
End Spec.

(** ** Views of trees and tables in which further properties are stated *)

Module Views.
Import Ast StateStore Parser IndexService.

(** The nodes directly below a node, in the order [generic_visit] reaches
    them: the fields in the order of [_fields]; of the parameters of a
    function, which are pairs here, the annotations. *)
Definition children (n : node) : list node :=
  match n with
  | Module_ body => body
  | ClassDef _ bases keywords body decorator_list _ _ =>
      bases ++ keywords ++ body ++ decorator_list
  | FunctionDef _ _ posonlyargs args vararg kwonlyargs kw_defaults kwarg
      defaults body decorator_list returns _ _ =>
      omap snd posonlyargs ++ omap snd args ++
      option_list (vararg ≫= snd) ++
      omap snd kwonlyargs ++ omap id kw_defaults ++
      option_list (kwarg ≫= snd) ++
      defaults ++ body ++ decorator_list ++ option_list returns
  | Call func args keywords => func :: args ++ keywords
  | Attribute value _ => [value]
  | Other children => children
  | Import _ | ImportFrom _ _ _ | Name _ => []
  end.

(** The name a class or function definition adds to the scope of the
    nodes below it. *)
Definition def_name (n : node) : list string :=
  match n with
  | ClassDef name _ _ _ _ _ _ => [name]
  | FunctionDef _ name _ _ _ _ _ _ _ _ _ _ _ _ => [name]
  | _ => []
  end.

(** [occurs p n d]: the node [d] is [n] or one of its descendants, and [p]
    lists the names of the definitions that enclose [d] from [n] on,
    outermost first. *)
Inductive occurs : list string → node → node → Prop :=
| occurs_here n : occurs [] n n
| occurs_child n x p d :
    x ∈ children n → occurs p x d → occurs (def_name n ++ p) n d.

(** The symbol a definition node stands for when the definitions that
    enclose it are named [sc]. *)
Definition symbol_of (P : Platform) (sc : list string) (d : node)
    : option SymbolItem :=
  match d with
  | ClassDef name bases _ _ _ lineno end_lineno =>
      Some {| item_symbol_name := name;
              item_qualname := Py.join "." (sc ++ [name]);
              item_kind := "class"; item_lineno := lineno;
              item_end_lineno := end_lineno;
              item_signature := class_signature P name bases |}
  | FunctionDef is_async name _ args vararg _ _ kwarg _ _ _ returns
      lineno end_lineno =>
      Some {| item_symbol_name := name;
              item_qualname := Py.join "." (sc ++ [name]);
              item_kind := if is_async then "async_function" else "function";
              item_lineno := lineno; item_end_lineno := end_lineno;
              item_signature :=
                _function_signature P is_async name args vararg kwarg
                  returns |}
  | _ => None
  end.

(** The call reference a call node stands for when the definitions that
    enclose it are named [sc]. *)
Definition call_of (sc : list string) (d : node) : option CallItem :=
  match d with
  | Call func _ _ =>
      if bool_decide (callee_of func ≠ "") then
        Some {| item_caller_qualname :=
                  match sc with [] => "<module>" | _ => Py.join "." sc end;
                item_callee_name := callee_of func |}
      else None
  | _ => None
  end.

(** What [visit] does before and after it visits the children of a node:
    a definition is recorded and its name pushed, a call with a callee
    name is recorded; the name of a definition is popped. *)
Definition enter (P : Platform) (n : node) (c : Collector) : Collector :=
  let c := from_option (append_symbol c) c (symbol_of P (scope c) n) in
  let c := from_option (append_call c) c (call_of (scope c) n) in
  foldl scope_append c (def_name n).
Definition leave (n : node) (c : Collector) : Collector :=
  match def_name n with [] => c | _ => scope_pop c end.

(** A collector after it recorded [syms] and [cls]. *)
Definition grow (c : Collector) (syms : list SymbolItem)
    (cls : list CallItem) : Collector :=
  {| scope := scope c; coll_symbols := coll_symbols c ++ syms;
     coll_calls := coll_calls c ++ cls |}.

(** What one call of [visit] on the node [n] adds to a collector whose
    scope is [sc]: [syms] are the symbols of the definitions at and below
    [n] and [cls] the calls of the call nodes at and below [n], one for
    each such node. *)
Definition collected (P : Platform) (sc : list string) (n : node)
    (syms : list SymbolItem) (cls : list CallItem) : Prop :=
  (∀ s, s ∈ syms ↔ ∃ p d, occurs p n d ∧ symbol_of P (sc ++ p) d = Some s) ∧
  (∀ k, k ∈ cls ↔ ∃ p d, occurs p n d ∧ call_of (sc ++ p) d = Some k) ∧
  length syms = length (filter (λ d, def_name d ≠ []) (walk n)) ∧
  length cls = length (filter (λ d, is_Some (call_of [] d)) (walk n)).

(** The rows [replace_file_analysis] writes for a file. *)
Definition symbol_row (p : string) (i : SymbolItem) : SymbolRow :=
  {| sym_file_path := p; symbol_name := item_symbol_name i;
     qualname := item_qualname i; kind := item_kind i;
     lineno := item_lineno i; end_lineno := item_end_lineno i;
     signature := item_signature i |}.
Definition import_row (p m : string) : ImportRow :=
  {| imp_file_path := p; module_name := m |}.
Definition call_row (p : string) (i : CallItem) : CallRow :=
  {| call_file_path := p; caller_qualname := item_caller_qualname i;
     callee_name := item_callee_name i |}.

(** The symbol, import and call rows of one file, in table order. *)
Definition facts_of (p : string) (st : StateStore.t)
    : list SymbolRow * list ImportRow * list CallRow :=
  (filter (λ r, sym_file_path r = p) (symbols st),
   filter (λ r, imp_file_path r = p) (imports st),
   filter (λ r, call_file_path r = p) (calls st)).

(** The rows of a file whose analysis is [a]. *)
Definition analysis_rows (p : string)
    (a : list SymbolItem * list string * list CallItem * option string)
    : list SymbolRow * list ImportRow * list CallRow :=
  (symbol_row p <$> a.1.1.1, import_row p <$> a.1.1.2,
   call_row p <$> a.1.2).

(** The columns of the [UNIQUE] constraint of the [edges] table. *)
Definition triple (e : EdgeRow) : string * string * string :=
  (src_file e, dst_file e, edge_type e).

(** A row of the [edges] table as the tuple it was built from. *)
Definition edge_tuple (e : EdgeRow) : EdgeTuple :=
  (src_file e, dst_file e, edge_type e, weight e).

(** The set [edges] that [_rebuild_edges] builds. *)
Definition edge_set (fs : Tree) (st : StateStore.t) : gset EdgeTuple :=
  call_edges (symbol_files_by_name st)
    (import_edges fs ∅ (list_imports st)) (list_calls st).

End Views.

(** * Properties *)

Module StoreFacts.
Import StateStore Spec.

Lemma Forall_filter_neg {A} (P : A → Prop) `{∀ x, Decision (P x)} (l : list A) :
  Forall P (filter P l).
Proof. apply Forall_forall. intros x [? _]%list_elem_of_filter. done. Qed.

Lemma Forall_filter_keep {A} (P Q : A → Prop) `{∀ x, Decision (P x)}
    (l : list A) : Forall Q l → Forall Q (filter P l).
Proof.
  rewrite !Forall_forall. intros HQ x [_ ?]%list_elem_of_filter. auto.
Qed.

Lemma delete_file_absent st path : absent path (delete_file st path).
Proof.
  unfold absent, delete_file; simpl. split; [apply lookup_delete_eq|].
  repeat split; try apply Forall_filter_neg.
  apply Forall_forall. intros e [He _]%list_elem_of_filter. tauto.
Qed.

Lemma delete_file_no_facts st p q :
  no_facts p st → no_facts p (delete_file st q).
Proof.
  intros (Hs & Hi & Hc). unfold no_facts, delete_file; simpl.
  repeat split; by apply Forall_filter_keep.
Qed.

Lemma delete_file_owned st q : owned st → owned (delete_file st q).
Proof.
  intros (Hs & Hi & Hc). unfold owned, delete_file; simpl.
  repeat split; apply Forall_forall; intros r [Hne Hr]%list_elem_of_filter;
    rewrite lookup_delete_ne by done;
    [ by apply (proj1 (Forall_forall _ _) Hs)
    | by apply (proj1 (Forall_forall _ _) Hi)
    | by apply (proj1 (Forall_forall _ _) Hc) ].
Qed.

Lemma foldl_delete_lookup (l : list string) st p :
  indexed_files (foldl delete_file st l) !! p =
  if decide (p ∈ l) then None else indexed_files st !! p.
Proof.
  revert st. induction l as [|q l IH]; intros st; cbn [foldl].
  - case_decide as Hin; [by apply elem_of_nil in Hin|done].
  - rewrite IH. cbn [delete_file indexed_files].
    destruct (decide (p ∈ l)) as [Hl|Hl].
    + by rewrite decide_True by by right.
    + destruct (decide (p = q)) as [->|Hne].
      * rewrite decide_True by by left. apply lookup_delete_eq.
      * rewrite decide_False by (intros [?|?]%elem_of_cons; done).
        by apply lookup_delete_ne.
Qed.

Lemma foldl_delete_no_facts (l : list string) st p :
  p ∈ l ∨ no_facts p st → no_facts p (foldl delete_file st l).
Proof.
  revert st. induction l as [|q l IH]; intros st [Hin|Hnf]; simpl.
  - by apply elem_of_nil in Hin.
  - done.
  - apply IH. apply elem_of_cons in Hin as [->|Hin]; [right|by left].
    destruct (delete_file_absent st q) as (_ & ? & ? & ? & _). by repeat split.
  - apply IH. right. by apply delete_file_no_facts.
Qed.

Lemma foldl_delete_owned (l : list string) st :
  owned st → owned (foldl delete_file st l).
Proof.
  revert st. induction l as [|q l IH]; intros st H; simpl; [done|].
  apply IH. by apply delete_file_owned.
Qed.

Lemma analysis_no_facts st p q syms imps cls :
  p ≠ q → no_facts p st →
  no_facts p (replace_file_analysis st q syms imps cls).
Proof.
  intros Hne (Hs & Hi & Hc). unfold no_facts, replace_file_analysis; simpl.
  repeat split; apply Forall_app; split;
    try (by apply Forall_filter_keep);
    apply Forall_fmap, Forall_forall; intros; simpl; congruence.
Qed.

Lemma analysis_owned st q syms imps cls :
  is_Some (indexed_files st !! q) → owned st →
  owned (replace_file_analysis st q syms imps cls).
Proof.
  intros Hq (Hs & Hi & Hc). unfold owned, replace_file_analysis; simpl.
  repeat split; apply Forall_app; split;
    try (by apply Forall_filter_keep);
    apply Forall_fmap, Forall_forall; intros; simpl; done.
Qed.

Lemma upsert_owned st q h m t pe :
  owned st → owned (upsert_indexed_file st q h m t pe).
Proof.
  intros (Hs & Hi & Hc). unfold owned, upsert_indexed_file; simpl.
  repeat split; (eapply Forall_impl; [eassumption|]); simpl; intros r Hr;
    rewrite lookup_insert; case_decide; eauto.
Qed.

Lemma insert_or_ignore_subseteq tbl e x :
  x ∈ insert_or_ignore tbl e → x ∈ tbl ∨ x = e.
Proof.
  unfold insert_or_ignore. case_bool_decide; [by left|].
  intros [?|?%list_elem_of_singleton]%elem_of_app; auto.
Qed.

Lemma replace_edges_subseteq st es x :
  x ∈ edges (replace_edges st es) → x ∈ es.
Proof.
  unfold replace_edges; simpl.
  assert (∀ acc, x ∈ foldl insert_or_ignore acc es → x ∈ acc ∨ x ∈ es) as H.
  { induction es as [|e es IH]; intros acc Hx; simpl in *; [by left|].
    apply IH in Hx as [Hx|Hx]; [|right; by right].
    apply insert_or_ignore_subseteq in Hx as [?| ->]; [by left|right; by left]. }
  intros Hx. apply H in Hx as [Hx|Hx]; [by apply elem_of_nil in Hx|done].
Qed.

Lemma symbol_files_by_name_owner st name f :
  f ∈ default ∅ (symbol_files_by_name st !! name) →
  ∃ r, r ∈ symbols st ∧ symbol_name r = name ∧ sym_file_path r = f.
Proof.
  unfold symbol_files_by_name.
  assert (∀ l (acc : gmap string (gset string)),
    f ∈ default ∅ (foldl (λ out r,
           <[symbol_name r :=
               (out !!! symbol_name r) ∪ {[sym_file_path r]}]> out) acc l !! name) →
    f ∈ default ∅ (acc !! name) ∨
    ∃ r, r ∈ l ∧ symbol_name r = name ∧ sym_file_path r = f) as H.
  { induction l as [|r l IH]; intros acc Hf; simpl in *; [by left|].
    apply IH in Hf as [Hf|(r' & ? & ? & ?)].
    - rewrite lookup_insert in Hf. case_decide as Hn.
      + simpl in Hf. apply elem_of_union in Hf as [Hf|Hf%elem_of_singleton].
        * left. rewrite lookup_total_alt in Hf. by rewrite <- Hn.
        * right. exists r. split; [by left|done].
      + by left.
    - right. exists r'. split; [by right|done]. }
  intros Hf. apply H in Hf as [Hf|Hf]; [|done].
  rewrite lookup_empty in Hf. simpl in Hf. set_solver.
Qed.

End StoreFacts.

Module ScanFacts.
Import Ast StateStore Parser IndexService StoreFacts Spec.

Lemma dict_set_fresh {V} (d : list (string * V)) k v :
  k ∉ d.*1 → Py.dict_set d k v = d ++ [(k, v)].
Proof.
  induction d as [|[k' v'] d IH]; intros Hk; simpl; [done|].
  rewrite fmap_cons in Hk. apply not_elem_of_cons in Hk as [Hne Hk].
  simpl in Hne. rewrite decide_False by done. by rewrite IH.
Qed.

Lemma dict_of_items_NoDup {V} (items : list (string * V)) :
  NoDup items.*1 → Py.dict_of_items items = items.
Proof.
  unfold Py.dict_of_items.
  assert (∀ acc : list (string * V), NoDup (acc ++ items).*1 →
            foldl (λ d kv, Py.dict_set d kv.1 kv.2) acc items = acc ++ items)
    as H.
  { induction items as [|[k v] items IH]; intros acc Hnd; simpl.
    - by rewrite app_nil_r.
    - rewrite dict_set_fresh.
      + rewrite IH; rewrite <- app_assoc; done.
      + rewrite fmap_app, fmap_cons in Hnd.
        apply NoDup_app in Hnd as (_ & Hd & _). intros Hin.
        apply (Hd _ Hin). by left. }
  intros Hnd. by apply (H []).
Qed.

Lemma iter_python_files_Permutation fs :
  _iter_python_files fs ≡ₚ
  filter (λ pf, (list_to_set (parts pf.1) : gset string) ∩ _SKIP_DIRS = ∅)
         (rglob_py fs).
Proof. apply merge_sort_Permutation. Qed.

(** Which files the scanner enumerates. *)
Lemma elem_of_iter_python_files fs rel f :
  (rel, f) ∈ _iter_python_files fs ↔
  fs !! rel = Some f ∧
  Py.endswith (List.last (parts rel) "") ".py" = true ∧
  (list_to_set (parts rel) : gset string) ∩ _SKIP_DIRS = ∅.
Proof.
  rewrite iter_python_files_Permutation. unfold rglob_py.
  rewrite !list_elem_of_filter, elem_of_map_to_list. simpl. tauto.
Qed.

Lemma NoDup_iter_python_files fs : NoDup (_iter_python_files fs).*1.
Proof.
  rewrite iter_python_files_Permutation. unfold rglob_py.
  eapply sublist_NoDup; [apply (NoDup_fst_map_to_list fs)|].
  apply fmap_sublist. etrans; apply sublist_filter.
Qed.

Lemma current_map_of_iter fs :
  current_map_of (_iter_python_files fs) =
  (λ pf, (pf.1, pf)) <$> _iter_python_files fs.
Proof.
  unfold current_map_of, _normalize_rel. apply dict_of_items_NoDup.
  rewrite <- list_fmap_compose.
  erewrite (list_fmap_ext _ fst); [apply NoDup_iter_python_files|done].
Qed.

Lemma current_map_keys fs :
  (current_map_of (_iter_python_files fs)).*1 = (_iter_python_files fs).*1.
Proof.
  rewrite current_map_of_iter, <- list_fmap_compose.
  by apply list_fmap_ext.
Qed.

Lemma elem_of_current_map fs rel path f :
  (rel, (path, f)) ∈ current_map_of (_iter_python_files fs) ↔
  path = rel ∧ (rel, f) ∈ _iter_python_files fs.
Proof.
  rewrite current_map_of_iter, list_elem_of_fmap. split.
  - intros ([r f'] & Heq & Hin). simpl in Heq. by simplify_eq.
  - intros [-> Hin]. by exists (rel, f).
Qed.


Section Scan.
Variable P : Platform.
Variable time_time : nat → Q.
Variable previous : gmap string FileMeta.

Abbreviation scan := (foldl (scan_file P time_time previous)).

Abbreviation stale := (Spec.stale P previous).

Lemma scan_file_skip s rel path f :
  stale (rel, (path, f)) = false →
  scan_file P time_time previous s (rel, (path, f)) =
  {| scan_store := scan_store s; scan_indexed := scan_indexed s;
     scan_skipped := S (scan_skipped s);
     scan_parse_errors := scan_parse_errors s; parsed := parsed s |}.
Proof.
  unfold Spec.stale, scan_file. simpl. intros ->%negb_false_iff. done.
Qed.

Lemma scan_file_index s rel path f :
  stale (rel, (path, f)) = true →
  ∃ syms imps cls pe,
    _parse_python_file P (read_text f) path = (syms, imps, cls, pe) ∧
    scan_file P time_time previous s (rel, (path, f)) =
    {| scan_store :=
         replace_file_analysis
           (upsert_indexed_file (scan_store s) rel
              (_sha256_text P (read_text f)) (st_mtime f)
              (time_time (scan_indexed s)) pe)
           rel syms imps cls;
       scan_indexed := S (scan_indexed s);
       scan_skipped := scan_skipped s;
       scan_parse_errors :=
         if pe is Some _ then S (scan_parse_errors s)
         else scan_parse_errors s;
       parsed := parsed s ++ [rel] |}.
Proof.
  unfold Spec.stale, scan_file. simpl. intros ->%negb_true_iff.
  destruct (_parse_python_file P (read_text f) path) as [[[syms imps] cls] pe].
  by exists syms, imps, cls, pe.
Qed.


Lemma scan_parsed items s rel :
  rel ∈ parsed (scan s items) ↔
  rel ∈ parsed s ∨ ∃ pf, (rel, pf) ∈ items ∧ stale (rel, pf) = true.
Proof.
  revert s. induction items as [|[r [path f]] items IH]; intros s;
    cbn [foldl].
  - split; [by left|]. intros [?|(pf & Hin & _)]; [done|].
    by apply elem_of_nil in Hin.
  - rewrite IH. destruct (stale (r, (path, f))) eqn:Hst.
    + destruct (scan_file_index s r path f Hst) as (?&?&?&?&_&->). simpl.
      rewrite elem_of_app, list_elem_of_singleton. split.
      * intros [[?| ->]|(pf & Hin & Hs)]; [by left|..].
        -- right. exists (path, f). split; [by left|done].
        -- right. exists pf. split; [by right|done].
      * intros [?|(pf & [Heq|Hin]%elem_of_cons & Hs)]; [by left; left|..].
        -- simplify_eq. by left; right.
        -- right. by exists pf.
    + rewrite (scan_file_skip s r path f Hst). simpl. split.
      * intros [?|(pf & Hin & Hs)]; [by left|].
        right. exists pf. split; [by right|done].
      * intros [?|(pf & [Heq|Hin]%elem_of_cons & Hs)]; [by left|..].
        -- simplify_eq. congruence.
        -- right. by exists pf.
Qed.

(** When nothing is stale, nothing is indexed. *)
Lemma scan_all_fresh items s :
  Forall (λ item, stale item = false) items →
  scan_indexed (scan s items) = scan_indexed s ∧
  scan_skipped (scan s items) = scan_skipped s + length items ∧
  scan_store (scan s items) = scan_store s.
Proof.
  revert s. induction items as [|[r [path f]] items IH]; intros s Hall;
    cbn [foldl length]; [repeat split; lia|].
  apply Forall_cons in Hall as [Hst Hall].
  destruct (IH (scan_file P time_time previous s (r, (path, f))) Hall)
    as (-> & -> & ->).
  rewrite (scan_file_skip s r path f Hst). simpl. repeat split; lia.
Qed.

(** Rows of the files that are not scanned. *)
Lemma scan_lookup_other items s rel :
  rel ∉ items.*1 →
  indexed_files (scan_store (scan s items)) !! rel =
  indexed_files (scan_store s) !! rel.
Proof.
  revert s. induction items as [|[r [path f]] items IH]; intros s Hnin;
    cbn [foldl]; [done|].
  rewrite fmap_cons in Hnin. apply not_elem_of_cons in Hnin as [Hne Hnin].
  simpl in Hne. rewrite IH by done.
  destruct (stale (r, (path, f))) eqn:Hst.
  - destruct (scan_file_index s r path f Hst) as (?&?&?&?&_&->). simpl.
    by rewrite lookup_insert_ne.
  - by rewrite (scan_file_skip s r path f Hst).
Qed.

(** The row of a file that is scanned. *)
Lemma scan_lookup items s rel path f :
  NoDup items.*1 → (rel, (path, f)) ∈ items →
  if stale (rel, (path, f)) then
    ∃ t, indexed_files (scan_store (scan s items)) !! rel =
         Some {| file_hash := _sha256_text P (read_text f);
                 mtime := st_mtime f; indexed_at := t;
                 parse_error := (_parse_python_file P (read_text f) path).2 |}
  else indexed_files (scan_store (scan s items)) !! rel =
       indexed_files (scan_store s) !! rel.
Proof.
  revert s. induction items as [|[r [p' f']] items IH]; intros s Hnd Hin;
    [by apply elem_of_nil in Hin|].
  rewrite fmap_cons in Hnd. apply NoDup_cons in Hnd as [Hnin Hnd].
  apply elem_of_cons in Hin as [Heq|Hin].
  - simplify_eq. cbn [foldl]. simpl in Hnin.
    destruct (stale (r, (p', f'))) eqn:Hst.
    + destruct (scan_file_index s r p' f' Hst) as (?&?&?&pe&Hp&->).
      exists (time_time (scan_indexed s)).
      rewrite scan_lookup_other by done. simpl.
      rewrite lookup_insert_eq. by rewrite Hp.
    + rewrite scan_lookup_other by done.
      by rewrite (scan_file_skip s r p' f' Hst).
  - assert (rel ≠ r) as Hne.
    { intros ->. apply Hnin. simpl.
      apply list_elem_of_fmap. by exists (r, (path, f)). }
    cbn [foldl]. specialize (IH (scan_file P time_time previous s (r, (p', f')))
                         Hnd Hin).
    destruct (stale (rel, (path, f))); [done|].
    rewrite IH. destruct (stale (r, (p', f'))) eqn:Hst.
    * destruct (scan_file_index s r p' f' Hst) as (?&?&?&?&_&->). simpl.
      by rewrite lookup_insert_ne.
    * by rewrite (scan_file_skip s r p' f' Hst).
Qed.

(** Every scanned file has a row afterwards, provided the files that
    had one before still have it. *)
Lemma scan_lookup_is_Some items s rel :
  NoDup items.*1 → rel ∈ items.*1 →
  (is_Some (previous !! rel) → is_Some (indexed_files (scan_store s) !! rel)) →
  is_Some (indexed_files (scan_store (scan s items)) !! rel).
Proof.
  intros Hnd ([r [path f]] & -> & Hin)%list_elem_of_fmap Hprev. simpl in *.
  pose proof (scan_lookup items s r path f Hnd Hin) as H.
  destruct (stale (r, (path, f))) eqn:Hst.
  - destruct H as [t ->]. eauto.
  - rewrite H. apply Hprev. unfold Spec.stale in Hst. simpl in Hst.
    apply negb_false_iff in Hst. unfold unchanged in Hst.
    destruct (previous !! r); [eauto|done].
Qed.

Lemma scan_no_facts items s p :
  p ∉ items.*1 → no_facts p (scan_store s) →
  no_facts p (scan_store (scan s items)).
Proof.
  revert s. induction items as [|[r [path f]] items IH]; intros s Hnin Hnf;
    cbn [foldl]; [done|].
  rewrite fmap_cons in Hnin. apply not_elem_of_cons in Hnin as [Hne Hnin].
  simpl in Hne. apply IH; [done|].
  destruct (stale (r, (path, f))) eqn:Hst.
  - destruct (scan_file_index s r path f Hst) as (?&?&?&?&_&->). simpl.
    apply analysis_no_facts; [done|].
    destruct Hnf as (?&?&?). by repeat split.
  - by rewrite (scan_file_skip s r path f Hst).
Qed.

Lemma scan_owned items s :
  owned (scan_store s) → owned (scan_store (scan s items)).
Proof.
  revert s. induction items as [|[r [path f]] items IH]; intros s Hown;
    cbn [foldl]; [done|].
  apply IH. destruct (stale (r, (path, f))) eqn:Hst.
  - destruct (scan_file_index s r path f Hst) as (?&?&?&?&_&->). simpl.
    apply analysis_owned.
    + simpl. rewrite lookup_insert_eq. eauto.
    + by apply upsert_owned.
  - by rewrite (scan_file_skip s r path f Hst).
Qed.
End Scan.
End ScanFacts.

Module RefreshFacts.
Import Ast StateStore Parser IndexService StoreFacts ScanFacts Spec.

Lemma elem_of_sorted_set (s : gset string) x : x ∈ Py.sorted_set s ↔ x ∈ s.
Proof.
  unfold Py.sorted_set, Py.sorted_str.
  rewrite merge_sort_Permutation. apply elem_of_elements.
Qed.

Lemma elem_of_deleted_paths previous (cm : list (string * (string * File))) p :
  p ∈ deleted_paths previous cm ↔ is_Some (previous !! p) ∧ p ∉ cm.*1.
Proof.
  unfold deleted_paths. rewrite elem_of_sorted_set, elem_of_difference.
  rewrite elem_of_dom, elem_of_list_to_set. done.
Qed.

Lemma lookup_meta st p :
  get_indexed_file_meta st !! p =
  (λ r, {| meta_file_hash := file_hash r; meta_mtime := mtime r;
           meta_parse_error := parse_error r |}) <$> indexed_files st !! p.
Proof. unfold get_indexed_file_meta. apply lookup_fmap. Qed.


Section Refresh.
Variable P : Platform.
Variable time_time : nat → Q.

Lemma refresh_index_store fs st :
  (refresh_index P time_time fs st).1 =
  (_rebuild_edges fs (scan_store (refresh_scan P time_time fs st))).1.
Proof. done. Qed.

Lemma refresh_index_indexed_files fs st :
  indexed_files (refresh_index P time_time fs st).1 =
  indexed_files (scan_store (refresh_scan P time_time fs st)).
Proof. done. Qed.

(** The store row of an enumerated file after a refresh. *)
Lemma refresh_lookup fs st rel f :
  (rel, f) ∈ _iter_python_files fs →
  if stale P (get_indexed_file_meta st) (rel, (rel, f)) then
    ∃ t, indexed_files (refresh_index P time_time fs st).1 !! rel =
         Some {| file_hash := _sha256_text P (read_text f);
                 mtime := st_mtime f; indexed_at := t;
                 parse_error := (_parse_python_file P (read_text f) rel).2 |}
  else indexed_files (refresh_index P time_time fs st).1 !! rel =
       indexed_files st !! rel.
Proof.
  intros Hin. rewrite refresh_index_indexed_files. unfold refresh_scan.
  set (prev := get_indexed_file_meta st).
  set (cm := current_map_of (_iter_python_files fs)).
  set (s0 := {| scan_store := foldl delete_file st (deleted_paths prev cm) |}).
  assert ((rel, (rel, f)) ∈ cm) as Hcm by by apply elem_of_current_map.
  assert (NoDup cm.*1) as Hnd.
  { unfold cm. rewrite current_map_keys. apply NoDup_iter_python_files. }
  pose proof (scan_lookup P time_time prev cm s0 rel rel f Hnd Hcm) as H.
  destruct (stale P prev (rel, (rel, f))); [done|].
  rewrite H. unfold s0. simpl. rewrite foldl_delete_lookup.
  rewrite decide_False; [done|].
  intros [_ Hn]%elem_of_deleted_paths. apply Hn.
  apply list_elem_of_fmap. by exists (rel, (rel, f)).
Qed.

Lemma refresh_lookup_None fs st p :
  p ∉ (_iter_python_files fs).*1 →
  indexed_files (refresh_index P time_time fs st).1 !! p = None.
Proof.
  intros Hp. rewrite refresh_index_indexed_files. unfold refresh_scan.
  rewrite scan_lookup_other by by rewrite current_map_keys.
  simpl. rewrite foldl_delete_lookup. case_decide as Hd; [done|].
  destruct (indexed_files st !! p) as [r|] eqn:Hr; [|done].
  exfalso. apply Hd. apply elem_of_deleted_paths.
  rewrite current_map_keys. split; [|done].
  rewrite lookup_meta, Hr. eauto.
Qed.

Lemma refresh_lookup_is_Some fs st p :
  p ∈ (_iter_python_files fs).*1 →
  is_Some (indexed_files (refresh_index P time_time fs st).1 !! p).
Proof.
  intros ([rel f] & -> & Hin)%list_elem_of_fmap. cbn [fst].
  pose proof (refresh_lookup fs st rel f Hin) as H.
  destruct (stale P (get_indexed_file_meta st) (rel, (rel, f))) eqn:Hst.
  - destruct H as [t ->]. eauto.
  - rewrite H. unfold Spec.stale in Hst. simpl in Hst.
    apply negb_false_iff in Hst. rewrite lookup_meta in Hst.
    destruct (indexed_files st !! rel); [eauto|done].
Qed.

Lemma refresh_scan_owned fs st :
  owned st → owned (scan_store (refresh_scan P time_time fs st)).
Proof.
  intros Hown. unfold refresh_scan. apply scan_owned. simpl.
  by apply foldl_delete_owned.
Qed.

Lemma refresh_scan_no_facts fs st p :
  p ∉ (_iter_python_files fs).*1 →
  is_Some (indexed_files st !! p) ∨ no_facts p st →
  no_facts p (scan_store (refresh_scan P time_time fs st)).
Proof.
  intros Hp Hor. unfold refresh_scan.
  apply scan_no_facts; [by rewrite current_map_keys|]. simpl.
  apply foldl_delete_no_facts. destruct Hor as [[r Hr]|?]; [left|by right].
  apply elem_of_deleted_paths. rewrite current_map_keys.
  split; [|done]. rewrite lookup_meta, Hr. eauto.
Qed.

(** Ownership of the fact rows is an invariant of [refresh_index]. *)
Lemma refresh_index_owned fs st :
  owned st → owned (refresh_index P time_time fs st).1.
Proof. intros Hown. by apply refresh_scan_owned. Qed.
End Refresh.

Lemma owned_empty : owned StateStore.empty.
Proof. repeat split; apply Forall_nil_2. Qed.
End RefreshFacts.

Module EdgeFacts.
Import Ast StateStore Parser IndexService StoreFacts ScanFacts RefreshFacts Spec.

Lemma import_edges_sound fs st rows acc t :
  rows ⊆ imports st →
  t ∈ import_edges fs acc rows →
  t ∈ acc ∨ import_origin fs st (edge_row t).
Proof.
  unfold import_edges. revert acc.
  induction rows as [|row rows IH]; intros acc Hsub Ht; cbn [foldl] in Ht;
    [by left|].
  apply IH in Ht; [|set_solver]. destruct Ht as [Ht|Ht]; [|by right].
  destruct (_resolve_import_to_file fs (module_name row)) as [dst|] eqn:Hres;
    [|by left].
  case_bool_decide as Hd; [|by left].
  apply elem_of_union in Ht as [Ht|Ht%elem_of_singleton]; [by left|].
  right. subst t. unfold import_origin. simpl. destruct Hd as [_ Hne].
  repeat split; [congruence|]. exists row. repeat split; [set_solver|done].
Qed.

Lemma call_edges_sound st rows acc t :
  rows ⊆ calls st →
  t ∈ call_edges (symbol_files_by_name st) acc rows →
  t ∈ acc ∨ call_origin st (edge_row t).
Proof.
  unfold call_edges. revert acc.
  induction rows as [|row rows IH]; intros acc Hsub Ht; cbn [foldl] in Ht;
    [by left|].
  apply IH in Ht; [|set_solver]. destruct Ht as [Ht|Ht]; [|by right].
  set (owners := default ∅ (symbol_files_by_name st !! callee_name row)) in *.
  assert (∀ (ds : list string) (acc : gset EdgeTuple),
    t ∈ foldl (λ edges dst,
                 if bool_decide (dst ≠ call_file_path row)
                 then edges ∪ {[(call_file_path row, dst, "call", 7 # 10)]}
                 else edges) acc ds →
    t ∈ acc ∨ ∃ dst, dst ∈ ds ∧ dst ≠ call_file_path row ∧
                     t = (call_file_path row, dst, "call", 7 # 10)) as Hin.
  { induction ds as [|d ds IHd]; intros acc' Ht'; cbn [foldl] in Ht';
      [by left|].
    apply IHd in Ht' as [Ht'|(dst & ? & ? & ?)].
    - case_bool_decide; [|by left].
      apply elem_of_union in Ht' as [?|Ht'%elem_of_singleton]; [by left|].
      right. exists d. split; [by left|done].
    - right. exists dst. split; [by right|done]. }
  apply Hin in Ht as [Ht|(dst & Hdst & Hne & ->)]; [by left|]. right.
  apply elem_of_elements, symbol_files_by_name_owner in Hdst
    as (sym & Hsym & Hname & Hfile).
  unfold call_origin. simpl. repeat split; [congruence|].
  exists row, sym. repeat split; [set_solver|done..].
Qed.

Lemma rebuild_edges_sound fs st e :
  e ∈ edges (_rebuild_edges fs st).1 →
  import_origin fs st e ∨ call_origin st e.
Proof.
  unfold _rebuild_edges. cbn [fst].
  intros (t & -> & Ht)%replace_edges_subseteq%list_elem_of_fmap.
  rewrite merge_sort_Permutation in Ht. apply elem_of_elements in Ht.
  apply call_edges_sound in Ht as [Ht|Ht]; [|by right|done].
  apply (import_edges_sound fs st) in Ht as [Ht|Ht]; [set_solver|by left|done].
Qed.

Lemma rebuild_edges_facts fs st :
  indexed_files (_rebuild_edges fs st).1 = indexed_files st ∧
  symbols (_rebuild_edges fs st).1 = symbols st ∧
  imports (_rebuild_edges fs st).1 = imports st ∧
  calls (_rebuild_edges fs st).1 = calls st.
Proof. done. Qed.

Lemma resolve_import_Some fs m d :
  _resolve_import_to_file fs m = Some d →
  is_Some (fs !! d) ∧ d ∈ module_candidates m.
Proof.
  unfold _resolve_import_to_file, _normalize_rel. case_bool_decide; [done|].
  destruct (List.find _ _) as [c|] eqn:Hfind; [|done].
  intros [= <-]. apply find_some in Hfind as [Hin Hd].
  apply bool_decide_eq_true in Hd. by apply list_elem_of_In in Hin.
Qed.
End EdgeFacts.

Module StringFacts.

Lemma app_cons a s t : String a s +:+ t = String a (s +:+ t).
Proof. done. Qed.

Lemma app_assoc (s t u : string) : (s +:+ t) +:+ u = s +:+ t +:+ u.
Proof. induction s as [|a s IH]; [done|]. by rewrite !app_cons, IH. Qed.

Lemma rev_app_app s t acc :
  String.rev_app (s +:+ t) acc = String.rev_app t (String.rev_app s acc).
Proof.
  revert acc. induction s as [|a s IH]; intros acc; [done|].
  rewrite app_cons. simpl. apply IH.
Qed.

Lemma endswith_py t : Py.endswith (t +:+ ".py") ".py" = true.
Proof.
  unfold Py.endswith, String.rev. rewrite rev_app_app. done.
Qed.

Lemma split_nonempty c s : Py.split c s ≠ [].
Proof.
  destruct s as [|a s]; simpl; [done|].
  destruct (Ascii.eqb a c); [done|]. by destruct (Py.split c s).
Qed.

(** The last component of a path that ends in [.py] ends in [.py]. *)
Lemma last_split_py t :
  ∃ t', List.last (Py.split "/" (t +:+ ".py")) "" = t' +:+ ".py".
Proof.
  induction t as [|a t [t' IH]]; [by exists ""|].
  rewrite app_cons. cbn [Py.split].
  pose proof (split_nonempty "/" (t +:+ ".py")) as Hne.
  destruct (Ascii.eqb a "/").
  - exists t'. rewrite <- IH.
    destruct (Py.split "/" (t +:+ ".py")); done.
  - destruct (Py.split "/" (t +:+ ".py")) as [|w [|w' ws]]; [done|..].
    + simpl in *. exists (String a t'). by rewrite IH.
    + exists t'. by rewrite <- IH.
Qed.

Lemma concat_snoc_py sep xs y :
  ∃ t, String.concat sep (xs ++ [y +:+ ".py"]) = t +:+ ".py".
Proof.
  induction xs as [|x xs [t IH]]; [by exists y|].
  rewrite <- app_comm_cons. cbn [String.concat].
  destruct (xs ++ [y +:+ ".py"]) as [|z zs] eqn:Hz.
  { by destruct xs. }
  rewrite IH. exists (x +:+ sep +:+ t). by rewrite !app_assoc.
Qed.

End StringFacts.

Module RefreshTheorems.
Import Ast StateStore Parser IndexService Scenario Spec.
Import StoreFacts ScanFacts RefreshFacts EdgeFacts StringFacts Spec.

Lemma unchanged_false_iff (row : option IndexedFile) h m :
  unchanged ((λ r, {| meta_file_hash := file_hash r; meta_mtime := mtime r;
                      meta_parse_error := parse_error r |}) <$> row) h m = false ↔
  row = None ∨
  ∃ r, row = Some r ∧
       (file_hash r ≠ h ∨ ¬ (mtime r == m)%Q ∨
        ∃ msg, parse_error r = Some msg ∧ msg ≠ "").
Proof.
  destruct row as [r|]; simpl; [|split; auto].
  rewrite !andb_false_iff, !bool_decide_eq_false.
  rewrite <- not_true_iff_false, Qeq_bool_iff. split.
  - intros [[Hh|Hm]|Hp]; right; exists r; split; auto.
    do 2 right. destruct (parse_error r) as [msg|]; [|tauto].
    exists msg. split; [done|]. intros ->. tauto.
  - intros [?|(r' & [= <-] & [?|[?|(msg & Hp & Hne)]])]; [done|auto..].
    right. rewrite Hp. intros [?|[= ?]]; done.
Qed.

Lemma iter_functional fs rel f f' :
  (rel, f) ∈ _iter_python_files fs → (rel, f') ∈ _iter_python_files fs →
  f = f'.
Proof.
  intros [H _]%elem_of_iter_python_files [H' _]%elem_of_iter_python_files.
  congruence.
Qed.

Lemma refresh_parsed P tt fs st rel :
  rel ∈ parsed (refresh_scan P tt fs st) ↔
  ∃ f, (rel, f) ∈ _iter_python_files fs ∧
       stale P (get_indexed_file_meta st) (rel, (rel, f)) = true.
Proof.
  unfold refresh_scan. rewrite scan_parsed. cbn [parsed]. split.
  - intros [Hin|([path f] & Hin & Hst)]; [by apply elem_of_nil in Hin|].
    apply elem_of_current_map in Hin as [-> Hin]. eauto.
  - intros (f & Hin & Hst). right. exists (rel, f).
    split; [by apply elem_of_current_map|done].
Qed.

(** C3. During [refresh_index] a file is handed to the parser exactly when
    it is enumerated and has no previous record, or its new hash differs
    from the stored one, or its mtime differs, or the stored parse error is
    non-empty; and a file whose parse failed (with a message) is parsed
    again by the next refresh, whatever its bytes and mtime are then. *)
Theorem reparse_iff_record_stale P tt fs st rel :
  (rel ∈ parsed (refresh_scan P tt fs st) ↔
   ∃ f, (rel, f) ∈ _iter_python_files fs ∧
        (indexed_files st !! rel = None ∨
         ∃ r, indexed_files st !! rel = Some r ∧
              (file_hash r ≠ _sha256_text P (read_text f) ∨
               ¬ (mtime r == st_mtime f)%Q ∨
               ∃ msg, parse_error r = Some msg ∧ msg ≠ ""))) ∧
  (∀ f msg tt' fs' f',
     (rel, f) ∈ _iter_python_files fs →
     rel ∈ parsed (refresh_scan P tt fs st) →
     (_parse_python_file P (read_text f) rel).2 = Some msg → msg ≠ "" →
     (rel, f') ∈ _iter_python_files fs' →
     rel ∈ parsed (refresh_scan P tt' fs' (refresh_index P tt fs st).1)).
Proof.
  assert (∀ tt fs st,
    rel ∈ parsed (refresh_scan P tt fs st) ↔
    ∃ f, (rel, f) ∈ _iter_python_files fs ∧
         (indexed_files st !! rel = None ∨
          ∃ r, indexed_files st !! rel = Some r ∧
               (file_hash r ≠ _sha256_text P (read_text f) ∨
                ¬ (mtime r == st_mtime f)%Q ∨
                ∃ msg, parse_error r = Some msg ∧ msg ≠ ""))) as Hiff.
  { clear. intros tt fs st. rewrite refresh_parsed.
    apply exist_proper; intros f. apply and_iff_compat_l.
    unfold Spec.stale. cbn [fst snd]. rewrite negb_true_iff, lookup_meta.
    apply unchanged_false_iff. }
  split; [apply Hiff|].
  intros f msg tt' fs' f' Hin Hparsed Hmsg Hne Hin'.
  apply Hiff. exists f'. split; [done|]. right.
  apply refresh_parsed in Hparsed as (f0 & Hin0 & Hst).
  assert (f0 = f) as -> by eauto using iter_functional.
  pose proof (refresh_lookup P tt fs st rel f Hin) as Hrow.
  rewrite Hst in Hrow. destruct Hrow as [t Hrow].
  eexists. split; [exact Hrow|]. do 2 right. exists msg. by split.
Qed.



(** C5. [delete_file] leaves no row that mentions the path and changes no
    row of another file; a refresh that finds a previously indexed path
    gone from the tree deletes it and leaves no row that mentions it. *)
Theorem delete_file_removes_only_path st path :
  (indexed_files (delete_file st path) !! path = None ∧
   Forall (λ r, sym_file_path r ≠ path) (symbols (delete_file st path)) ∧
   Forall (λ r, imp_file_path r ≠ path) (imports (delete_file st path)) ∧
   Forall (λ r, call_file_path r ≠ path) (calls (delete_file st path)) ∧
   Forall (λ e, src_file e ≠ path ∧ dst_file e ≠ path)
          (edges (delete_file st path))) ∧
  (∀ q, q ≠ path →
     indexed_files (delete_file st path) !! q = indexed_files st !! q ∧
     filter (λ r, sym_file_path r = q) (symbols (delete_file st path)) =
     filter (λ r, sym_file_path r = q) (symbols st) ∧
     filter (λ r, imp_file_path r = q) (imports (delete_file st path)) =
     filter (λ r, imp_file_path r = q) (imports st) ∧
     filter (λ r, call_file_path r = q) (calls (delete_file st path)) =
     filter (λ r, call_file_path r = q) (calls st)) ∧
  filter (λ e, src_file e ≠ path ∧ dst_file e ≠ path)
         (edges (delete_file st path)) =
  filter (λ e, src_file e ≠ path ∧ dst_file e ≠ path) (edges st) ∧
  (∀ P tt fs,
     is_Some (indexed_files st !! path) → fs !! path = None →
     let st' := (refresh_index P tt fs st).1 in
     path ∈ deleted_paths (get_indexed_file_meta st)
              (current_map_of (_iter_python_files fs)) ∧
     indexed_files st' !! path = None ∧
     Forall (λ r, sym_file_path r ≠ path) (symbols st') ∧
     Forall (λ r, imp_file_path r ≠ path) (imports st') ∧
     Forall (λ r, call_file_path r ≠ path) (calls st') ∧
     Forall (λ e, src_file e ≠ path ∧ dst_file e ≠ path) (edges st')).
Proof.
  split; [apply delete_file_absent|]. split; [|split].
  - intros q Hq. unfold delete_file; cbn.
    split; [by apply lookup_delete_ne|].
    repeat split; rewrite list_filter_filter; apply list_filter_iff;
      intros r; split; try tauto; intros Hr; split; congruence.
  - unfold delete_file; cbn. rewrite list_filter_filter.
    apply list_filter_iff. intros e. tauto.
  - intros P tt fs Hsome Hgone st'.
    assert (path ∉ (_iter_python_files fs).*1) as Hnin.
    { intros ([rel f] & -> & Hin)%list_elem_of_fmap.
      apply elem_of_iter_python_files in Hin as [Hin _]. simpl in Hgone.
      congruence. }
    split.
    { apply elem_of_deleted_paths. rewrite current_map_keys, lookup_meta.
      split; [|done]. destruct Hsome as [r ->]. eauto. }
    split; [by apply refresh_lookup_None|].
    pose proof (refresh_scan_no_facts P tt fs st path Hnin (or_introl Hsome))
      as (Hs & Hi & Hc).
    repeat split; [done..|].
    apply Forall_forall. intros e He.
    apply rebuild_edges_sound in He
      as [(_ & _ & _ & row & Hrow & Hsrc & Hres)
         |(_ & _ & _ & row & sym & Hrow & Hsym & Hsrc & _ & Hdst)].
    + split.
      * rewrite <- Hsrc. by apply (proj1 (Forall_forall _ _) Hi).
      * apply resolve_import_Some in Hres as [[f Hf] _]. congruence.
    + split.
      * rewrite <- Hsrc. by apply (proj1 (Forall_forall _ _) Hc).
      * rewrite <- Hdst. by apply (proj1 (Forall_forall _ _) Hs).
Qed.

Lemma candidate_names_py m d :
  d ∈ module_candidates m → ∃ t, d = t +:+ ".py".
Proof.
  unfold module_candidates, Py.join.
  destruct (filter _ _) as [|p ps] eqn:Hps.
  - intros ->%list_elem_of_singleton. by exists "__init__".
  - intros [->| ->%list_elem_of_singleton]%elem_of_cons.
    + apply concat_snoc_py.
    + apply (concat_snoc_py "/" (p :: ps) "__init__").
Qed.

(** C6 (as amended). After a refresh of a store whose fact rows are owned
    by indexed files, the source of every edge and the destination of
    every call edge have an [IndexedFile] row; the destination of an
    import edge is a file of the tree that matches the module path, and
    it has an [IndexedFile] row unless it lies in an excluded
    directory. *)
Theorem rebuilt_edges_reference_files P tt fs st e :
  owned st →
  e ∈ edges (refresh_index P tt fs st).1 →
  is_Some (indexed_files (refresh_index P tt fs st).1 !! src_file e) ∧
  (edge_type e = "call" ∧
   is_Some (indexed_files (refresh_index P tt fs st).1 !! dst_file e)
   ∨
   edge_type e = "import" ∧
   is_Some (fs !! dst_file e) ∧
   (∃ row, row ∈ imports (refresh_index P tt fs st).1 ∧
           imp_file_path row = src_file e ∧
           dst_file e ∈ module_candidates (module_name row)) ∧
   ((list_to_set (parts (dst_file e)) : gset string) ∩ _SKIP_DIRS = ∅ →
    is_Some (indexed_files (refresh_index P tt fs st).1 !! dst_file e))).
Proof.
  intros Hown He.
  pose proof (refresh_scan_owned P tt fs st Hown) as (Hs & Hi & Hc).
  rewrite refresh_index_indexed_files.
  apply rebuild_edges_sound in He
    as [(Hty & _ & _ & row & Hrow & Hsrc & Hres)
       |(Hty & _ & _ & row & sym & Hrow & Hsym & Hsrc & _ & Hdst)].
  - split.
    { rewrite <- Hsrc. by apply (proj1 (Forall_forall _ _) Hi). }
    right. apply resolve_import_Some in Hres as [[f Hf] Hcand].
    split; [done|]. split; [eauto|]. split; [by exists row|].
    intros Hskip. rewrite <- refresh_index_indexed_files.
    apply refresh_lookup_is_Some. apply list_elem_of_fmap.
    exists (dst_file e, f). split; [done|].
    apply elem_of_iter_python_files. split; [done|]. split; [|done].
    apply candidate_names_py in Hcand as [t ->].
    unfold parts. destruct (last_split_py t) as [t' ->]. apply endswith_py.
  - split.
    { rewrite <- Hsrc. by apply (proj1 (Forall_forall _ _) Hc). }
    left. split; [done|].
    rewrite <- Hdst. by apply (proj1 (Forall_forall _ _) Hs).
Qed.
End RefreshTheorems.

Module RefreshExamples.
Import Ast StateStore Parser IndexService Scenario Spec.
Import StoreFacts ScanFacts RefreshFacts EdgeFacts StringFacts RefreshTheorems Spec.

Lemma reparse_iff_record_stale_witness :
  "bad.py" ∈ parsed (refresh_scan python clock tree_broken
                       (refresh_index python clock tree_broken StateStore.empty).1).
Proof.
  apply (proj2 (reparse_iff_record_stale python clock tree_broken
                  StateStore.empty "bad.py")
           (file text_broken) "invalid syntax (bad.py, line 1)"
           clock tree_broken (file text_broken)).
  - vm_compute. apply list_elem_of_here.
  - vm_compute. apply list_elem_of_here.
  - reflexivity.
  - discriminate.
  - vm_compute. apply list_elem_of_here.
Defined.



Lemma delete_file_removes_only_path_witness :
  indexed_files (refresh_index python clock tree_abc store_abcz).1 !! "z.py"
  = None.
Proof.
  destruct (delete_file_removes_only_path store_abcz "z.py")
    as (_ & _ & _ & H).
  apply (H python clock tree_abc).
  - vm_compute. eauto.
  - reflexivity.
Defined.

(** C6, counterexample: [main.py] imports [build.helper]; the rebuilt graph
    has the edge to [build/helper.py], a file that is never indexed. *)
Lemma import_edge_into_excluded_directory :
  ∃ e, e ∈ edges (refresh_index python clock tree_build StateStore.empty).1 ∧
       indexed_files (refresh_index python clock tree_build StateStore.empty).1
         !! dst_file e = None.
Proof.
  exists {| src_file := "main.py"; dst_file := "build/helper.py";
            edge_type := "import"; weight := 1 # 1 |}.
  split; [vm_compute; apply list_elem_of_here|reflexivity].
Qed.

Lemma rebuilt_edges_reference_files_witness :
  is_Some (indexed_files (refresh_index python clock tree_abc StateStore.empty).1
             !! "a.py").
Proof.
  apply (rebuilt_edges_reference_files python clock tree_abc StateStore.empty
           {| src_file := "a.py"; dst_file := "b.py";
              edge_type := "import"; weight := 1 # 1 |}).
  - exact owned_empty.
  - vm_compute. apply list_elem_of_here.
Defined.
End RefreshExamples.

Module ParserTheorems.
Import Ast StateStore Parser IndexService Scenario Spec.




Lemma add_import_names_spec out names x :
  x ∈ add_import_names out names ↔
  x ∈ out ∨ x ∈ filter (λ x, x ≠ "") (alias_name <$> names).
Proof.
  unfold add_import_names. revert out.
  induction names as [|a names IH]; intros out; cbn [foldl].
  - split; [by left|]. intros [?|H]; [done|]. by apply elem_of_nil in H.
  - rewrite IH, fmap_cons, filter_cons.
    destruct (decide (alias_name a ≠ "")) as [Ha|Ha].
    + rewrite bool_decide_eq_true_2 by done.
      rewrite elem_of_union, elem_of_singleton, elem_of_cons. tauto.
    + by rewrite bool_decide_eq_false_2 by done.
Qed.

Lemma add_from_names_spec module out names x :
  x ∈ add_from_names module out names ↔
  x ∈ out ∨ x ∈ omap (from_token module) names.
Proof.
  unfold add_from_names. revert out.
  induction names as [|a names IH]; intros out; cbn [foldl].
  - split; [by left|]. intros [?|H]; [done|]. by apply elem_of_nil in H.
  - rewrite IH. change (omap (from_token module) (a :: names)) with
      (match from_token module a with
       | Some t => t :: omap (from_token module) names
       | None => omap (from_token module) names
       end).
    unfold from_token. repeat case_bool_decide;
      rewrite ?elem_of_union, ?elem_of_singleton, ?elem_of_cons; tauto.
Qed.

(** What [_extract_imports] returns: the tokens of the import statements
    at any depth of the tree, each once, in increasing order. *)
Lemma extract_imports_spec tree :
  StronglySorted String.le (_extract_imports tree) ∧
  NoDup (_extract_imports tree) ∧
  ∀ x, x ∈ _extract_imports tree ↔ ∃ n, n ∈ walk tree ∧ x ∈ tokens_of n.
Proof.
  unfold _extract_imports, Py.sorted_set, Py.sorted_str.
  split; [apply StronglySorted_merge_sort; apply _|].
  split; [rewrite merge_sort_Permutation; apply NoDup_elements|].
  intros x. rewrite merge_sort_Permutation, elem_of_elements.
  assert (∀ nodes (out : gset string),
    x ∈ foldl import_tokens out nodes ↔
    x ∈ out ∨ ∃ n, n ∈ nodes ∧ x ∈ tokens_of n) as H.
  { induction nodes as [|n nodes IH]; intros out; cbn [foldl].
    - split; [by left|]. intros [?|(n & Hn & _)]; [done|].
      by apply elem_of_nil in Hn.
    - rewrite IH.
      assert (x ∈ import_tokens out n ↔ x ∈ out ∨ x ∈ tokens_of n) as ->.
      { destruct n; cbn [import_tokens tokens_of];
          rewrite ?add_import_names_spec, ?add_from_names_spec; try done;
          (split; [by left|]; intros [?|H]; [done|by apply elem_of_nil in H]). }
      split.
      + intros [[?|?]|(n' & ? & ?)]; [by left|..].
        * right. exists n. split; [by left|done].
        * right. exists n'. split; [by right|done].
      + intros [?|(n' & [->|?]%elem_of_cons & ?)];
          [by left; left|by left; right|]. right. by exists n'. }
  rewrite H. split; [|by right]. intros [Hx|?]; [|done].
  by apply elem_of_empty in Hx.
Qed.

(** C9, at the failing input: the only import of [def f(): import os]
    is inside the function body, and it is extracted. *)
Theorem extract_imports_below_module_scope :
  ast_parse python text_nested_import "m.py" =
    Parsed (Module_ [def_ "f" [Import [mk_alias "os"]] 1 2]) ∧
  (_parse_python_file python text_nested_import "m.py").1.1.2 = ["os"].
Proof. split; reflexivity. Qed.

End ParserTheorems.

Module BfsFacts.
Import StateStore IndexService Spec.

Abbreviation names deps := (deps.*1.*1).

Lemma reverse_of_spec edges f g :
  g ∈ names (default [] (reverse_of edges !! f)) ↔ depends_on edges f g.
Proof.
  unfold reverse_of, depends_on.
  assert (∀ (acc : gmap string (list (string * string * Q))),
    g ∈ names (default []
           (foldl (λ reverse edge,
              <[dst_file edge :=
                  default [] (reverse !! dst_file edge) ++
                  [(src_file edge, edge_type edge, weight edge)]]> reverse)
            acc edges !! f)) ↔
    g ∈ names (default [] (acc !! f)) ∨
    ∃ e, e ∈ edges ∧ dst_file e = f ∧ src_file e = g) as H.
  { induction edges as [|e es IH]; intros acc; cbn [foldl].
    - split; [by left|]. intros [?|(e & He & _)]; [done|].
      by apply elem_of_nil in He.
    - rewrite IH. rewrite lookup_insert. case_decide as Hd.
      + simpl. rewrite !fmap_app, elem_of_app. simpl.
        rewrite list_elem_of_singleton. subst f. split.
        * intros [[?|?]|(e' & ? & ? & ?)]; [by left|..].
          -- right. exists e. split; [by left|done].
          -- right. exists e'. split; [by right|done].
        * intros [?|(e' & [->|?]%elem_of_cons & ? & ?)];
            [by left; left|by left; right|].
          right. by exists e'.
      + split.
        * intros [?|(e' & ? & ? & ?)]; [by left|].
          right. exists e'. split; [by right|done].
        * intros [?|(e' & [->|?]%elem_of_cons & ? & ?)];
            [by left|done|]. right. by exists e'. }
  rewrite H, lookup_empty. simpl. split; [|by right].
  intros [Hg|?]; [|done]. by apply elem_of_nil in Hg.
Qed.

(** Effect of the loop over the neighbours of a node. *)
Lemma push_neighbors_spec d s deps :
  ∃ new,
    frontier (push_neighbors d s deps) = frontier s ++ new ∧
    NoDup new ∧
    (∀ g, g ∈ new ↔ g ∈ names deps ∧ bfs_distance s !! g = None) ∧
    (∀ f, bfs_distance (push_neighbors d s deps) !! f =
          if decide (f ∈ new) then Some (d + 1)%Z else bfs_distance s !! f).
Proof.
  unfold push_neighbors. revert s.
  induction deps as [|[[dep ty] w] deps IH]; intros s; cbn [foldl].
  - exists []. rewrite app_nil_r. split; [done|]. split; [constructor|].
    split.
    + intros g. split; [by intros ?%elem_of_nil|].
      intros [Hg _]. by apply elem_of_nil in Hg.
    + intros f. by rewrite decide_False by apply not_elem_of_nil.
  - cbn [fst]. case_bool_decide as Hd.
    + destruct (IH {| bfs_distance := <[dep := (d + 1)%Z]> (bfs_distance s);
                      frontier := frontier s ++ [dep] |})
        as (new & Hfr & Hnd & Hnew & Hdist). cbn in Hfr, Hnew, Hdist.
      exists (dep :: new). split; [by rewrite Hfr, <- app_assoc|].
      assert (dep ∉ new) as Hdn.
      { intros [_ Hn]%Hnew. by rewrite lookup_insert_eq in Hn. }
      split; [by constructor|]. split.
      * intros g. rewrite elem_of_cons, Hnew, !fmap_cons, elem_of_cons. cbn.
        destruct (decide (g = dep)) as [->|Hne].
        -- split; [auto|]. by left.
        -- rewrite lookup_insert_ne by done. tauto.
      * intros f. rewrite Hdist. destruct (decide (f = dep)) as [->|Hne].
        -- rewrite decide_False by done. rewrite lookup_insert_eq.
           rewrite decide_True by by left. done.
        -- rewrite lookup_insert_ne by done.
           destruct (decide (f ∈ new)).
           ++ rewrite decide_True by by right. done.
           ++ rewrite decide_False; [done|].
              intros [?|?]%elem_of_cons; done.
    + destruct (IH s) as (new & Hfr & Hnd & Hnew & Hdist).
      exists new. split; [done|]. split; [done|]. split; [|done].
      intros g. rewrite Hnew, !fmap_cons, elem_of_cons. cbn.
      split; [tauto|]. intros [[->|?] ?]; [congruence|done].
Qed.

Lemma bfs_init_spec changed :
  frontier (bfs_init changed) = changed ∧
  ∀ f, bfs_distance (bfs_init changed) !! f =
       if decide (f ∈ changed) then Some 0%Z else None.
Proof.
  unfold bfs_init.
  assert (∀ s,
    frontier (foldl (λ s file_path,
           {| bfs_distance := <[file_path := 0%Z]> (bfs_distance s);
              frontier := frontier s ++ [file_path] |}) s changed) =
      frontier s ++ changed ∧
    ∀ f, bfs_distance (foldl (λ s file_path,
           {| bfs_distance := <[file_path := 0%Z]> (bfs_distance s);
              frontier := frontier s ++ [file_path] |}) s changed) !! f =
         if decide (f ∈ changed) then Some 0%Z else bfs_distance s !! f) as H.
  { induction changed as [|c cs IH]; intros s; cbn [foldl].
    - rewrite app_nil_r. split; [done|]. intros f.
      by rewrite decide_False by apply not_elem_of_nil.
    - destruct (IH {| bfs_distance := <[c := 0%Z]> (bfs_distance s);
                      frontier := frontier s ++ [c] |}) as [Hfr Hd].
      cbn in Hfr, Hd. split; [by rewrite Hfr, <- app_assoc|].
      intros f. rewrite Hd. destruct (decide (f ∈ cs)).
      + by rewrite decide_True by by right.
      + destruct (decide (f = c)) as [->|Hne].
        * rewrite lookup_insert_eq. by rewrite decide_True by by left.
        * rewrite lookup_insert_ne by done.
          rewrite decide_False; [done|]. intros [?|?]%elem_of_cons; done. }
  destruct (H {| bfs_distance := ∅; frontier := [] |}) as [Hfr Hd].
  cbn in Hfr, Hd. split; [done|]. intros f. rewrite Hd.
  by rewrite lookup_empty.
Qed.

Lemma size_list_to_set_le (l : list string) :
  size (list_to_set l : gset string) ≤ length l.
Proof.
  induction l as [|a l IH]; cbn [list_to_set length].
  - by rewrite size_empty.
  - rewrite size_union_alt, size_singleton.
    assert (list_to_set l ∖ {[a]} ⊆ (list_to_set l : gset string)) as Hsub
      by apply subseteq_difference_l, reflexivity.
    apply subseteq_size in Hsub. lia.
Qed.

Lemma sorted_const (m : gmap string Z) (l : list string) (c : Z) :
  (∀ f x, f ∈ l → m !! f = Some x → x = c) →
  StronglySorted (dist_le m) l.
Proof.
  induction l as [|a l IH]; intros Hc; constructor.
  - apply IH. intros f x Hf. apply Hc. by right.
  - apply Forall_forall. intros g Hg x y Hx Hy.
    rewrite (Hc a x), (Hc g y); [lia|by right|done|by left|done].
Qed.

Lemma sorted_mono (m m' : gmap string Z) (l : list string) :
  (∀ f x, f ∈ l → m' !! f = Some x → m !! f = Some x) →
  StronglySorted (dist_le m) l → StronglySorted (dist_le m') l.
Proof.
  intros Hm Hs. induction Hs as [|a l Hs IH Ha]; constructor.
  - apply IH. intros f x Hf. apply Hm. by right.
  - apply Forall_forall. intros g Hg x y Hx Hy.
    apply (proj1 (Forall_forall _ _) Ha g Hg); apply Hm;
      [by left|done|by right|done].
Qed.

Section Traversal.
Variable edges : list EdgeRow.
Variable changed : list string.
Variable max_depth : Z.

Abbreviation reverse := (reverse_of edges).
Abbreviation step := (bfs_step reverse max_depth).



Abbreviation inv := (Spec.inv edges changed max_depth).
Abbreviation inv_sound := (Spec.inv_sound edges changed max_depth).
Abbreviation inv_closed := (Spec.inv_closed edges changed max_depth).
Abbreviation inv_seeds := (Spec.inv_seeds edges changed max_depth).

Lemma inv_init : NoDup changed → inv (bfs_init changed).
Proof.
  intros Hnd. destruct (bfs_init_spec changed) as [Hfr Hd].
  split; rewrite ?Hfr.
  - intros f x. rewrite Hd. case_decide; [|done]. intros [= <-].
    exists 0%nat. split; [done|]. split; [by constructor|lia].
  - intros f Hf. rewrite Hd. rewrite decide_True by done. eauto.
  - done.
  - apply (sorted_const _ _ 0%Z). intros f x _. rewrite Hd.
    case_decide; congruence.
  - intros cur rest h f x _. rewrite !Hd.
    repeat case_decide; try done. intros [= <-] [= <-]. lia.
  - intros f x g. rewrite Hd. case_decide; [|done]. done.
  - intros f Hf. rewrite Hd. by rewrite decide_True.
Qed.

Lemma inv_step s : inv s → inv (step s).
Proof.
  intros [Hsound Hfront Hnd Hsorted Hwin Hclosed Hseeds].
  unfold bfs_step. destruct (frontier s) as [|cur rest] eqn:Hfr.
  { split; rewrite ?Hfr; try done. }
  cbn. destruct (Hfront cur) as [h Hcur]; [by left|]. rewrite Hcur.
  apply NoDup_cons in Hnd as [Hcr Hnd].
  apply StronglySorted_inv in Hsorted as [Hsorted Hhead].
  assert (∀ f, f ∉ rest → f = cur ∨ f ∉ cur :: rest) as Hsplit.
  { intros f Hf. destruct (decide (f = cur)); [by left|right].
    intros [?|?]%elem_of_cons; done. }
  destruct (max_depth <=? h)%Z eqn:Hmd.
  - apply Z.leb_le in Hmd. split; cbn.
    + done.
    + intros f Hf. apply Hfront. by right.
    + done.
    + done.
    + intros c2 rest2 h2 f x -> Hc2 Hf.
      pose proof (Hwin cur (c2 :: rest2) h f x eq_refl Hcur Hf).
      apply Forall_cons in Hhead as [Hle _].
      specialize (Hle h h2 Hcur Hc2). lia.
    + intros f x g Hf Hnin Hx Hg.
      destruct (Hsplit f Hnin) as [->|Hn]; [|by eapply Hclosed].
      simplify_eq. lia.
    + done.
  - apply Z.leb_gt in Hmd.
    destruct (push_neighbors_spec h
                {| bfs_distance := bfs_distance s; frontier := rest |}
                (default [] (reverse !! cur)))
      as (new & Hfr' & Hndnew & Hnew & Hdist).
    cbn in Hfr', Hnew, Hdist.
    assert (∀ f x, bfs_distance s !! f = Some x →
              bfs_distance (push_neighbors h
                {| bfs_distance := bfs_distance s; frontier := rest |}
                (default [] (reverse !! cur))) !! f = Some x) as Hmono.
    { intros f x Hf. rewrite Hdist. rewrite decide_False; [done|].
      intros [_ ?]%Hnew. congruence. }
    assert (∀ f x, bfs_distance (push_neighbors h
                {| bfs_distance := bfs_distance s; frontier := rest |}
                (default [] (reverse !! cur))) !! f = Some x →
              bfs_distance s !! f = Some x ∨
              (f ∈ new ∧ x = (h + 1)%Z ∧ depends_on edges cur f)) as Hcases.
    { intros f x. rewrite Hdist. case_decide as Hn; [|by left].
      intros [= <-]. right. split; [done|]. split; [done|].
      apply reverse_of_spec. by apply Hnew. }
    split; rewrite ?Hfr'.
    + intros f x [Hf|(Hn & -> & Hdep)]%Hcases; [by apply Hsound|].
      destruct (Hsound cur h Hcur) as (n & -> & Hhops & Hb).
      exists (S n). split; [lia|]. split; [|lia].
      by apply hops_edge with cur.
    + intros f [Hf|Hf]%elem_of_app.
      * destruct (Hfront f) as [x Hx]; [by right|]. eauto.
      * rewrite Hdist. rewrite decide_True by done. eauto.
    + apply NoDup_app. split; [done|]. split; [|done].
      intros f Hf [_ Hn]%Hnew.
      destruct (Hfront f) as [x Hx]; [by right|]. congruence.
    + apply StronglySorted_app_2.
      * intros f g Hf Hg x y Hx Hy.
        rewrite Hdist in Hy. rewrite decide_True in Hy by done.
        injection Hy as <-.
        destruct (Hfront f) as [x' Hx']; [by right|].
        rewrite (Hmono f x' Hx') in Hx. injection Hx as <-.
        by apply (Hwin cur rest h f x').
      * eapply sorted_mono; [|exact Hsorted]. intros f x Hf Hx.
        destruct (Hfront f) as [x' Hx']; [by right|].
        rewrite (Hmono f x' Hx') in Hx. congruence.
      * apply (sorted_const _ _ (h + 1)%Z). intros f x Hf.
        rewrite Hdist. rewrite decide_True by done. congruence.
    + intros c2 rest2 h2 f x Hfr2 Hc2 Hf.
      assert (h ≤ h2)%Z as Hle.
      { apply Hcases in Hc2 as [Hc2|(_ & -> & _)]; [|lia].
        destruct rest as [|r0 rest0].
        - simpl in Hfr2. assert (c2 ∈ new) as Hin by (rewrite Hfr2; by left).
          apply Hnew in Hin as [_ ?]. congruence.
        - simpl in Hfr2. injection Hfr2 as -> _.
          apply Forall_cons in Hhead as [Hle _]. by apply (Hle h h2). }
      apply Hcases in Hf as [Hf|(_ & -> & _)]; [|lia].
      pose proof (Hwin cur rest h f x eq_refl Hcur Hf). lia.
    + intros f x g Hf Hnin Hx Hg.
      rewrite elem_of_app in Hnin.
      apply Hcases in Hf as [Hf|(Hin & _)]; [|tauto].
      destruct (Hsplit f) as [->|Hn]; [tauto|..].
      * rewrite Hcur in Hf. injection Hf as <-.
        assert (g ∈ names (default [] (reverse !! cur))) as Hgn
          by by apply reverse_of_spec.
        destruct (bfs_distance s !! g) as [y|] eqn:Hy.
        -- exists y. split; [by apply Hmono|].
           by apply (Hwin cur rest h g y).
        -- exists (h + 1)%Z. split; [|lia]. rewrite Hdist.
           rewrite decide_True; [done|]. by apply Hnew.
      * destruct (Hclosed f x g Hf Hn Hx Hg) as (y & Hy & Hle).
        exists y. split; [by apply Hmono|done].
    + intros f Hf. by apply Hmono, Hseeds.
Qed.

Lemma bfs_loop_inv fuel s : inv s → inv (bfs_loop fuel reverse max_depth s).
Proof.
  revert s. induction fuel as [|fuel IH]; intros s Hs; cbn [bfs_loop].
  - by destruct (frontier s).
  - destruct (frontier s) eqn:Hfr; [done|]. by apply IH, inv_step.
Qed.

Abbreviation universe := (Spec.universe edges changed).
Abbreviation potential := (Spec.potential edges changed).

Lemma potential_step s :
  frontier s ≠ [] → potential (step s) + 1 = potential s.
Proof.
  unfold Spec.potential, bfs_step. destruct (frontier s) as [|cur rest]; [done|].
  intros _. cbn. destruct (bfs_distance s !! cur) as [h|]; [|cbn; lia].
  destruct (max_depth <=? h)%Z; [cbn; lia|].
  destruct (push_neighbors_spec h
              {| bfs_distance := bfs_distance s; frontier := rest |}
              (default [] (reverse !! cur)))
    as (new & -> & Hnd & Hnew & Hdist).
  cbn in Hnew, Hdist. cbn [frontier]. rewrite length_app.
  set (s' := push_neighbors h _ _) in *.
  assert (dom (bfs_distance s') =
          dom (bfs_distance s) ∪ list_to_set new) as ->.
  { apply set_eq. intros f.
    rewrite elem_of_union, !elem_of_dom, elem_of_list_to_set, Hdist.
    case_decide as Hn; [split; eauto|].
    split; [by left|]. intros [?|?]; done. }
  assert (universe ∖ dom (bfs_distance s) =
          universe ∖ (dom (bfs_distance s) ∪ list_to_set new)
          ∪ list_to_set new) as Heq.
  { apply set_eq. intros f.
    rewrite elem_of_union, !elem_of_difference, elem_of_union,
      elem_of_list_to_set, elem_of_dom.
    split.
    - intros [HU Hd]. destruct (decide (f ∈ new)); [by right|left].
      split; [done|]. intros [?|?]; done.
    - intros [[HU Hd]|Hn]; [split; [done|]; intros ?; apply Hd; by left|].
      apply Hnew in Hn as [Hn Hnone]. split.
      + unfold Spec.universe. apply elem_of_union_r, elem_of_list_to_set.
        apply reverse_of_spec in Hn as (e & He & _ & <-).
        apply list_elem_of_fmap. by exists e.
      + rewrite Hnone. by intros [? ?]. }
  rewrite Heq.
  rewrite (size_union (universe ∖ (dom (bfs_distance s) ∪ list_to_set new))
             (list_to_set new)).
  - rewrite size_list_to_set by done. lia.
  - intros f [_ Hf]%elem_of_difference Hn. apply Hf. by apply elem_of_union_r.
Qed.

Lemma bfs_loop_done fuel s :
  potential s ≤ fuel → frontier (bfs_loop fuel reverse max_depth s) = [].
Proof.
  revert s. induction fuel as [|fuel IH]; intros s Hs; cbn [bfs_loop].
  - destruct (frontier s) eqn:Hfr; [done|].
    unfold Spec.potential in Hs. rewrite Hfr in Hs. simpl in Hs. lia.
  - destruct (frontier s) eqn:Hfr; [done|]. apply IH.
    assert (frontier s ≠ []) as Hne by by rewrite Hfr.
    pose proof (potential_step s Hne). lia.
Qed.

Lemma potential_init :
  NoDup changed → potential (bfs_init changed) ≤ length changed + length edges.
Proof.
  intros Hnd. unfold Spec.potential.
  destruct (bfs_init_spec changed) as [-> Hd].
  assert (size (universe ∖ dom (bfs_distance (bfs_init changed)))
          ≤ length edges); [|lia].
  etrans; [apply (subseteq_size _ (list_to_set (src_file <$> edges)))|].
  - intros f [HU Hn]%elem_of_difference. unfold Spec.universe in HU.
    apply elem_of_union in HU as [Hc|?]; [|done].
    exfalso. apply Hn. apply elem_of_dom. rewrite Hd.
    apply elem_of_list_to_set in Hc. rewrite decide_True by done. eauto.
  - etrans; [apply size_list_to_set_le|]. by rewrite length_fmap.
Qed.

Abbreviation final := (static_distance_of edges changed max_depth).

Lemma final_inv : NoDup changed → inv final.
Proof. intros. by apply bfs_loop_inv, inv_init. Qed.

Lemma final_frontier : NoDup changed → frontier final = [].
Proof. intros. by apply bfs_loop_done, potential_init. Qed.

(** Every node within reach has a distance no larger than any of its
    hop counts. *)
Lemma final_complete n f :
  NoDup changed → hops edges changed n f → (Z.of_nat n ≤ max_depth)%Z →
  ∃ y, bfs_distance final !! f = Some y ∧ (y ≤ Z.of_nat n)%Z.
Proof.
  intros Hnd Hh. pose proof (final_inv Hnd) as Hinv.
  pose proof (final_frontier Hnd) as Hfr.
  induction Hh as [f Hf|n f g Hh IH Hdep]; intros Hn.
  - exists 0%Z. split; [by apply (inv_seeds _ Hinv)|done].
  - destruct IH as (y & Hy & Hle); [lia|].
    destruct (inv_closed _ Hinv f y g Hy) as (y' & Hy' & Hle');
      [rewrite Hfr; apply not_elem_of_nil|lia|done|].
    exists y'. split; [done|lia].
Qed.

(** The recorded distance of a node is its least hop count, and nodes
    are recorded up to the depth [max 0 max_depth]. *)
Lemma final_distance f x :
  NoDup changed →
  bfs_distance final !! f = Some x ↔
  ∃ n, x = Z.of_nat n ∧ hops edges changed n f ∧
       (∀ k, hops edges changed k f → n ≤ k) ∧
       (x ≤ Z.max 0 max_depth)%Z.
Proof.
  intros Hnd. pose proof (final_inv Hnd) as Hinv. split.
  - intros Hx. destruct (inv_sound _ Hinv f x Hx) as (n & -> & Hh & Hb).
    exists n. repeat split; [done| |done].
    intros k Hk. destruct (decide (Z.of_nat k ≤ max_depth)%Z) as [Hkm|Hkm].
    + destruct (final_complete k f Hnd Hk Hkm) as (y & Hy & Hle).
      rewrite Hx in Hy. injection Hy as <-. lia.
    + lia.
  - intros (n & -> & Hh & Hmin & Hb).
    destruct (decide (n = 0)) as [->|Hn0].
    + inversion Hh; subst. by apply (inv_seeds _ Hinv).
    + destruct (final_complete n f Hnd Hh) as (y & Hy & Hle); [lia|].
      destruct (inv_sound _ Hinv f y Hy) as (m & -> & Hm & _).
      apply Hmin in Hm. rewrite Hy. f_equal. lia.
Qed.
End Traversal.
End BfsFacts.

Module ImpactFacts.
Import StateStore IndexService BfsFacts RefreshFacts Spec.

Lemma max_cases a b : Py.max a b = a ∨ Py.max a b = b.
Proof. unfold Py.max. destruct (Qle_bool b a); auto. Qed.

Lemma max_le_l a b : (a <= Py.max a b)%Q.
Proof.
  unfold Py.max. destruct (Qle_bool b a) eqn:H; [apply Qle_refl|].
  destruct (Qlt_le_dec a b) as [Hlt|Hle]; [by apply Qlt_le_weak|].
  apply Qle_bool_iff in Hle. congruence.
Qed.

Lemma max_le_r a b : (b <= Py.max a b)%Q.
Proof.
  unfold Py.max. destruct (Qle_bool b a) eqn:H; [|apply Qle_refl].
  by apply Qle_bool_iff.
Qed.

Lemma round_half_even_le (x : Q) (n : Z) :
  (x <= inject_Z n)%Q → (Py.round_half_even x ≤ n)%Z.
Proof.
  intros Hx. unfold Py.round_half_even.
  pose proof (Qfloor_le x) as Hfl.
  assert (Qfloor x ≤ n)%Z as Hfn.
  { rewrite Zle_Qle. by apply Qle_trans with x. }
  assert ((1 # 2 <= x - inject_Z (Qfloor x))%Q → (Qfloor x + 1 ≤ n)%Z) as Hup.
  { intros Hhalf.
    assert (inject_Z (Qfloor x) < inject_Z n)%Q as Hlt.
    { apply Qlt_le_trans with x; [|done].
      apply Qlt_minus_iff. unfold Qminus in Hhalf.
      apply Qlt_le_trans with (1 # 2); [done|done]. }
    rewrite <- Zlt_Qlt in Hlt. lia. }
  destruct (Qcompare _ _) eqn:Hc.
  - apply Qeq_alt in Hc. destruct (Z.even _); [done|].
    apply Hup. rewrite Hc. apply Qle_refl.
  - done.
  - apply Qgt_alt in Hc. apply Hup. by apply Qlt_le_weak.
Qed.

(** From distance 3 on, the confidence is the floor 0.25. *)
Lemma classify_far d : (3 ≤ d)%Z → classify d = ("transitive", 25 # 100).
Proof.
  intros Hd. unfold classify.
  rewrite (proj2 (Z.eqb_neq d 0)) by lia.
  rewrite (proj2 (Z.eqb_neq d 1)) by lia.
  f_equal. unfold Py.max.
  assert (Qle_bool (Py.round3 ((75 # 100) / inject_Z d)) (25 # 100) = true)
    as ->; [|done].
  apply Qle_bool_iff. unfold Py.round3.
  assert (Py.round_half_even ((75 # 100) / inject_Z d * 1000) ≤ 250)%Z as H.
  { apply round_half_even_le. destruct d as [|p|p]; try lia.
    unfold Qle, Qdiv, Qmult, Qinv, inject_Z. simpl. lia. }
  unfold Qle. simpl. lia.
Qed.

Lemma classify_antitone d d' :
  (1 ≤ d ≤ d')%Z → ((classify d').2 <= (classify d).2)%Q.
Proof.
  intros [H1 Hle].
  destruct (decide (3 ≤ d)%Z).
  { rewrite !classify_far by lia. apply Qle_refl. }
  destruct (decide (3 ≤ d')%Z).
  { rewrite (classify_far d') by lia.
    assert (d = 1 ∨ d = 2)%Z as [-> | ->] by lia; by vm_compute. }
  assert (d = 1 ∨ d = 2)%Z as [-> | ->] by lia;
    (assert (d' = 1 ∨ d' = 2)%Z as [-> | ->] by lia); try lia; by vm_compute.
Qed.

Lemma entry_of_file_path sd p f d : file_path (entry_of sd p (f, d)) = f.
Proof.
  unfold entry_of. destruct (classify d) as [k c].
  repeat (destruct (_ : bool); cbn); done.
Qed.

Lemma entry_of_distance sd p f d : distance (entry_of sd p (f, d)) = d.
Proof.
  unfold entry_of. destruct (classify d) as [k c].
  repeat (destruct (_ : bool); cbn); done.
Qed.

Lemma entry_of_kind sd p f d : impact_kind (entry_of sd p (f, d)) = (classify d).1.
Proof.
  unfold entry_of. destruct (classify d) as [k c].
  repeat (destruct (_ : bool); cbn); done.
Qed.

(** An entry that the oracle had no part in. *)
Lemma entry_of_graph sd p f d :
  impact_source (entry_of sd p (f, d)) = "graph" ∨
  impact_source (entry_of sd p (f, d)) = "changed" →
  confidence (entry_of sd p (f, d)) = (classify d).2.
Proof.
  unfold entry_of. destruct (classify d) as [k c].
  destruct (d =? 0)%Z; [done|].
  destruct (bool_decide (is_Some (sd !! f))), (bool_decide (f ∈ predicted_set p));
    cbn; intros [?|?]; done.
Qed.

Section Impact.
Variable self : Config.
Variable cognitive : string + WorldModelClass.
Variable relative_to_root : string → option string.
Variable st : StateStore.t.
Variable changed_files : list string.
Variable max_depth : Z.

Abbreviation report :=
  (impact_for_files self cognitive relative_to_root st changed_files
     max_depth).
Abbreviation sd :=
  (bfs_distance (static_distance_of (list_edges st) (IndexService.changed_files report) max_depth)).

Abbreviation predictions :=
  (Spec.predictions self cognitive relative_to_root st changed_files
     max_depth).

Lemma impacted_eq :
  impacted report =
  entry_of sd predictions <$>
    merge_sort item_le (map_to_list (pred_distance predictions)).
Proof.
  unfold Spec.predictions, impact_for_files.
  by destruct (_build_cognitive_world self cognitive st) as [[w|] s].
Qed.

Lemma world_summary_eq :
  world_model report = (_build_cognitive_world self cognitive st).2.
Proof.
  unfold impact_for_files.
  by destruct (_build_cognitive_world self cognitive st) as [[w|] s].
Qed.

Lemma world_predicted_eq :
  world_predicted_files report = Py.sorted_set (predicted_set predictions).
Proof.
  unfold Spec.predictions, impact_for_files.
  by destruct (_build_cognitive_world self cognitive st) as [[w|] s].
Qed.

Lemma changed_files_NoDup : NoDup (IndexService.changed_files report).
Proof.
  unfold impact_for_files.
  destruct (_build_cognitive_world self cognitive st) as [[w|] s]; cbn;
    unfold Py.sorted_set, Py.sorted_str;
    rewrite merge_sort_Permutation; apply NoDup_elements.
Qed.

Lemma elem_of_impacted e :
  e ∈ impacted report ↔
  ∃ f d, pred_distance predictions !! f = Some d ∧
         e = entry_of sd predictions (f, d).
Proof.
  rewrite impacted_eq, list_elem_of_fmap. split.
  - intros ([f d] & -> & Hin). rewrite merge_sort_Permutation in Hin.
    apply elem_of_map_to_list in Hin. eauto.
  - intros (f & d & Hd & ->). exists (f, d). split; [done|].
    rewrite merge_sort_Permutation. by apply elem_of_map_to_list.
Qed.
End Impact.
End ImpactFacts.

Module OracleFacts.
Import StateStore IndexService BfsFacts RefreshFacts ImpactFacts
  StringFacts Spec.

Lemma strip_prefix_spec p s r : Py.strip_prefix p s = Some r ↔ s = p +:+ r.
Proof.
  revert s. induction p as [|a p IH]; intros s; cbn [Py.strip_prefix].
  - split; [by intros [= ->]|]. unfold String.append. by intros ->.
  - destruct s as [|b s]; [split; [done|by rewrite app_cons]|].
    rewrite app_cons. destruct (Ascii.eqb_spec a b) as [->|Hne].
    + rewrite IH. split; [by intros ->|by intros [= ->]].
    + split; [done|]. intros [= ? ?]. done.
Qed.

Lemma lower1_idemp o : lower1 (Some (lower1 o)) = lower1 o.
Proof.
  destruct o as [d|]; cbn; [|done].
  destruct (1 <? d)%Z eqn:H; cbn; [done|]. by rewrite H.
Qed.

Lemma note_prediction_eq indexed p c :
  note_prediction indexed p c =
  match valid_of indexed c with
  | Some (g, s) => upd p g s
  | None => p
  end.
Proof.
  unfold note_prediction, valid_of. destruct c as [eff s]. cbn [fst snd].
  destruct (Py.strip_prefix "file:" eff) as [g|]; [|done].
  case_bool_decide; [done|]. unfold upd. f_equal.
  unfold lower1. destruct (pred_distance p !! g) as [d|] eqn:Hd; [|done].
  destruct (1 <? d)%Z; [done|]. by rewrite insert_id.
Qed.

Section Fold.
Variable indexed : gset string.
Abbreviation note := (note_prediction indexed).
Abbreviation valid L := (omap (valid_of indexed) L).

Lemma valid_cons c L :
  valid (c :: L) =
  match valid_of indexed c with
  | Some x => x :: valid L
  | None => valid L
  end.
Proof. done. Qed.

Lemma fold_set L p f :
  f ∈ predicted_set (foldl note p L) ↔
  f ∈ predicted_set p ∨ f ∈ (valid L).*1.
Proof.
  revert p. induction L as [|c L IH]; intros p; cbn [foldl].
  - split; [by left|]. intros [?|H]; [done|]. by apply elem_of_nil in H.
  - rewrite IH, note_prediction_eq, valid_cons.
    destruct (valid_of indexed c) as [[g s]|]; [|done].
    cbn. rewrite elem_of_union, elem_of_singleton, elem_of_cons. tauto.
Qed.

Lemma fold_distance L p f :
  pred_distance (foldl note p L) !! f =
  if decide (f ∈ (valid L).*1) then Some (lower1 (pred_distance p !! f))
  else pred_distance p !! f.
Proof.
  revert p. induction L as [|c L IH]; intros p; cbn [foldl].
  - by rewrite decide_False by apply not_elem_of_nil.
  - rewrite IH, note_prediction_eq, valid_cons.
    destruct (valid_of indexed c) as [[g s]|]; [|done]. cbn.
    destruct (decide (f = g)) as [->|Hne].
    + rewrite lookup_insert_eq, lower1_idemp.
      rewrite (decide_True (P := g ∈ g :: _)) by by left.
      by case_decide.
    + rewrite lookup_insert_ne by done.
      destruct (decide (f ∈ (valid L).*1)).
      * by rewrite decide_True by by right.
      * rewrite decide_False; [done|]. intros [?|?]%elem_of_cons; done.
Qed.

Lemma fold_strength_other L p f :
  f ∉ (valid L).*1 →
  predicted_strength (foldl note p L) !! f = predicted_strength p !! f.
Proof.
  revert p. induction L as [|c L IH]; intros p Hf; cbn [foldl]; [done|].
  rewrite valid_cons in Hf. rewrite note_prediction_eq.
  destruct (valid_of indexed c) as [[g s]|]; [|by apply IH].
  cbn in Hf. apply not_elem_of_cons in Hf as [Hne Hf].
  rewrite IH by done. cbn. by rewrite lookup_insert_ne.
Qed.

Lemma fold_strength L p f :
  f ∈ (valid L).*1 →
  ∃ s, predicted_strength (foldl note p L) !! f = Some s ∧
       (∀ s', (f, s') ∈ valid L → (s' <= s)%Q) ∧
       (default (0 # 1) (predicted_strength p !! f) <= s)%Q ∧
       ((f, s) ∈ valid L ∨ s = default (0 # 1) (predicted_strength p !! f)).
Proof.
  revert p. induction L as [|c L IH]; intros p Hf; cbn [foldl].
  { by apply elem_of_nil in Hf. }
  rewrite valid_cons in *. rewrite note_prediction_eq.
  destruct (valid_of indexed c) as [[g s0]|]; [|by apply IH].
  set (m := Py.max s0 (default (0 # 1) (predicted_strength p !! g))).
  destruct (decide (f ∈ (valid L).*1)) as [HL|HL].
  - destruct (IH (upd p g s0) HL) as (s & Hs & Hb & Hd & Hm).
    exists s. split; [done|]. cbn in Hd, Hm.
    destruct (decide (f = g)) as [->|Hne].
    + rewrite lookup_insert_eq in Hd, Hm. cbn in Hd, Hm. fold m in Hd, Hm.
      split; [|split].
      * intros s' [[= ->]|?]%elem_of_cons; [|by apply Hb].
        apply Qle_trans with m; [apply max_le_l|done].
      * apply Qle_trans with m; [apply max_le_r|done].
      * destruct Hm as [?| ->]; [left; by right|].
        destruct (max_cases s0 (default (0 # 1) (predicted_strength p !! g)))
          as [Hc|Hc]; unfold m; rewrite Hc; [left; by left|by right].
    + rewrite lookup_insert_ne in Hd, Hm by done.
      split; [|split; [done|]].
      * intros s' [[= ? ?]|?]%elem_of_cons; [done|by apply Hb].
      * destruct Hm as [?|?]; [left; by right|by right].
  - cbn in Hf. apply elem_of_cons in Hf as [->|?]; [|done].
    rewrite fold_strength_other by done. cbn. rewrite lookup_insert_eq.
    exists m. split; [done|]. split; [|split].
    + intros s' [[= ->]|Hin]%elem_of_cons; [apply max_le_l|].
      exfalso. apply HL. apply list_elem_of_fmap. by exists (g, s').
    + apply max_le_r.
    + destruct (max_cases s0 (default (0 # 1) (predicted_strength p !! g)))
        as [Hc|Hc]; unfold m; rewrite Hc; [left; by left|by right].
Qed.
End Fold.

Lemma foldl_bind {A B C} (f : A → C → A) (g : B → list C) (a : A) (l : list B) :
  foldl f a (l ≫= g) = foldl (λ a x, foldl f a (g x)) a l.
Proof.
  revert a. induction l as [|x l IH]; intros a; [done|].
  rewrite bind_cons, foldl_app. apply IH.
Qed.

Section Predictions.
Variable predict : string → list (string * Q).
Variable indexed : gset string.
Variable changed : list string.
Variable d0 : gmap string Z.

Abbreviation all := (changed ≫= λ c, predict ("file:" +:+ c)).
Abbreviation p' := (apply_predictions predict indexed changed d0).

Lemma apply_predictions_eq :
  p' = foldl (note_prediction indexed)
         {| predicted_set := ∅; predicted_strength := ∅;
            pred_distance := d0 |} all.
Proof. unfold apply_predictions. by rewrite foldl_bind. Qed.

Lemma valid_predicted f s :
  (f, s) ∈ omap (valid_of indexed) all ↔
  predicted_for predict indexed changed f s.
Proof.
  rewrite list_elem_of_omap. unfold predicted_for, valid_of. split.
  - intros ([eff s'] & Hin & Hv). cbn [fst snd] in Hv.
    destruct (Py.strip_prefix "file:" eff) as [g|] eqn:Hg; [|done].
case_bool_decide as Hidx; [done|]. injection Hv as -> ->.
    apply strip_prefix_spec in Hg as ->.
    apply list_elem_of_bind in Hin as (c & Hin & Hc).
    split; [done|by exists c].
  - intros (Hidx & c & Hc & Hin). exists ("file:" +:+ f, s). split.
    + apply list_elem_of_bind. by exists c.
    + cbn [fst snd]. rewrite (proj2 (strip_prefix_spec "file:" _ f)) by done.
      by rewrite bool_decide_eq_false_2 by by intros ?.
Qed.

Lemma named_predicted f :
  f ∈ (omap (valid_of indexed) all).*1 ↔
  ∃ s, predicted_for predict indexed changed f s.
Proof.
  rewrite list_elem_of_fmap. split.
  - intros ([g s] & -> & Hin). exists s. by apply valid_predicted.
  - intros (s & Hs). exists (f, s). split; [done|]. by apply valid_predicted.
Qed.

Lemma predicted_set_spec f :
  f ∈ predicted_set p' ↔ ∃ s, predicted_for predict indexed changed f s.
Proof.
  rewrite apply_predictions_eq, fold_set, <- named_predicted. cbn.
  split; [|by right]. intros [H|?]; [|done]. by apply elem_of_empty in H.
Qed.

Lemma pred_distance_spec f :
  pred_distance p' !! f =
  if decide (f ∈ predicted_set p') then Some (lower1 (d0 !! f))
  else d0 !! f.
Proof.
  rewrite apply_predictions_eq at 1. rewrite fold_distance. cbn.
  destruct (decide (f ∈ (omap (valid_of indexed) all).*1)) as [H|H].
  - rewrite decide_True; [done|].
    by apply predicted_set_spec, named_predicted.
  - rewrite decide_False; [done|].
    by intros ?%predicted_set_spec%named_predicted.
Qed.

Lemma predicted_strength_spec f :
  f ∈ predicted_set p' →
  ∃ s, predicted_strength p' !! f = Some s ∧
       strongest predict indexed changed f s.
Proof.
  intros Hf%predicted_set_spec%named_predicted.
  rewrite apply_predictions_eq.
  destruct (fold_strength indexed _
              {| predicted_set := ∅; predicted_strength := ∅;
                 pred_distance := d0 |} f Hf) as (s & Hs & Hb & Hd & Hm).
  exists s. split; [done|]. cbn in Hd, Hm. rewrite lookup_empty in Hd, Hm.
  cbn in Hd, Hm. split; [|split; [done|]].
  - intros s' Hs'. by apply Hb, valid_predicted.
  - destruct Hm as [?%valid_predicted|?]; auto.
Qed.
End Predictions.
End OracleFacts.

Module ImpactTheorems.
Import StateStore IndexService Scenario BfsFacts RefreshFacts
  ImpactFacts OracleFacts Spec.

Section Impact.
Variable self : Config.
Variable cognitive : string + WorldModelClass.
Variable relative_to_root : string → option string.
Variable st : StateStore.t.
Variable changed_files : list string.
Variable max_depth : Z.

Abbreviation report :=
  (impact_for_files self cognitive relative_to_root st changed_files
     max_depth).
Abbreviation changed := (IndexService.changed_files report).
Abbreviation traversal :=
  (static_distance_of (list_edges st) changed max_depth).
Abbreviation sd := (bfs_distance traversal).
Abbreviation p := (predictions self cognitive relative_to_root st changed_files max_depth).

(** C1. An entry that comes from the graph traversal alone is
    [changed] with confidence 1.0 at distance 0, [direct] with
    confidence 0.85 at distance 1 and [transitive] with confidence
    [max(0.25, round(0.75 / d, 3))] at a distance [d >= 2]; so from
    distance 1 on the confidence does not increase with the
    distance. *)
Theorem graph_entries_classified_by_distance e :
  e ∈ impacted report →
  impact_source e = "graph" ∨ impact_source e = "changed" →
  (distance e = 0%Z →
     impact_kind e = "changed" ∧ confidence e = 1 # 1) ∧
  (distance e = 1%Z →
     impact_kind e = "direct" ∧ confidence e = 85 # 100) ∧
  ((2 ≤ distance e)%Z →
     impact_kind e = "transitive" ∧
     confidence e =
       Py.max (25 # 100) (Py.round3 ((75 # 100) / inject_Z (distance e)))) ∧
  (∀ e', e' ∈ impacted report →
     impact_source e' = "graph" ∨ impact_source e' = "changed" →
     (1 ≤ distance e ≤ distance e')%Z →
     (confidence e' <= confidence e)%Q).
Proof.
  intros (f & d & _ & ->)%elem_of_impacted Hsrc.
  rewrite entry_of_distance, entry_of_kind, (entry_of_graph _ _ _ _ Hsrc).
  split; [|split; [|split]].
  - by intros ->.
  - by intros ->.
  - intros Hd. unfold classify. rewrite (proj2 (Z.eqb_neq d 0)) by lia.
    by rewrite (proj2 (Z.eqb_neq d 1)) by lia.
  - intros e' (f' & d' & _ & ->)%elem_of_impacted Hsrc'.
    rewrite entry_of_distance, (entry_of_graph _ _ _ _ Hsrc').
    apply classify_antitone.
Qed.

Lemma world_None_predictions :
  (_build_cognitive_world self cognitive st).1 = None →
  p = {| predicted_set := ∅; predicted_strength := ∅; pred_distance := sd |}.
Proof. unfold Spec.predictions. by intros ->. Qed.


Lemma unavailable_None :
  unavailable self cognitive →
  (_build_cognitive_world self cognitive st).1 = None ∧
  enabled (_build_cognitive_world self cognitive st).2 = false ∧
  is_Some (error (_build_cognitive_world self cognitive st).2).
Proof.
  unfold unavailable, _build_cognitive_world.
  destruct (world_model_enabled self); cbn.
  - intros [?|H]; [done|]. destruct cognitive as [exc|C]; cbn; [eauto|].
    destruct H as [exc ->]. cbn. eauto.
  - intros _. eauto.
Qed.

(** C7 (as amended). With a world model, a file that the oracle
    predicts, that is indexed and that the traversal did not reach
    enters at distance 1 with source [world_model] and confidence
    [max(0.85, round(s, 3))], [s] being the largest strength predicted
    for it; a predicted file that the traversal reached is marked
    [graph+world_model] at distance 1, unless it is a changed file.
    When the oracle is disabled, does not import or does not
    initialise, the entries are those of the traversal and the summary
    carries the error. *)
Theorem oracle_predictions_merge :
  (∀ predict f,
     (_build_cognitive_world self cognitive st).1 = Some predict →
     (∃ s, predicted_for predict (dom (indexed_files st)) changed f s) →
     ∃ e, e ∈ impacted report ∧ file_path e = f ∧
          match sd !! f with
          | None =>
              distance e = 1%Z ∧ impact_kind e = "direct" ∧
              impact_source e = "world_model" ∧
              ∃ s, strongest predict (dom (indexed_files st)) changed f s ∧
                   confidence e = Py.max (85 # 100) (Py.round3 s)
          | Some d =>
              if (d =? 0)%Z
              then distance e = 0%Z ∧ impact_source e = "changed"
              else distance e = 1%Z ∧
                   impact_source e = "graph+world_model"
          end) ∧
  (unavailable self cognitive →
   impacted report =
     entry_of sd {| predicted_set := ∅; predicted_strength := ∅;
                    pred_distance := sd |}
       <$> merge_sort item_le (map_to_list sd) ∧
   (∀ e, e ∈ impacted report →
         (impact_source e = "graph" ∨ impact_source e = "changed") ∧
         sd !! file_path e = Some (distance e)) ∧
   enabled (world_model report) = false ∧
   is_Some (error (world_model report)) ∧
   world_predicted_files report = []).
Proof.
  pose proof (changed_files_NoDup self cognitive relative_to_root st
                changed_files max_depth) as Hnd.
  split.
  - intros predict f Hw Hpred.
    assert (dom (get_indexed_file_meta st) = dom (indexed_files st)) as Hdom
      by apply dom_fmap_L.
    rewrite <- Hdom in Hpred |- *. clear Hdom.
    assert (p = apply_predictions predict (dom (get_indexed_file_meta st))
                  changed sd) as Hp by (unfold Spec.predictions; by rewrite Hw).
    assert (f ∈ predicted_set p) as Hset
      by (rewrite Hp; by apply predicted_set_spec).
    pose proof (pred_distance_spec predict (dom (get_indexed_file_meta st))
                  changed sd f) as Hd.
    rewrite <- Hp in Hd. rewrite decide_True in Hd by done.
    exists (entry_of sd p (f, lower1 (sd !! f))).
    split; [apply elem_of_impacted; eauto|].
    split; [apply entry_of_file_path|].
    destruct (sd !! f) as [d|] eqn:Hsd.
    + destruct (inv_sound _ _ _ _ (final_inv _ _ max_depth Hnd) f d Hsd)
        as (n & -> & _).
      unfold entry_of, lower1.
      destruct (Z.of_nat n =? 0)%Z eqn:Hz.
      * apply Z.eqb_eq in Hz. rewrite Hz. cbn. done.
      * apply Z.eqb_neq in Hz.
        assert ((if (1 <? Z.of_nat n)%Z then 1%Z else Z.of_nat n) = 1%Z)
          as -> by (destruct (1 <? Z.of_nat n)%Z eqn:?; lia).
        cbn. rewrite Hsd.
        rewrite (bool_decide_eq_true_2 (is_Some _)) by eauto.
        rewrite (bool_decide_eq_true_2 (f ∈ _)) by done. done.
    + destruct (predicted_strength_spec predict
                  (dom (get_indexed_file_meta st)) changed sd f)
        as (s & Hs & Hstrong); [by rewrite <- Hp|].
      rewrite <- Hp in Hs.
      unfold entry_of, lower1. cbn. rewrite Hsd, Hs.
      rewrite (bool_decide_eq_false_2 (is_Some _)) by by intros [? ?].
      rewrite (bool_decide_eq_true_2 (f ∈ _)) by done. cbn.
      repeat split; eauto.
  - intros Hun. destruct (unavailable_None Hun) as (Hnone & Hen & Herr).
    rewrite impacted_eq, world_summary_eq, world_predicted_eq.
    rewrite !(world_None_predictions Hnone). cbn [pred_distance predicted_set].
    split; [done|]. split; [|done].
    intros e ([f d] & -> & Hin)%list_elem_of_fmap.
    rewrite merge_sort_Permutation in Hin. apply elem_of_map_to_list in Hin.
    rewrite entry_of_file_path, entry_of_distance. split; [|done].
    unfold entry_of. destruct (classify d) as [k c].
    destruct (d =? 0)%Z; [by right|].
    rewrite (bool_decide_eq_false_2 (f ∈ _)) by apply not_elem_of_empty.
    rewrite andb_false_r. cbn. by left.
Qed.
End Impact.
End ImpactTheorems.

Module ImpactExamples.
Import StateStore IndexService Scenario BfsFacts RefreshFacts
  ImpactFacts OracleFacts ImpactTheorems Spec.
#[local] Open Scope string_scope.

Lemma graph_entries_classified_by_distance_witness :
  entry_a ∈ impacted (impact_for_files default_config no_grilly no_abs
                        store_abc ["b.py"] 8) ∧
  (impact_source entry_a = "graph" ∨ impact_source entry_a = "changed") ∧
  (distance entry_a = 1%Z →
   impact_kind entry_a = "direct" ∧ confidence entry_a = 85 # 100).
Proof.
  assert (entry_a ∈ impacted (impact_for_files default_config no_grilly
                                no_abs store_abc ["b.py"] 8)) as Hin.
  { vm_compute. repeat constructor. }
  split; [exact Hin|]. split; [by left|].
  exact (proj1 (proj2 (graph_entries_classified_by_distance default_config
                         no_grilly no_abs store_abc ["b.py"] 8 entry_a Hin
                         (or_introl eq_refl)))).
Defined.



(** C7, counterexample: the oracle predicts [z.py] with strength 0.5; the
    entry has confidence 0.85. *)
Lemma predicted_only_file_confidence :
  ("file:z.py", 1 # 2) ∈ predict_consequence oracle () "file:b.py" ∧
  ∃ e, e ∈ impacted (impact_for_files default_config (inr oracle) no_abs
                       store_abcz ["b.py"] 8) ∧
       file_path e = "z.py" ∧ distance e = 1%Z ∧
       impact_source e = "world_model" ∧
       ¬ (confidence e == 1 # 2)%Q.
Proof.
  split; [vm_compute; repeat constructor|].
  exists {| file_path := "z.py"; distance := 1; impact_kind := "direct";
            confidence := 85 # 100; impact_source := "world_model" |}.
  split; [vm_compute; repeat constructor|]. cbn. repeat split; done.
Qed.

Lemma oracle_predictions_merge_witness :
  ∃ e, e ∈ impacted (impact_for_files default_config (inr oracle) no_abs
                       store_abcz ["b.py"] 8) ∧
       file_path e = "z.py" ∧ distance e = 1%Z ∧
       impact_source e = "world_model".
Proof.
  assert ((_build_cognitive_world default_config (inr oracle) store_abcz).1
          = Some (predict_consequence oracle ())) as Hw by by vm_compute.
  destruct (proj1 (oracle_predictions_merge default_config (inr oracle)
                     no_abs store_abcz ["b.py"] 8)
              (predict_consequence oracle ()) "z.py" Hw)
    as (e & Hin & Hf & He).
  - exists (1 # 2). split.
    + apply elem_of_dom. vm_compute. eauto.
    + exists "b.py". split; vm_compute; repeat constructor.
  - exists e. split; [exact Hin|]. split; [exact Hf|].
    assert (bfs_distance
              (static_distance_of (list_edges store_abcz)
                 (changed_files
                    (impact_for_files default_config (inr oracle) no_abs
                       store_abcz ["b.py"] 8)) 8) !! "z.py" = None) as Hz
      by by vm_compute.
    rewrite Hz in He. destruct He as (Hd & _ & Hs & _).
    split; [exact Hd|exact Hs].
Defined.
End ImpactExamples.


(** ** The end-to-end scenarios of the specification *)

Module EndToEnd.
Import StateStore IndexService Scenario.
#[local] Open Scope string_scope.

Example scenario_a_refresh :
  (refresh_index python clock tree_abc StateStore.empty).2 =
  {| files_scanned := 3; files_indexed := 3; files_skipped := 0;
     files_deleted := 0; parse_errors := 0; symbols_total := 2;
     edges_total := 2 |}.
Proof. by vm_compute. Qed.

Example scenario_a_impact :
  (λ e, (file_path e, distance e, impact_kind e)) <$>
    impacted (impact_for_files default_config no_grilly no_abs store_abc
                ["b.py"] 8) =
  [("b.py", 0%Z, "changed"); ("a.py", 1%Z, "direct"); ("c.py", 1%Z, "direct")] ∧
  direct_count (impact_for_files default_config no_grilly no_abs store_abc
                  ["b.py"] 8) = 2.
Proof. by vm_compute. Qed.

Example scenario_b_second_refresh :
  (refresh_index python clock tree_abc store_abc).2 =
  {| files_scanned := 3; files_indexed := 0; files_skipped := 3;
     files_deleted := 0; parse_errors := 0; symbols_total := 2;
     edges_total := 2 |}.
Proof. by vm_compute. Qed.

Example scenario_c_parse_error :
  parse_errors (refresh_index python clock tree_ok_bad StateStore.empty).2 = 1 ∧
  count_parse_errors
    (get_counts (refresh_index python clock tree_ok_bad StateStore.empty).1) = 1 ∧
  filter (λ r, sym_file_path r = "bad.py")
    (symbols (refresh_index python clock tree_ok_bad StateStore.empty).1) = [].
Proof. by vm_compute. Qed.

Example deletion_propagates :
  files_deleted (refresh_index python clock tree_abc store_abcz).2 = 1.
Proof. by vm_compute. Qed.

End EndToEnd.

(** * Further properties of the code *)

Module TableFacts.
Import StateStore Spec Views.

Lemma filter_all {A} (P : A → Prop) `{∀ x, Decision (P x)} (l : list A) :
  Forall P l → filter P l = l.
Proof.
  induction 1 as [|x l Hx _ IH]; [done|].
  rewrite filter_cons_True by done. by rewrite IH.
Qed.

Lemma filter_none {A} (P : A → Prop) `{∀ x, Decision (P x)} (l : list A) :
  Forall (λ x, ¬ P x) l → filter P l = [].
Proof.
  induction 1 as [|x l Hx _ IH]; [done|].
  by rewrite filter_cons_False.
Qed.

Section Keyed.
Context {A B : Type} (key : A → string) (mk : B → A) (p : string).
Hypothesis key_mk : ∀ i, key (mk i) = p.

Lemma filter_key_replaced l items :
  filter (λ r, key r = p) (filter (λ r, key r ≠ p) l ++ (mk <$> items)) =
  mk <$> items.
Proof.
  rewrite filter_app, filter_none, filter_all; [done|..].
  - apply Forall_forall. intros r (i & -> & _)%list_elem_of_fmap. done.
  - apply Forall_forall. by intros r [? _]%list_elem_of_filter.
Qed.

Lemma filter_key_other q l items :
  q ≠ p →
  filter (λ r, key r = q) (filter (λ r, key r ≠ p) l ++ (mk <$> items)) =
  filter (λ r, key r = q) l.
Proof.
  intros Hq. rewrite filter_app, list_filter_filter.
  rewrite (filter_none _ (mk <$> items)), app_nil_r.
  - apply list_filter_iff. intros r. split; [by intros [? _]|].
    intros ->. done.
  - apply Forall_forall. intros r (i & -> & _)%list_elem_of_fmap.
    rewrite key_mk. done.
Qed.

Lemma filter_key_again l items :
  filter (λ r, key r ≠ p) (filter (λ r, key r ≠ p) l ++ (mk <$> items)) =
  filter (λ r, key r ≠ p) l.
Proof.
  rewrite filter_app, list_filter_filter.
  rewrite (filter_none _ (mk <$> items)), app_nil_r.
  - apply list_filter_iff. tauto.
  - apply Forall_forall. intros r (i & -> & _)%list_elem_of_fmap.
    rewrite key_mk. tauto.
Qed.
End Keyed.

Lemma analysis_symbols st p syms imps cls :
  symbols (replace_file_analysis st p syms imps cls) =
  filter (λ r, sym_file_path r ≠ p) (symbols st) ++ (symbol_row p <$> syms).
Proof. done. Qed.
Lemma analysis_imports st p syms imps cls :
  imports (replace_file_analysis st p syms imps cls) =
  filter (λ r, imp_file_path r ≠ p) (imports st) ++ (import_row p <$> imps).
Proof. done. Qed.
Lemma analysis_calls st p syms imps cls :
  calls (replace_file_analysis st p syms imps cls) =
  filter (λ r, call_file_path r ≠ p) (calls st) ++ (call_row p <$> cls).
Proof. done. Qed.

Lemma analysis_facts_same st p syms imps cls :
  facts_of p (replace_file_analysis st p syms imps cls) =
  (symbol_row p <$> syms, import_row p <$> imps, call_row p <$> cls).
Proof.
  unfold facts_of.
  rewrite analysis_symbols, analysis_imports, analysis_calls.
  by rewrite !filter_key_replaced.
Qed.

Lemma analysis_facts_other st p q syms imps cls :
  q ≠ p →
  facts_of q (replace_file_analysis st p syms imps cls) = facts_of q st.
Proof.
  intros Hq. unfold facts_of.
  rewrite analysis_symbols, analysis_imports, analysis_calls.
  by rewrite !filter_key_other.
Qed.

Lemma upsert_facts st p q h m t pe :
  facts_of q (upsert_indexed_file st p h m t pe) = facts_of q st.
Proof. done. Qed.

Lemma delete_facts_other st p q :
  q ≠ p → facts_of q (delete_file st p) = facts_of q st.
Proof.
  intros Hq. unfold facts_of, delete_file. cbn.
  rewrite !list_filter_filter. f_equal; [f_equal|];
    apply list_filter_iff; intros r; (split; [by intros [? _]|]);
    intros ->; done.
Qed.

(** [INSERT OR IGNORE] row by row. *)
Lemma ioi_NoDup tbl es :
  NoDup (triple <$> tbl) → NoDup (triple <$> foldl insert_or_ignore tbl es).
Proof.
  revert tbl. induction es as [|e es IH]; intros tbl Htbl; [done|].
  cbn [foldl]. apply IH. unfold insert_or_ignore. case_bool_decide as Hex; [done|].
  rewrite fmap_app. apply NoDup_app. split; [done|]. split; [|apply NoDup_singleton].
  intros x Hx ->%list_elem_of_singleton. apply Hex.
  apply list_elem_of_fmap in Hx as (r & Hr & Hin).
  apply Exists_exists. exists r. split; [done|].
  unfold triple in Hr. by simplify_eq.
Qed.

Lemma ioi_covers tbl es e :
  e ∈ tbl ∨ e ∈ es →
  ∃ r, r ∈ foldl insert_or_ignore tbl es ∧ triple r = triple e.
Proof.
  revert tbl e. induction es as [|e' es IH]; intros tbl e [Hin|Hin].
  - by exists e.
  - by apply elem_of_nil in Hin.
  - cbn [foldl]. apply IH. left. unfold insert_or_ignore.
    case_bool_decide; [done|]. apply elem_of_app. by left.
  - cbn [foldl]. apply elem_of_cons in Hin as [->|Hin]; [|apply IH; by right].
    unfold insert_or_ignore. case_bool_decide as Hex.
    + apply Exists_exists in Hex as (r & Hr & ? & ? & ?).
      destruct (IH tbl r (or_introl Hr)) as (r' & ? & Hr').
      exists r'. split; [done|]. rewrite Hr'. unfold triple. congruence.
    + apply IH. left. apply elem_of_app. right. apply list_elem_of_here.
Qed.

Lemma ioi_distinct tbl es :
  NoDup (triple <$> (tbl ++ es)) → foldl insert_or_ignore tbl es = tbl ++ es.
Proof.
  revert tbl. induction es as [|e es IH]; intros tbl Hnd; cbn [foldl].
  - by rewrite app_nil_r.
  - assert (insert_or_ignore tbl e = tbl ++ [e]) as ->.
    { unfold insert_or_ignore. case_bool_decide as Hex; [|done].
      exfalso. apply Exists_exists in Hex as (r & Hr & ? & ? & ?).
      rewrite fmap_app, fmap_cons in Hnd.
      apply NoDup_app in Hnd as (_ & Hnd & _).
      apply (Hnd (triple e)); [|apply list_elem_of_here].
      apply list_elem_of_fmap. exists r. split; [|done].
      unfold triple. congruence. }
    rewrite IH; [by rewrite <- app_assoc|]. by rewrite <- app_assoc.
Qed.

Lemma symbol_files_fold (l : list SymbolRow) (acc : gmap string (gset string))
    name f :
  f ∈ default ∅ (foldl (λ out r,
         <[symbol_name r :=
             (out !!! symbol_name r) ∪ {[sym_file_path r]}]> out) acc l
       !! name) ↔
  f ∈ default ∅ (acc !! name) ∨
  ∃ r, r ∈ l ∧ symbol_name r = name ∧ sym_file_path r = f.
Proof.
  revert acc. induction l as [|r l IH]; intros acc; cbn [foldl].
  - split; [by left|]. intros [?|(r & Hr & _)]; [done|].
    by apply elem_of_nil in Hr.
  - rewrite IH. rewrite lookup_insert. case_decide as Hn.
    + cbn. rewrite elem_of_union, elem_of_singleton, lookup_total_alt, Hn.
      split.
      * intros [[?|?]|(r' & ? & ?)]; [by left| |].
        -- right. exists r. split; [apply list_elem_of_here|done].
        -- right. exists r'. split; [by apply list_elem_of_further|done].
      * intros [?|(r' & [->|?]%elem_of_cons & ? & ?)].
        -- by left; left.
        -- by left; right.
        -- right. by exists r'.
    + split.
      * intros [?|(r' & ? & ?)]; [by left|].
        right. exists r'. split; [by apply list_elem_of_further|done].
      * intros [?|(r' & [->|?]%elem_of_cons & ? & ?)]; [by left|done|].
        right. by exists r'.
Qed.

End TableFacts.

Module StoreTheorems.
Import StateStore Spec Views StoreFacts TableFacts.

(** X1 ([upsert_indexed_file], [get_indexed_file_meta]): what was upserted
    for a path is what the metadata read returns for it, the other paths
    keep their metadata and the fact tables are untouched; a second upsert
    of the same path overwrites the first, and the number of indexed files
    grows by one exactly when the path was new. *)
Theorem upsert_then_meta st p h m t pe :
  get_indexed_file_meta (upsert_indexed_file st p h m t pe) =
    <[p := {| meta_file_hash := h; meta_mtime := m;
              meta_parse_error := pe |}]> (get_indexed_file_meta st) ∧
  (∀ h0 m0 t0 pe0,
     upsert_indexed_file (upsert_indexed_file st p h0 m0 t0 pe0) p h m t pe =
     upsert_indexed_file st p h m t pe) ∧
  count_indexed_files (get_counts (upsert_indexed_file st p h m t pe)) =
    (if indexed_files st !! p is Some _
     then count_indexed_files (get_counts st)
     else S (count_indexed_files (get_counts st))) ∧
  symbols (upsert_indexed_file st p h m t pe) = symbols st ∧
  imports (upsert_indexed_file st p h m t pe) = imports st ∧
  calls (upsert_indexed_file st p h m t pe) = calls st ∧
  edges (upsert_indexed_file st p h m t pe) = edges st.
Proof.
  split; [|split; [|split; [|done]]].
  - unfold get_indexed_file_meta, upsert_indexed_file. cbn.
    by rewrite fmap_insert.
  - intros. unfold upsert_indexed_file. cbn. by rewrite insert_insert_eq.
  - unfold get_counts, upsert_indexed_file. cbn.
    rewrite map_size_insert. by destruct (indexed_files st !! p).
Qed.

(** X2 ([replace_file_analysis]): afterwards the rows of the file are
    exactly the given symbols, imports and calls, in the given order; the
    rows of every other file, the file metadata and the edges are as
    before; and replacing again with the same analysis changes nothing. *)
Theorem replace_file_analysis_exact st p syms imps cls :
  facts_of p (replace_file_analysis st p syms imps cls) =
    (symbol_row p <$> syms, import_row p <$> imps, call_row p <$> cls) ∧
  (∀ q, q ≠ p →
     facts_of q (replace_file_analysis st p syms imps cls) = facts_of q st) ∧
  indexed_files (replace_file_analysis st p syms imps cls) =
    indexed_files st ∧
  edges (replace_file_analysis st p syms imps cls) = edges st ∧
  replace_file_analysis (replace_file_analysis st p syms imps cls) p
    syms imps cls =
  replace_file_analysis st p syms imps cls.
Proof.
  split; [apply analysis_facts_same|].
  split; [intros q Hq; by apply analysis_facts_other|].
  split; [done|]. split; [done|].
  unfold replace_file_analysis at 1. 
  rewrite analysis_symbols, analysis_imports, analysis_calls.
  rewrite (filter_key_again sym_file_path (symbol_row p)) by done.
  rewrite (filter_key_again imp_file_path (import_row p)) by done.
  rewrite (filter_key_again call_file_path (call_row p)) by done.
  done.
Qed.

(** X3 ([replace_edges], [list_edges]): the new table does not depend on
    the old one; no two of its rows agree on source, target and type;
    each row is one of the given rows and each given row is represented
    by a row with its source, target and type; and when the given rows
    are pairwise distinct in these columns, [list_edges] returns them
    unchanged. *)
Theorem replace_edges_unique st es :
  edges (replace_edges st es) = edges (replace_edges StateStore.empty es) ∧
  NoDup (triple <$> edges (replace_edges st es)) ∧
  (∀ r, r ∈ edges (replace_edges st es) → r ∈ es) ∧
  (∀ e, e ∈ es →
     ∃ r, r ∈ edges (replace_edges st es) ∧ triple r = triple e) ∧
  (NoDup (triple <$> es) → list_edges (replace_edges st es) = es).
Proof.
  split; [done|].
  split; [apply ioi_NoDup; constructor|].
  split; [intros r; apply replace_edges_subseteq|].
  split; [intros e He; apply ioi_covers; by right|].
  intros Hnd. unfold list_edges, replace_edges. cbn. by rewrite ioi_distinct.
Qed.

(** X4 ([symbol_files_by_name]): a file is listed under a name exactly
    when the symbol table has a row with that name in that file; a name
    without such a row is not a key of the result. *)
Theorem symbol_files_by_name_spec st name :
  (∀ f, f ∈ default ∅ (symbol_files_by_name st !! name) ↔
        ∃ r, r ∈ symbols st ∧ symbol_name r = name ∧ sym_file_path r = f) ∧
  (symbol_files_by_name st !! name = None ↔
   Forall (λ r, symbol_name r ≠ name) (symbols st)).
Proof.
  assert (∀ f, f ∈ default ∅ (symbol_files_by_name st !! name) ↔
    ∃ r, r ∈ symbols st ∧ symbol_name r = name ∧ sym_file_path r = f) as H.
  { intros f. unfold symbol_files_by_name. rewrite symbol_files_fold.
    rewrite lookup_empty. cbn. split; [|by right].
    intros [Hf|?]; [|done]. by apply elem_of_empty in Hf. }
  split; [done|]. split.
  - intros Hnone. apply Forall_forall. intros r Hr Hname.
    specialize (H (sym_file_path r)). rewrite Hnone in H. cbn in H.
    destruct H as [_ H]. apply (not_elem_of_empty (C:=gset string) (sym_file_path r)).
    apply H. by exists r.
  - intros Hall. unfold symbol_files_by_name.
    assert (∀ l (acc : gmap string (gset string)),
      acc !! name = None → Forall (λ r, symbol_name r ≠ name) l →
      foldl (λ out r, <[symbol_name r :=
               (out !!! symbol_name r) ∪ {[sym_file_path r]}]> out) acc l
        !! name = None) as G.
    { induction l as [|r l IH]; intros acc Hacc Hl; [done|].
      apply Forall_cons in Hl as [Hr Hl]. cbn [foldl]. apply IH; [|done].
      by rewrite lookup_insert_ne. }
    by apply G.
Qed.

(** X5 ([delete_file]): deleting a path twice is the same as deleting it
    once, deletions of two paths commute, and deleting a path that no row
    of any table mentions leaves the store as it is. *)
Theorem delete_file_idempotent st p q :
  delete_file (delete_file st p) p = delete_file st p ∧
  delete_file (delete_file st p) q = delete_file (delete_file st q) p ∧
  (absent p st → delete_file st p = st).
Proof.
  split; [|split].
  - unfold delete_file. cbn. rewrite !list_filter_filter.
    f_equal; [apply delete_delete_eq|..]; apply list_filter_iff; tauto.
  - unfold delete_file. cbn. rewrite !list_filter_filter.
    f_equal; [apply delete_delete|..]; apply list_filter_iff; tauto.
  - intros (Hf & Hs & Hi & Hc & He). destruct st as [fm ss ims cs es].
    unfold delete_file. cbn in *. f_equal.
    + by apply delete_id.
    + by apply filter_all.
    + by apply filter_all.
    + by apply filter_all.
    + apply filter_all. eapply Forall_impl; [exact He|]. cbn. tauto.
Qed.

End StoreTheorems.

Module OrderFacts.
Import StateStore IndexService Spec Views.

Lemma compare_refl (a : string) : String.compare a a = Eq.
Proof.
  induction a as [|c a IH]; [done|]. cbn.
  unfold Ascii.compare. by rewrite N.compare_refl.
Qed.

Lemma compare_Lt_iff (a b : string) :
  String.compare a b = Lt ↔ String.le a b ∧ a ≠ b.
Proof.
  unfold String.le, String.leb. split.
  - intros H. rewrite H. split; [done|]. intros ->.
    rewrite compare_refl in H. congruence.
  - intros [Hle Hne]. destruct (String.compare a b) eqn:E; [|done|done].
    by apply String.compare_eq_iff in E.
Qed.

Lemma compare_Gt_Lt (a b : string) :
  String.compare a b = Gt ↔ String.compare b a = Lt.
Proof.
  rewrite (String.compare_antisym a b).
  destruct (String.compare b a); cbn; split; congruence.
Qed.

Lemma compare_Lt_trans (a b c : string) :
  String.compare a b = Lt → String.compare b c = Lt →
  String.compare a c = Lt.
Proof.
  rewrite !compare_Lt_iff. intros [H1 N1] [H2 N2]. split; [by etrans|].
  intros ->. apply N1. by apply (anti_symm String.le).
Qed.






Lemma Qle_bool_total a b : Qle_bool a b = true ∨ Qle_bool b a = true.
Proof.
  rewrite !Qle_bool_iff. destruct (Qlt_le_dec a b) as [?%Qlt_le_weak|?]; auto.
Qed.

Lemma edge_leb_total a b : edge_leb a b = true ∨ edge_leb b a = true.
Proof.
  destruct a as [[[s1 d1] t1] w1], b as [[[s2 d2] t2] w2]. cbn.
  destruct (String.compare s1 s2) eqn:E1.
  - apply String.compare_eq_iff in E1 as ->. rewrite compare_refl.
    destruct (String.compare d1 d2) eqn:E2.
    + apply String.compare_eq_iff in E2 as ->. rewrite compare_refl.
      destruct (String.compare t1 t2) eqn:E3.
      * apply String.compare_eq_iff in E3 as ->. rewrite compare_refl.
        apply Qle_bool_total.
      * by left.
      * apply compare_Gt_Lt in E3. rewrite E3. by right.
    + by left.
    + apply compare_Gt_Lt in E2. rewrite E2. by right.
  - by left.
  - apply compare_Gt_Lt in E1. rewrite E1. by right.
Qed.

Lemma edge_leb_trans a b c :
  edge_leb a b = true → edge_leb b c = true → edge_leb a c = true.
Proof.
  destruct a as [[[s1 d1] t1] w1], b as [[[s2 d2] t2] w2],
    c as [[[s3 d3] t3] w3]. cbn.
  destruct (String.compare s1 s2) eqn:E1; [| |done].
  2:{ intros _. destruct (String.compare s2 s3) eqn:E2; [| |done].
      - apply String.compare_eq_iff in E2 as ->. by rewrite E1.
      - by rewrite (compare_Lt_trans _ _ _ E1 E2). }
  apply String.compare_eq_iff in E1 as ->.
  destruct (String.compare s2 s3) eqn:E2; [|done|done].
  destruct (String.compare d1 d2) eqn:F1; [| |done].
  2:{ intros _. destruct (String.compare d2 d3) eqn:F2; [| |done].
      - apply String.compare_eq_iff in F2 as ->. by rewrite F1.
      - by rewrite (compare_Lt_trans _ _ _ F1 F2). }
  apply String.compare_eq_iff in F1 as ->.
  destruct (String.compare d2 d3) eqn:F2; [|done|done].
  destruct (String.compare t1 t2) eqn:G1; [| |done].
  2:{ intros _. destruct (String.compare t2 t3) eqn:G2; [| |done].
      - apply String.compare_eq_iff in G2 as ->. by rewrite G1.
      - by rewrite (compare_Lt_trans _ _ _ G1 G2). }
  apply String.compare_eq_iff in G1 as ->.
  destruct (String.compare t2 t3) eqn:G2; [|done|done].
  rewrite !Qle_bool_iff. apply Qle_trans.
Qed.

Lemma edge_le_total : Total edge_le.
Proof. intros x y. apply edge_leb_total. Qed.

Lemma edge_le_trans : Transitive edge_le.
Proof. intros x y z. apply edge_leb_trans. Qed.

End OrderFacts.

Module GraphFacts.
Import StateStore IndexService Spec Views.
Import StoreFacts EdgeFacts StringFacts TableFacts OrderFacts.

Lemma import_edges_spec fs rows acc t :
  t ∈ import_edges fs acc rows ↔
  t ∈ acc ∨
  ∃ row dst, row ∈ rows ∧
    _resolve_import_to_file fs (module_name row) = Some dst ∧
    dst ≠ "" ∧ dst ≠ imp_file_path row ∧
    t = (imp_file_path row, dst, "import", 1 # 1).
Proof.
  unfold import_edges. revert acc.
  induction rows as [|row rows IH]; intros acc; cbn [foldl].
  - split; [by left|]. intros [?|(? & ? & ?%elem_of_nil & _)]; done.
  - rewrite IH. split.
    + intros [Ht|(r & d & ? & ?)].
      * destruct (_resolve_import_to_file fs (module_name row)) as [dst|]
          eqn:Hres; [|by left].
        case_bool_decide as Hd; [|by left].
        apply elem_of_union in Ht as [?|Ht%elem_of_singleton]; [by left|].
        right. exists row, dst. destruct Hd.
        split; [apply list_elem_of_here|done].
      * right. exists r, d. split; [by apply list_elem_of_further|done].
    + intros [?|(r & d & [->|?]%elem_of_cons & Hres & ? & ? & ->)].
      * left. destruct (_resolve_import_to_file fs (module_name row));
          [|done]. case_bool_decide; [|done]. apply elem_of_union. by left.
      * left. rewrite Hres. rewrite bool_decide_eq_true_2 by done.
        apply elem_of_union. right. by apply elem_of_singleton.
      * right. by exists r, d.
Qed.

Lemma call_edges_spec (sbn : gmap string (gset string)) rows acc t :
  t ∈ call_edges sbn acc rows ↔
  t ∈ acc ∨
  ∃ row dst, row ∈ rows ∧ dst ∈ default ∅ (sbn !! callee_name row) ∧
    dst ≠ call_file_path row ∧
    t = (call_file_path row, dst, "call", 7 # 10).
Proof.
  unfold call_edges. revert acc.
  assert (∀ src (ds : list string) (acc : gset EdgeTuple),
    t ∈ foldl (λ edges dst,
                 if bool_decide (dst ≠ src)
                 then edges ∪ {[(src, dst, "call", 7 # 10)]}
                 else edges) acc ds ↔
    t ∈ acc ∨ ∃ dst, dst ∈ ds ∧ dst ≠ src ∧
                     t = (src, dst, "call", 7 # 10)) as Hin.
  { intros src. induction ds as [|d ds IHd]; intros acc; cbn [foldl].
    - split; [by left|]. intros [?|(? & ?%elem_of_nil & _)]; done.
    - rewrite IHd. split.
      + intros [Ht|(dst & ? & ?)].
        * case_bool_decide; [|by left].
          apply elem_of_union in Ht as [?|Ht%elem_of_singleton]; [by left|].
          right. exists d. split; [apply list_elem_of_here|done].
        * right. exists dst. split; [by apply list_elem_of_further|done].
      + intros [?|(dst & [->|?]%elem_of_cons & ? & ->)].
        * left. case_bool_decide; [|done]. apply elem_of_union. by left.
        * left. rewrite bool_decide_eq_true_2 by done.
          apply elem_of_union. right. by apply elem_of_singleton.
        * right. by exists dst. }
  induction rows as [|row rows IH]; intros acc; cbn [foldl].
  - split; [by left|]. intros [?|(? & ? & ?%elem_of_nil & _)]; done.
  - rewrite IH, Hin. split.
    + intros [[?|(dst & Hd%elem_of_elements & ? & ?)]|(r & d & ? & ?)].
      * by left.
      * right. exists row, dst. split; [apply list_elem_of_here|done].
      * right. exists r, d. split; [by apply list_elem_of_further|done].
    + intros [?|(r & d & [->|?]%elem_of_cons & ? & ? & ->)].
      * by left; left.
      * left. right. exists d. split; [by apply elem_of_elements|done].
      * right. by exists r, d.
Qed.

Lemma resolve_not_empty fs m d : _resolve_import_to_file fs m = Some d → d ≠ "".
Proof.
  intros [_ Hc]%resolve_import_Some.
  apply RefreshTheorems.candidate_names_py in Hc as [t ->]. by destruct t.
Qed.

Lemma edge_row_tuple e : edge_row (edge_tuple e) = e.
Proof. by destruct e. Qed.

Lemma edge_tuple_row t : edge_tuple (edge_row t) = t.
Proof. by destruct t as [[[? ?] ?] ?]. Qed.

Lemma edge_set_spec fs st t :
  t ∈ edge_set fs st ↔
  import_origin fs st (edge_row t) ∨ call_origin st (edge_row t).
Proof.
  unfold edge_set. rewrite call_edges_spec, import_edges_spec.
  destruct t as [[[s d] ty] w].
  unfold import_origin, call_origin, list_imports, list_calls. cbn. split.
  - intros [[Hf|(row & dst & ? & ? & ? & ? & ?)]
           |(row & dst & ? & (sym & ? & ? & ?)%symbol_files_by_name_owner
                  & ? & ?)]; simplify_eq.
    + by apply elem_of_empty in Hf.
    + left. repeat split; [congruence|]. by exists row.
    + right. repeat split; [congruence|]. by exists row, sym.
  - intros [(-> & -> & ? & row & ? & <- & Hres)
           |(-> & -> & ? & row & sym & ? & ? & <- & ? & <-)].
    + left. right. exists row, d.
      split; [done|]. split; [done|].
      split; [by eapply resolve_not_empty|]. split; [congruence|done].
    + right. exists row, (sym_file_path sym).
      split; [done|]. split; [|split; [congruence|done]].
      unfold symbol_files_by_name. apply symbol_files_fold.
      right. by exists sym.
Qed.

Lemma edge_set_weight fs st t t' :
  t ∈ edge_set fs st → t' ∈ edge_set fs st →
  triple (edge_row t) = triple (edge_row t') → t = t'.
Proof.
  rewrite !edge_set_spec.
  destruct t as [[[s d] ty] w], t' as [[[s' d'] ty'] w'].
  unfold import_origin, call_origin, triple. cbn.
  intros [(? & ? & _)|(? & ? & _)] [(? & ? & _)|(? & ? & _)] ?;
    by simplify_eq.
Qed.

Lemma rebuild_edges_eq fs st :
  edges (_rebuild_edges fs st).1 =
    edge_row <$> merge_sort edge_le (elements (edge_set fs st)) ∧
  (_rebuild_edges fs st).2 = size (edge_set fs st).
Proof.
  split; [|done]. unfold _rebuild_edges, replace_edges. cbn.
  fold (edge_set fs st). rewrite ioi_distinct; [done|].
  cbn [app]. rewrite <- list_fmap_compose. apply NoDup_fmap_2_strong.
  - intros t t' Ht Ht'. rewrite merge_sort_Permutation in Ht, Ht'.
    apply elem_of_elements in Ht, Ht'. by apply (edge_set_weight fs st).
  - rewrite merge_sort_Permutation. apply NoDup_elements.
Qed.

End GraphFacts.

Module GraphTheorems.
Import StateStore IndexService Scenario Spec Views.
Import StoreFacts ScanFacts EdgeFacts StringFacts TableFacts OrderFacts GraphFacts.


Lemma concat_snoc sep ps y :
  ps ≠ [] → String.concat sep (ps ++ [y]) = String.concat sep ps +:+ sep +:+ y.
Proof.
  induction ps as [|a ps IH]; [done|]. intros _.
  destruct ps as [|b ps]; [done|].
  change (String.concat sep ((a :: b :: ps) ++ [y]))
    with (a +:+ sep +:+ String.concat sep ((b :: ps) ++ [y])).
  rewrite IH by done.
  change (String.concat sep (a :: b :: ps))
    with (a +:+ sep +:+ String.concat sep (b :: ps)).
  by rewrite !app_assoc.
Qed.

Lemma concat_last sep ps t :
  ps ≠ [] →
  String.concat sep (removelast ps ++ [List.last ps "" +:+ t]) =
  String.concat sep ps +:+ t.
Proof.
  induction ps as [|a ps IH]; [done|]. intros _.
  destruct ps as [|b ps]; [done|].
  change (removelast (a :: b :: ps)) with (a :: removelast (b :: ps)).
  change (List.last (a :: b :: ps) "") with (List.last (b :: ps) "").
  assert (∃ c l, removelast (b :: ps) ++ [List.last (b :: ps) "" +:+ t]
                 = c :: l) as (c & l & Hcl).
  { destruct (removelast (b :: ps)); cbn; eauto. }
  change (String.concat sep
            ((a :: removelast (b :: ps)) ++ [List.last (b :: ps) "" +:+ t]))
    with (String.concat sep
            (a :: (removelast (b :: ps) ++ [List.last (b :: ps) "" +:+ t]))).
  rewrite Hcl.
  change (String.concat sep (a :: c :: l))
    with (a +:+ sep +:+ String.concat sep (c :: l)).
  rewrite <- Hcl, IH by done.
  change (String.concat sep (a :: b :: ps))
    with (a +:+ sep +:+ String.concat sep (b :: ps)).
  by rewrite !app_assoc.
Qed.

(** X7 ([_resolve_import_to_file]): for a dotted module name without empty
    components, the file [a/b/c.py] is the answer when it exists, the
    package file [a/b/c/__init__.py] when only that exists, and [None]
    when neither exists. *)
Theorem resolve_import_prefers_module fs m :
  Forall (λ s, s ≠ "") (Py.split "." m) →
  _resolve_import_to_file fs m =
    if decide (is_Some (fs !! (Py.join "/" (Py.split "." m) +:+ ".py")))
    then Some (Py.join "/" (Py.split "." m) +:+ ".py")
    else if decide (is_Some
                      (fs !! (Py.join "/" (Py.split "." m) +:+ "/__init__.py")))
         then Some (Py.join "/" (Py.split "." m) +:+ "/__init__.py")
         else None.
Proof.
  intros Hne. unfold _resolve_import_to_file, _normalize_rel.
  rewrite bool_decide_eq_false_2.
  2:{ intros ->. cbn in Hne. by apply Forall_cons in Hne as [? _]. }
  unfold module_candidates. rewrite (filter_all _ _ Hne).
  pose proof (split_nonempty "." m) as Hps.
  destruct (Py.split "." m) as [|p ps] eqn:E; [done|].
  unfold Py.join. rewrite concat_last, concat_snoc by done.
  cbn [List.find]. repeat case_decide.
  - by rewrite bool_decide_eq_true_2.
  - rewrite bool_decide_eq_false_2 by done.
    by rewrite bool_decide_eq_true_2.
  - by rewrite !bool_decide_eq_false_2.
Qed.

Lemma resolve_import_prefers_module_witness :
  _resolve_import_to_file tree_build "build.helper" = Some "build/helper.py".
Proof.
  rewrite (resolve_import_prefers_module tree_build "build.helper").
  - reflexivity.
  - vm_compute. repeat constructor; discriminate.
Defined.

(** X8 ([_rebuild_edges]): the rebuilt table holds an edge exactly when it
    is the import edge of an import row whose module resolves to another
    file of the tree (weight 1.0), or the call edge from the file of a
    call row to another file that defines a symbol with the callee's name
    (weight 0.7). *)
Theorem rebuild_edges_exact fs st e :
  e ∈ edges (_rebuild_edges fs st).1 ↔
  import_origin fs st e ∨ call_origin st e.
Proof.
  rewrite (proj1 (rebuild_edges_eq fs st)). rewrite list_elem_of_fmap.
  split.
  - intros (t & -> & Ht). rewrite merge_sort_Permutation in Ht.
    by apply elem_of_elements, edge_set_spec in Ht.
  - intros H. exists (edge_tuple e). rewrite merge_sort_Permutation.
    rewrite elem_of_elements, edge_set_spec, !edge_row_tuple. done.
Qed.

(** X9 ([_rebuild_edges], [replace_edges]): the number the rebuild returns
    is the number of rows of the edge table; no two rows agree on source,
    target and type; no row is a self-loop; the rows are in the order of
    their tuples; the other tables are untouched. *)
Theorem rebuild_edges_table fs st :
  (_rebuild_edges fs st).2 = length (edges (_rebuild_edges fs st).1) ∧
  NoDup (triple <$> edges (_rebuild_edges fs st).1) ∧
  Forall (λ e, src_file e ≠ dst_file e) (edges (_rebuild_edges fs st).1) ∧
  StronglySorted (λ a b, edge_le (edge_tuple a) (edge_tuple b))
    (edges (_rebuild_edges fs st).1) ∧
  indexed_files (_rebuild_edges fs st).1 = indexed_files st ∧
  symbols (_rebuild_edges fs st).1 = symbols st ∧
  imports (_rebuild_edges fs st).1 = imports st ∧
  calls (_rebuild_edges fs st).1 = calls st.
Proof.
  destruct (rebuild_edges_eq fs st) as [Hed Hn].
  split; [|split; [|split; [|split; [|done]]]].
  - rewrite Hn, Hed, length_fmap.
    rewrite merge_sort_Permutation. done.
  - unfold _rebuild_edges, replace_edges. cbn.
    apply ioi_NoDup. constructor.
  - apply Forall_forall. intros e He.
    apply rebuild_edges_sound in He as [(_ & _ & ? & _)|(_ & _ & ? & _)]; done.
  - rewrite Hed. eapply StronglySorted_fmap;
      [|apply StronglySorted_merge_sort;
          [apply edge_le_trans|apply edge_le_total]].
    intros x y. by rewrite !edge_tuple_row.
Qed.

End GraphTheorems.

Module SyncFacts.
Import Ast StateStore Parser IndexService Spec Views.
Import StoreFacts ScanFacts RefreshFacts EdgeFacts TableFacts GraphFacts.

Lemma foldl_delete_facts (l : list string) st p :
  p ∉ l → facts_of p (foldl delete_file st l) = facts_of p st.
Proof.
  revert st. induction l as [|q l IH]; intros st Hp; cbn [foldl]; [done|].
  apply not_elem_of_cons in Hp as [Hne Hp].
  rewrite IH by done. by apply delete_facts_other.
Qed.

Lemma rebuild_facts fs st p :
  facts_of p (_rebuild_edges fs st).1 = facts_of p st.
Proof. done. Qed.

Section Scan.
Variable P : Platform.
Variable time_time : nat → Q.
Variable previous : gmap string FileMeta.

Abbreviation scan := (foldl (scan_file P time_time previous)).
Abbreviation stale := (Spec.stale P previous).

Lemma scan_file_facts s rel path f q :
  facts_of q (scan_store (scan_file P time_time previous s (rel, (path, f)))) =
  if stale (rel, (path, f)) && bool_decide (q = rel)
  then analysis_rows rel (_parse_python_file P (read_text f) path)
  else facts_of q (scan_store s).
Proof.
  destruct (stale (rel, (path, f))) eqn:Hst; cbn [andb].
  - destruct (scan_file_index P time_time previous s rel path f Hst)
      as (syms & imps & cls & pe & Hp & ->). cbn [scan_store].
    case_bool_decide as Hq.
    + subst q. rewrite analysis_facts_same, Hp. done.
    + by rewrite analysis_facts_other.
  - by rewrite (scan_file_skip P time_time previous s rel path f Hst).
Qed.

Lemma scan_facts_other items s q :
  q ∉ items.*1 →
  facts_of q (scan_store (scan s items)) = facts_of q (scan_store s).
Proof.
  revert s. induction items as [|[r [path f]] items IH]; intros s Hnin;
    cbn [foldl]; [done|].
  rewrite fmap_cons in Hnin. apply not_elem_of_cons in Hnin as [Hne Hnin].
  cbn in Hne. rewrite IH by done. rewrite scan_file_facts.
  rewrite bool_decide_eq_false_2 by done. by rewrite andb_false_r.
Qed.

Lemma scan_facts items s rel path f :
  NoDup items.*1 → (rel, (path, f)) ∈ items →
  facts_of rel (scan_store (scan s items)) =
  if stale (rel, (path, f))
  then analysis_rows rel (_parse_python_file P (read_text f) path)
  else facts_of rel (scan_store s).
Proof.
  revert s. induction items as [|[r [p' f']] items IH]; intros s Hnd Hin;
    [by apply elem_of_nil in Hin|].
  rewrite fmap_cons in Hnd. apply NoDup_cons in Hnd as [Hnin Hnd].
  apply elem_of_cons in Hin as [Heq|Hin].
  - simplify_eq. cbn [foldl]. cbn in Hnin.
    rewrite scan_facts_other by done. rewrite scan_file_facts.
    rewrite bool_decide_eq_true_2 by done. by rewrite andb_true_r.
  - assert (rel ≠ r) as Hne.
    { intros ->. apply Hnin. cbn.
      apply list_elem_of_fmap. by exists (r, (path, f)). }
    cbn [foldl]. rewrite (IH _ Hnd Hin).
    destruct (stale (rel, (path, f))); [done|].
    rewrite scan_file_facts. rewrite bool_decide_eq_false_2 by done.
    by rewrite andb_false_r.
Qed.


End Scan.

Section Refresh.
Variable P : Platform.
Variable time_time : nat → Q.

Abbreviation refreshed fs st := ((refresh_index P time_time fs st).1).

Lemma refresh_dom fs st :
  dom (indexed_files (refreshed fs st)) =
  list_to_set (_iter_python_files fs).*1.
Proof.
  apply set_eq. intros p. rewrite elem_of_dom, elem_of_list_to_set. split.
  - intros Hs. destruct (decide (p ∈ (_iter_python_files fs).*1)); [done|].
    rewrite refresh_lookup_None in Hs by done. by destruct Hs.
  - apply refresh_lookup_is_Some.
Qed.


Lemma refresh_facts fs st rel f :
  (rel, f) ∈ _iter_python_files fs →
  facts_of rel (refreshed fs st) =
  if stale P (get_indexed_file_meta st) (rel, (rel, f))
  then analysis_rows rel (_parse_python_file P (read_text f) rel)
  else facts_of rel st.
Proof.
  intros Hin. rewrite refresh_index_store, rebuild_facts. unfold refresh_scan.
  set (prev := get_indexed_file_meta st).
  set (cm := current_map_of (_iter_python_files fs)).
  assert ((rel, (rel, f)) ∈ cm) as Hcm by by apply elem_of_current_map.
  assert (NoDup cm.*1) as Hnd.
  { unfold cm. rewrite current_map_keys. apply NoDup_iter_python_files. }
  rewrite (scan_facts P time_time prev cm _ rel rel f Hnd Hcm).
  destruct (stale P prev (rel, (rel, f))); [done|]. cbn [scan_store].
  apply foldl_delete_facts.
  intros [_ Hn]%elem_of_deleted_paths. apply Hn.
  apply list_elem_of_fmap. by exists (rel, (rel, f)).
Qed.

(** After a refresh in which every file parsed, no enumerated file is
    stale. *)
Lemma refreshed_fresh tt' fs st :
  Forall (λ pf, parses P pf = true) (_iter_python_files fs) →
  Forall (λ item, stale P (get_indexed_file_meta (refreshed fs st)) item
                  = false)
         (current_map_of (_iter_python_files fs)) ∧
  deleted_paths (get_indexed_file_meta (refreshed fs st))
    (current_map_of (_iter_python_files fs)) = [] ∧
  scan_store (refresh_scan P tt' fs (refreshed fs st)) = refreshed fs st.
Proof.
  intros Hparses. set (st1 := refreshed fs st).
  assert (Forall (λ item, stale P (get_indexed_file_meta st1) item = false)
            (current_map_of (_iter_python_files fs))) as Hfresh.
  { apply Forall_forall. intros [rel [path f]] Hin.
    apply elem_of_current_map in Hin as [-> Hin].
    unfold Spec.stale. cbn [fst snd]. apply negb_false_iff.
    rewrite lookup_meta.
    pose proof (refresh_lookup P time_time fs st rel f Hin) as Hrow.
    fold st1 in Hrow.
    destruct (stale P (get_indexed_file_meta st) (rel, (rel, f))) eqn:Hst.
    + destruct Hrow as [t ->]. cbn.
      assert ((_parse_python_file P (read_text f) rel).2 = None) as ->.
      { pose proof (proj1 (Forall_forall _ _) Hparses (rel, f) Hin) as Hp.
        unfold parses in Hp. cbn [fst snd] in Hp. unfold _parse_python_file.
        by destruct (ast_parse P (read_text f) rel). }
      rewrite !bool_decide_eq_true_2 by auto. cbn.
      rewrite andb_true_r. apply Qeq_bool_iff. reflexivity.
    + rewrite Hrow. unfold Spec.stale in Hst. cbn [fst snd] in Hst.
      apply negb_false_iff in Hst. by rewrite lookup_meta in Hst. }
  assert (deleted_paths (get_indexed_file_meta st1)
            (current_map_of (_iter_python_files fs)) = []) as Hdel.
  { unfold deleted_paths. rewrite current_map_keys.
    assert (dom (get_indexed_file_meta st1) ∖
              list_to_set (_iter_python_files fs).*1 = (∅ : gset string)) as ->.
    { unfold get_indexed_file_meta. rewrite dom_fmap_L.
      unfold st1. rewrite refresh_dom. apply difference_diag_L. }
    unfold Py.sorted_set. by rewrite elements_empty. }
  split; [done|]. split; [done|].
  unfold refresh_scan. rewrite Hdel. cbn [foldl].
  by destruct (scan_all_fresh P tt' (get_indexed_file_meta st1) _
    {| scan_store := st1; scan_indexed := 0; scan_skipped := 0;
       scan_parse_errors := 0; parsed := [] |} Hfresh) as (_ & _ & ->).
Qed.

End Refresh.
End SyncFacts.

Module SyncTheorems.
Import Ast StateStore Parser IndexService Scenario Spec Views.
Import StoreFacts ScanFacts RefreshFacts EdgeFacts TableFacts GraphFacts.
Import SyncFacts.


(** X11 ([refresh_index]): after a refresh the symbol, import and call
    rows of an enumerated file that was re-parsed are exactly the rows of
    its new analysis (none when the parse failed), and the rows of a file
    that was skipped are the rows it had before. *)
Theorem refresh_facts_of_file P tt fs st rel f :
  (rel, f) ∈ _iter_python_files fs →
  facts_of rel (refresh_index P tt fs st).1 =
    (if stale P (get_indexed_file_meta st) (rel, (rel, f))
     then analysis_rows rel (_parse_python_file P (read_text f) rel)
     else facts_of rel st) ∧
  ((_parse_python_file P (read_text f) rel).2 ≠ None →
   analysis_rows rel (_parse_python_file P (read_text f) rel) = ([], [], [])).
Proof.
  intros Hin. split; [by apply refresh_facts|].
  unfold _parse_python_file. by destruct (ast_parse P (read_text f) rel).
Qed.

Lemma refresh_facts_of_file_witness :
  facts_of "b.py" (refresh_index python clock tree_abc StateStore.empty).1 =
  analysis_rows "b.py"
    (_parse_python_file python (read_text (file text_def_foo)) "b.py").
Proof.
  apply (refresh_facts_of_file python clock tree_abc StateStore.empty "b.py"
           (file text_def_foo)).
  vm_compute. apply list_elem_of_further, list_elem_of_here.
Defined.

(** X12 ([refresh_index]): on a store whose fact rows are owned by
    indexed files, every symbol, import and call row that is left after
    a refresh belongs to an enumerated file. *)
Theorem refresh_facts_point_to_files P tt fs st :
  owned st →
  Forall (λ r, sym_file_path r ∈ (_iter_python_files fs).*1)
         (symbols (refresh_index P tt fs st).1) ∧
  Forall (λ r, imp_file_path r ∈ (_iter_python_files fs).*1)
         (imports (refresh_index P tt fs st).1) ∧
  Forall (λ r, call_file_path r ∈ (_iter_python_files fs).*1)
         (calls (refresh_index P tt fs st).1).
Proof.
  intros Hown.
  destruct (refresh_index_owned P tt fs st Hown) as (Hs & Hi & Hc).
  assert (∀ p, is_Some (indexed_files (refresh_index P tt fs st).1 !! p) →
               p ∈ (_iter_python_files fs).*1) as Hdom.
  { intros p. rewrite <- elem_of_dom, refresh_dom, elem_of_list_to_set. done. }
  repeat split; (eapply Forall_impl; [eassumption|]); intros r; apply Hdom.
Qed.

Lemma refresh_facts_point_to_files_witness :
  Forall (λ r, sym_file_path r ∈ (_iter_python_files tree_abc).*1)
         (symbols (refresh_index python clock tree_abc StateStore.empty).1).
Proof.
  apply (refresh_facts_point_to_files python clock tree_abc StateStore.empty).
  exact owned_empty.
Defined.

Lemma rebuild_rebuild fs st :
  (_rebuild_edges fs (_rebuild_edges fs st).1).1 = (_rebuild_edges fs st).1.
Proof. done. Qed.

(** X13 ([refresh_index]): when every enumerated file parses, a second
    refresh over the same tree deletes nothing and leaves the store
    exactly as the first one left it. *)
Theorem refresh_store_idempotent P tt tt' fs st :
  Forall (λ pf, parses P pf = true) (_iter_python_files fs) →
  (refresh_index P tt' fs (refresh_index P tt fs st).1).1 =
    (refresh_index P tt fs st).1 ∧
  files_deleted (refresh_index P tt' fs (refresh_index P tt fs st).1).2 = 0.
Proof.
  intros Hp.
  destruct (refreshed_fresh P tt tt' fs st Hp) as (_ & Hdel & Hst).
  split.
  - rewrite (refresh_index_store P tt' fs). rewrite Hst.
    rewrite (refresh_index_store P tt fs). apply rebuild_rebuild.
  - change (length (deleted_paths
                      (get_indexed_file_meta (refresh_index P tt fs st).1)
                      (current_map_of (_iter_python_files fs))) = 0).
    by rewrite Hdel.
Qed.

Lemma refresh_store_idempotent_witness :
  (refresh_index python clock tree_abc
     (refresh_index python clock tree_abc StateStore.empty).1).1 =
  (refresh_index python clock tree_abc StateStore.empty).1.
Proof.
  apply (refresh_store_idempotent python clock clock tree_abc
           StateStore.empty).
  vm_compute. repeat constructor.
Defined.


End SyncTheorems.

Module ReportFacts.
Import StateStore IndexService BfsFacts RefreshFacts ImpactFacts OracleFacts
  Spec Views.

Lemma lower1_zero o : lower1 o = 0%Z ↔ o = Some 0%Z.
Proof.
  destruct o as [d|]; cbn; [|done].
  destruct (1 <? d)%Z eqn:H; split; try done.
  - intros [= ->]. done.
  - by intros ->.
  - by intros [= ->].
Qed.

Lemma lower1_nonneg o :
  (∀ d, o = Some d → (0 ≤ d)%Z) → (0 ≤ lower1 o)%Z.
Proof.
  destruct o as [d|]; cbn; [|done]. intros H.
  destruct (1 <? d)%Z; [done|]. by apply H.
Qed.

Lemma item_le_total : Total item_le.
Proof.
  intros [f x] [g y]. unfold item_le. cbn.
  destruct (Z.lt_trichotomy x y) as [?|[->|?]]; [by left; left| |by right; left].
  destruct (total String.le f g); [left|right]; by right.
Qed.

Lemma item_le_trans : Transitive item_le.
Proof.
  intros [f x] [g y] [h z]. unfold item_le. cbn.
  intros [?|[-> ?]] [?|[-> ?]]; [left; lia|by left|by left|].
  right. split; [done|]. by etrans.
Qed.

Lemma item_le_antisym : AntiSymm (=) item_le.
Proof.
  intros [f x] [g y]. unfold item_le. cbn.
  intros [?|[-> ?]] [?|[? ?]]; try lia.
  f_equal. by apply (anti_symm String.le).
Qed.

Lemma entry_of_no_oracle sd sd' pd pd' f d :
  entry_of sd {| predicted_set := ∅; predicted_strength := ∅;
                 pred_distance := pd |} (f, d) =
  entry_of sd' {| predicted_set := ∅; predicted_strength := ∅;
                  pred_distance := pd' |} (f, d).
Proof.
  unfold entry_of. destruct (classify d) as [k c]. cbn [predicted_set].
  destruct (d =? 0)%Z; [done|].
  rewrite (bool_decide_eq_false_2 (f ∈ _)) by apply not_elem_of_empty.
  by rewrite !andb_false_r.
Qed.

Lemma entry_of_changed sd p f :
  entry_of sd p (f, 0%Z) =
  {| file_path := f; distance := 0; impact_kind := "changed";
     confidence := 1 # 1; impact_source := "changed" |}.
Proof. done. Qed.

Lemma classify_bounds d :
  (25 # 100 <= (classify d).2)%Q ∧ ((classify d).2 <= 1 # 1)%Q.
Proof.
  unfold classify.
  destruct (d =? 0)%Z; [by vm_compute|].
  destruct (d =? 1)%Z; [by vm_compute|]. cbn [snd].
  split; [apply max_le_l|].
  destruct (max_cases (25 # 100) (Py.round3 ((75 # 100) / inject_Z d)))
    as [-> | ->]; [by vm_compute|].
  unfold Py.round3.
  assert (Py.round_half_even ((75 # 100) / inject_Z d * 1000) ≤ 1000)%Z as H.
  { apply round_half_even_le. destruct d as [|q|q].
    - by vm_compute.
    - unfold Qle, Qdiv, Qmult, Qinv, inject_Z. cbn. lia.
    - unfold Qle, Qdiv, Qmult, Qinv, inject_Z. cbn. lia. }
  unfold Qle. cbn. lia.
Qed.

Lemma filter_iff_Forall {A} (P1 P2 : A → Prop)
    `{∀ x, Decision (P1 x), ∀ x, Decision (P2 x)} (l : list A) :
  Forall (λ x, P1 x ↔ P2 x) l → filter P1 l = filter P2 l.
Proof.
  induction 1 as [|x l Hx _ IH]; [done|]. rewrite !filter_cons, IH.
  destruct (decide (P1 x)), (decide (P2 x)); tauto.
Qed.

Lemma kinds_partition (l : list ImpactEntry) :
  Forall (λ e, impact_kind e = (classify (distance e)).1) l →
  length l =
  length (filter (λ e, distance e = 0%Z) l) +
  length (filter (λ e, impact_kind e = "direct") l) +
  length (filter (λ e, impact_kind e = "transitive") l) ∧
  length (filter (λ e, impact_kind e = "direct") l) =
    length (filter (λ e, distance e = 1%Z) l) ∧
  length (filter (λ e, impact_kind e = "transitive") l) =
    length (filter (λ e, distance e ≠ 0%Z ∧ distance e ≠ 1%Z) l).
Proof.
  induction 1 as [|e l He _ IH]; [done|].
  rewrite !filter_cons. destruct IH as (IH1 & IH2 & IH3).
  unfold classify in He.
  destruct (distance e =? 0)%Z eqn:E0.
  - apply Z.eqb_eq in E0. cbn in He.
    rewrite (decide_True (P := distance e = 0%Z)) by done.
    rewrite !(decide_False (P := impact_kind e = _)) by (by rewrite He).
    rewrite (decide_False (P := distance e = 1%Z)) by lia.
    rewrite (decide_False (P := _ ∧ _)) by tauto.
    cbn [length]. lia.
  - apply Z.eqb_neq in E0. destruct (distance e =? 1)%Z eqn:E1.
    + apply Z.eqb_eq in E1. cbn in He.
      rewrite (decide_False (P := distance e = 0%Z)) by done.
      rewrite (decide_True (P := impact_kind e = "direct")) by done.
      rewrite (decide_False (P := impact_kind e = "transitive"))
        by (by rewrite He).
      rewrite (decide_True (P := distance e = 1%Z)) by done.
      rewrite (decide_False (P := _ ∧ _)) by tauto.
      cbn [length]. lia.
    + apply Z.eqb_neq in E1. cbn in He.
      rewrite (decide_False (P := distance e = 0%Z)) by done.
      rewrite (decide_False (P := impact_kind e = "direct"))
        by (by rewrite He).
      rewrite (decide_True (P := impact_kind e = "transitive")) by done.
      rewrite (decide_False (P := distance e = 1%Z)) by done.
      rewrite (decide_True (P := _ ∧ _)) by done.
      cbn [length]. lia.
Qed.

Section Impact.
Variable self : Config.
Variable cognitive : string + WorldModelClass.
Variable relative_to_root : string → option string.
Variable st : StateStore.t.
Variable changed_files : list string.
Variable max_depth : Z.

Abbreviation report :=
  (impact_for_files self cognitive relative_to_root st changed_files
     max_depth).
Abbreviation changed := (IndexService.changed_files report).
Abbreviation sd :=
  (bfs_distance (static_distance_of (list_edges st) changed max_depth)).
Abbreviation p :=
  (predictions self cognitive relative_to_root st changed_files max_depth).
Abbreviation indexed := (dom (get_indexed_file_meta st)).

Lemma changed_eq :
  changed =
  Py.sorted_set
    (list_to_set (normalize_inputs relative_to_root indexed changed_files)).
Proof.
  unfold impact_for_files.
  by destruct (_build_cognitive_world self cognitive st) as [[w|] s].
Qed.

Lemma changed_sorted : StronglySorted String.le changed.
Proof.
  rewrite changed_eq. unfold Py.sorted_set, Py.sorted_str.
  apply StronglySorted_merge_sort; apply _.
Qed.

Lemma elem_of_changed c :
  c ∈ changed ↔ c ∈ normalize_inputs relative_to_root indexed changed_files.
Proof. by rewrite changed_eq, elem_of_sorted_set, elem_of_list_to_set. Qed.

Lemma normalize_inputs_spec c :
  c ∈ normalize_inputs relative_to_root indexed changed_files ↔
  ∃ item, item ∈ changed_files ∧ c ∈ indexed ∧
    (c = Py.strip (Py.replace_backslash item) ∨
     (Py.strip (Py.replace_backslash item) ∉ indexed) ∧
     Py.startswith (Py.strip (Py.replace_backslash item)) "/" = true ∧
     relative_to_root (Py.strip (Py.replace_backslash item)) = Some c ∧
     c ≠ "").
Proof.
  unfold normalize_inputs.
  assert (∀ items acc,
    c ∈ foldl (λ normalized item,
           let norm := Py.strip (Py.replace_backslash item) in
           if bool_decide (norm ∈ indexed) then normalized ++ [norm]
           else if Py.startswith norm "/" then
             match relative_to_root norm with
             | Some rel =>
                 if bool_decide (rel ≠ "" ∧ rel ∈ indexed)
                 then normalized ++ [rel] else normalized
             | None => normalized
             end
           else normalized) acc items ↔
    c ∈ acc ∨
    ∃ item, item ∈ items ∧ c ∈ indexed ∧
      (c = Py.strip (Py.replace_backslash item) ∨
       (Py.strip (Py.replace_backslash item) ∉ indexed) ∧
       Py.startswith (Py.strip (Py.replace_backslash item)) "/" = true ∧
       relative_to_root (Py.strip (Py.replace_backslash item)) = Some c ∧
       c ≠ "")) as H.
  { induction items as [|item items IH]; intros acc; cbn [foldl].
    - split; [by left|]. intros [?|(? & ?%elem_of_nil & _)]; done.
    - rewrite IH. clear IH.
      set (norm := Py.strip (Py.replace_backslash item)). cbn zeta.
      split.
      + intros [Hacc|(it & ? & ?)].
        2:{ right. exists it. split; [by apply list_elem_of_further|done]. }
        case_bool_decide as Hn.
        { apply elem_of_app in Hacc as [?| ->%list_elem_of_singleton];
            [by left|].
          right. exists item. split; [apply list_elem_of_here|].
          split; [done|]. by left. }
        destruct (Py.startswith norm "/") eqn:Hs; [|by left].
        destruct (relative_to_root norm) as [rel|] eqn:Hr; [|by left].
        case_bool_decide as Hrel; [|by left].
        apply elem_of_app in Hacc as [?| ->%list_elem_of_singleton];
          [by left|].
        destruct Hrel. right. exists item.
        split; [apply list_elem_of_here|]. split; [done|]. by right.
      + intros [Hacc|(it & [->|Hin]%elem_of_cons & Hc & Hor)].
        * left. case_bool_decide; [apply elem_of_app; by left|].
          destruct (Py.startswith norm "/"); [|done].
          destruct (relative_to_root norm); [|done].
          case_bool_decide; [apply elem_of_app; by left|done].
        * left. fold norm in Hor. destruct Hor as [->|(Hn & Hs & Hr & Hne)].
          -- rewrite bool_decide_eq_true_2 by done.
             apply elem_of_app. right. apply list_elem_of_here.
          -- rewrite bool_decide_eq_false_2 by done. rewrite Hs, Hr.
             rewrite bool_decide_eq_true_2 by done.
             apply elem_of_app. right. apply list_elem_of_here.
        * right. by exists it. }
  rewrite H. split; [|by right]. intros [?%elem_of_nil|?]; done.
Qed.

Lemma changed_indexed c : c ∈ changed → c ∈ indexed.
Proof.
  rewrite elem_of_changed, normalize_inputs_spec. by intros (? & ? & ? & _).
Qed.

Lemma pred_distance_cases f :
  pred_distance p !! f =
  if decide (f ∈ predicted_set p) then Some (lower1 (sd !! f)) else sd !! f.
Proof.
  unfold Spec.predictions.
  destruct (_build_cognitive_world self cognitive st).1 as [predict|].
  - apply pred_distance_spec.
  - cbn. by rewrite decide_False by apply not_elem_of_empty.
Qed.

Lemma predicted_indexed f : f ∈ predicted_set p → f ∈ indexed.
Proof.
  unfold Spec.predictions.
  destruct (_build_cognitive_world self cognitive st).1 as [predict|].
  - intros [s [? _]]%predicted_set_spec. done.
  - cbn. by intros ?%elem_of_empty.
Qed.

Lemma sd_seed c : c ∈ changed → sd !! c = Some 0%Z.
Proof.
  apply (inv_seeds _ _ _ _
    (final_inv (list_edges st) changed max_depth
       (changed_files_NoDup self cognitive relative_to_root st
          changed_files max_depth))).
Qed.

Lemma sd_facts f x :
  sd !! f = Some x →
  (0 ≤ x ≤ Z.max 0 max_depth)%Z ∧ (x = 0%Z → f ∈ changed) ∧
  (f ∈ changed ∨ ∃ e, e ∈ edges st ∧ src_file e = f).
Proof.
  intros Hx.
  destruct (inv_sound _ _ _ _
    (final_inv (list_edges st) changed max_depth
       (changed_files_NoDup self cognitive relative_to_root st
          changed_files max_depth)) f x Hx) as (n & -> & Hh & Hle).
  split; [lia|]. split.
  - intros Hz. assert (n = 0) as -> by lia. by inversion Hh.
  - inversion Hh as [|m g h _ (e & ? & ? & ?)]; subst; [by left|].
    right. by exists e.
Qed.

Lemma pd_facts f d :
  pred_distance p !! f = Some d →
  (0 ≤ d)%Z ∧ (d = 0%Z ↔ f ∈ changed).
Proof.
  rewrite pred_distance_cases. case_decide as Hp.
  - intros [= <-]. split.
    + apply lower1_nonneg. intros x Hx. by apply sd_facts in Hx as [[? _] _].
    + rewrite lower1_zero. split.
      * intros Hx. apply sd_facts in Hx as (_ & Hx & _). by apply Hx.
      * apply sd_seed.
  - intros Hx. split; [by apply sd_facts in Hx as [[? _] _]|]. split.
    + intros ->. apply sd_facts in Hx as (_ & Hx & _). by apply Hx.
    + intros Hc. apply sd_seed in Hc. congruence.
Qed.

Lemma impacted_paths :
  file_path <$> impacted report =
  (merge_sort item_le (map_to_list (pred_distance p))).*1.
Proof.
  rewrite impacted_eq, <- list_fmap_compose. apply list_fmap_ext.
  intros _ [f d] _. apply entry_of_file_path.
Qed.

Lemma impacted_paths_NoDup : NoDup (file_path <$> impacted report).
Proof.
  rewrite impacted_paths, merge_sort_Permutation.
  apply NoDup_fst_map_to_list.
Qed.

Lemma changed_entry_in c :
  c ∈ changed →
  {| file_path := c; distance := 0; impact_kind := "changed";
     confidence := 1 # 1; impact_source := "changed" |} ∈ impacted report.
Proof.
  intros Hc. apply elem_of_impacted. exists c, 0%Z. split; [|done].
  rewrite pred_distance_cases. case_decide.
  - by rewrite sd_seed.
  - by apply sd_seed.
Qed.

Lemma impacted_distance e :
  e ∈ impacted report →
  (0 ≤ distance e)%Z ∧ (distance e = 0%Z ↔ file_path e ∈ changed).
Proof.
  intros (f & d & Hd & ->)%elem_of_impacted.
  rewrite entry_of_distance, entry_of_file_path. by apply pd_facts.
Qed.

End Impact.
End ReportFacts.

Module ReportTheorems.
Import StateStore IndexService Scenario BfsFacts RefreshFacts ImpactFacts
  OracleFacts Spec Views.
Import StoreFacts ScanFacts EdgeFacts SyncFacts ReportFacts.

Section Impact.
Variable self : Config.
Variable cognitive : string + WorldModelClass.
Variable relative_to_root : string → option string.
Variable st : StateStore.t.
Variable changed_files : list string.
Variable max_depth : Z.

Abbreviation report :=
  (impact_for_files self cognitive relative_to_root st changed_files
     max_depth).
Abbreviation changed := (IndexService.changed_files report).
Abbreviation sd :=
  (bfs_distance (static_distance_of (list_edges st) changed max_depth)).
Abbreviation p :=
  (predictions self cognitive relative_to_root st changed_files max_depth).
Abbreviation norm item := (Py.strip (Py.replace_backslash item)).



(** X16 ([impact_for_files], no known input): when no input names an
    indexed file, the report is empty, whatever the graph, the depth and
    the oracle are. *)
Theorem impact_of_unknown_files :
  IndexService.changed_files
    (impact_for_files self cognitive relative_to_root st changed_files
       max_depth) = [] →
  impacted report = [] ∧ direct_count report = 0 ∧
  transitive_count report = 0 ∧ world_predicted_files report = [].
Proof.
  intros Hc.
  assert (pred_distance p = ∅ ∧ predicted_set p = ∅) as [Hpd Hps].
  { unfold Spec.predictions. rewrite Hc.
    assert (bfs_distance (static_distance_of (list_edges st) [] max_depth)
            = ∅) as ->.
    { unfold static_distance_of. by destruct (length [] + length _). }
    by destruct (_build_cognitive_world self cognitive st).1. }
  assert (impacted report = []) as Himp.
  { rewrite impacted_eq, Hpd. done. }
  split; [done|]. rewrite world_predicted_eq, Hps.
  assert (direct_count report =
          length (filter (λ e, impact_kind e = "direct") (impacted report)) ∧
          transitive_count report =
          length (filter (λ e, impact_kind e = "transitive")
                    (impacted report))) as [-> ->].
  { unfold impact_for_files.
    by destruct (_build_cognitive_world self cognitive st) as [[w|] s]. }
  rewrite Himp. done.
Qed.

(** X17 ([impact_for_files], the changed files): every changed file is
    reported at distance 0 as [changed] with confidence 1.0, also when an
    oracle predicts it; no distance is negative, and the entries at
    distance 0 are the changed files. *)
Theorem changed_files_reported :
  (∀ c, c ∈ changed →
        {| file_path := c; distance := 0; impact_kind := "changed";
           confidence := 1 # 1; impact_source := "changed" |}
        ∈ impacted (impact_for_files self cognitive relative_to_root st
                      changed_files max_depth)) ∧
  (∀ e, e ∈ impacted report →
        (0 ≤ distance e)%Z ∧ (distance e = 0%Z ↔ file_path e ∈ changed)).
Proof.
  split; [intros c; apply changed_entry_in|intros e; apply impacted_distance].
Qed.

Lemma counts_eq :
  direct_count report =
    length (filter (λ e, impact_kind e = "direct") (impacted report)) ∧
  transitive_count report =
    length (filter (λ e, impact_kind e = "transitive") (impacted report)).
Proof.
  unfold impact_for_files.
  by destruct (_build_cognitive_world self cognitive st) as [[w|] s].
Qed.

(** X18 ([impact_for_files], the counters): the entries are the changed
    files, the direct and the transitive ones; [direct_count] counts the
    entries at distance 1 and [transitive_count] those at a distance of 2
    or more. *)
Theorem impact_counts_partition :
  length (impacted (impact_for_files self cognitive relative_to_root st
                      changed_files max_depth)) =
    length changed + direct_count report + transitive_count report ∧
  direct_count report =
    length (filter (λ e, distance e = 1%Z) (impacted report)) ∧
  transitive_count report =
    length (filter (λ e, (2 ≤ distance e)%Z) (impacted report)).
Proof.
  destruct counts_eq as [-> ->].
  destruct (kinds_partition (impacted report)) as (H1 & H2 & H3).
  { apply Forall_forall. intros e (f & d & _ & ->)%elem_of_impacted.
    by rewrite entry_of_kind, entry_of_distance. }
  assert (length (filter (λ e, distance e = 0%Z) (impacted report)) =
          length changed) as H0.
  { rewrite <- (length_fmap file_path). apply Permutation_length.
    apply NoDup_Permutation.
    - eapply sublist_NoDup; [apply impacted_paths_NoDup|].
      apply fmap_sublist, sublist_filter.
    - apply changed_files_NoDup.
    - intros c. rewrite list_elem_of_fmap. split.
      + intros (e & -> & [Hz He]%list_elem_of_filter).
        by apply impacted_distance.
      + intros Hc. eexists. split; [|apply list_elem_of_filter; split;
          [|by apply changed_entry_in]]; done. }
  split; [lia|]. split; [done|]. rewrite H3. f_equal.
  apply filter_iff_Forall, Forall_forall. intros e He.
  apply impacted_distance in He as [? _]. lia.
Qed.

(** X19 ([impact_for_files], sources and confidences): the source of an
    entry is one of the four labels; unless it is [world_model], the
    confidence is the one of its distance and lies between 0.25 and 1.0;
    a [world_model] entry is at distance 1 and has confidence at least
    0.85. *)
Theorem entry_confidence_bounds e :
  e ∈ impacted report →
  (impact_source e = "changed" ∨ impact_source e = "graph" ∨
   impact_source e = "graph+world_model" ∨
   impact_source e = "world_model") ∧
  (impact_source e ≠ "world_model" →
   confidence e = (classify (distance e)).2 ∧
   (25 # 100 <= confidence e)%Q ∧ (confidence e <= 1 # 1)%Q) ∧
  (impact_source e = "world_model" →
   distance e = 1%Z ∧ (85 # 100 <= confidence e)%Q).
Proof.
  intros (f & d & Hd & ->)%elem_of_impacted.
  rewrite entry_of_distance.
  pose proof (classify_bounds d) as Hb.
  rewrite pred_distance_cases in Hd.
  unfold entry_of. destruct (classify d) as [k c] eqn:Hk. cbn [snd] in Hb.
  destruct (d =? 0)%Z eqn:E0; [cbn; split; [by left|]; split; done|].
  destruct (decide (f ∈ predicted_set p)) as [Hp|Hp].
  - rewrite (bool_decide_eq_true_2 (f ∈ _)) by done.
    destruct (sd !! f) as [x|] eqn:Hx.
    + rewrite (bool_decide_eq_true_2 (is_Some _)) by eauto. cbn.
      split; [by right; right; left|]. split; done.
    + rewrite (bool_decide_eq_false_2 (is_Some _)) by (by intros [? ?]).
      cbn. split; [by right; right; right|]. split; [done|]. intros _.
      cbn in Hd. injection Hd as <-. split; [done|].
      cbn in Hk. injection Hk as <- <-. apply max_le_l.
  - rewrite (bool_decide_eq_false_2 (f ∈ _)) by done.
    rewrite andb_false_r. cbn.
    split; [by right; left|]. split; done.
Qed.

(** X20 ([impact_for_files], order of the entries): the entries are
    sorted by distance and, within a distance, by path, and no file has
    two entries. *)
Theorem impacted_sorted_unique :
  StronglySorted
    (λ a b, item_le (file_path a, distance a) (file_path b, distance b))
    (impacted report) ∧
  NoDup (file_path <$> impacted report).
Proof.
  split; [|apply impacted_paths_NoDup].
  rewrite impacted_eq.
  eapply StronglySorted_fmap;
    [|apply StronglySorted_merge_sort;
        [apply item_le_trans|apply item_le_total]].
  intros [f x] [g y]. by rewrite !entry_of_file_path, !entry_of_distance.
Qed.

Lemma sd_shallow f :
  (max_depth ≤ 0)%Z →
  sd !! f = if decide (f ∈ changed) then Some 0%Z else None.
Proof.
  intros Hd. case_decide as Hc; [by apply sd_seed|].
  destruct (sd !! f) as [x|] eqn:Hx; [|done].
  apply sd_facts in Hx as ([? ?] & Hz & _). exfalso. apply Hc, Hz. lia.
Qed.

(** X21 ([impact_for_files], depth 0 or less): without a usable oracle a
    depth that is not positive reports the changed files and nothing
    else, in the order of [changed_files]. *)
Theorem nonpositive_depth_reports_changed_only :
  unavailable self cognitive → (max_depth ≤ 0)%Z →
  impacted report =
  (λ c, {| file_path := c; distance := 0; impact_kind := "changed";
           confidence := 1 # 1; impact_source := "changed" |}) <$> changed.
Proof.
  intros Hun Hd. destruct (ImpactTheorems.unavailable_None self cognitive st Hun) as (Hnone & _).
  rewrite impacted_eq.
  rewrite (ImpactTheorems.world_None_predictions self cognitive
             relative_to_root st changed_files max_depth Hnone).
  cbn [pred_distance].
  assert (merge_sort item_le (map_to_list sd) = (λ c, (c, 0%Z)) <$> changed)
    as ->.
  { apply (StronglySorted_unique item_le (AntiSymm0:=item_le_antisym)).
    - apply StronglySorted_merge_sort;
        [apply item_le_trans|apply item_le_total].
    - eapply StronglySorted_fmap; [|apply changed_sorted].
      intros x y ?. right. done.
    - rewrite merge_sort_Permutation. apply NoDup_Permutation.
      + apply NoDup_map_to_list.
      + apply NoDup_fmap_2; [by intros ? ? [= ?]|].
        apply changed_files_NoDup.
      + intros [f x]. rewrite elem_of_map_to_list, sd_shallow by done.
        rewrite list_elem_of_fmap. case_decide as Hc; split.
        * intros [= <-]. by exists f.
        * by intros (c & [= -> ->] & _).
        * done.
        * intros (c & [= -> ->] & ?). done. }
  rewrite <- list_fmap_compose. apply list_fmap_ext. intros _ c _. done.
Qed.

End Impact.

Lemma changed_files_depth self cognitive relative_to_root st inputs d d' :
  changed_files
    (impact_for_files self cognitive relative_to_root st inputs d) =
  changed_files
    (impact_for_files self cognitive relative_to_root st inputs d').
Proof.
  unfold impact_for_files.
  by destruct (_build_cognitive_world self cognitive st) as [[w|] s].
Qed.

(** X22 ([impact_for_files], growing depth): without a usable oracle,
    every entry of the report for a depth is an entry, with the same
    distance, kind and confidence, of the report for any larger depth. *)
Theorem deeper_traversal_keeps_entries self cognitive relative_to_root st
    inputs d d' e :
  unavailable self cognitive → (d ≤ d')%Z →
  e ∈ impacted (impact_for_files self cognitive relative_to_root st inputs d) →
  e ∈ impacted (impact_for_files self cognitive relative_to_root st inputs d').
Proof.
  intros Hun Hdd. destruct (ImpactTheorems.unavailable_None self cognitive st Hun) as (Hnone & _).
  rewrite !elem_of_impacted.
  rewrite !(ImpactTheorems.world_None_predictions _ _ _ _ _ _ Hnone).
  cbn [pred_distance]. intros (f & x & Hx & ->). exists f, x.
  split; [|apply entry_of_no_oracle].
  rewrite (changed_files_depth _ _ _ _ _ d' d).
  pose proof (changed_files_NoDup self cognitive relative_to_root st inputs d)
    as Hnd.
  apply final_distance in Hx as (n & -> & Hh & Hmin & Hle); [|done].
  apply final_distance; [done|]. exists n. repeat split; [done..|lia].
Qed.

End ReportTheorems.

Module PipelineTheorems.
Import StateStore IndexService Scenario BfsFacts RefreshFacts ImpactFacts
  OracleFacts Spec Views.
Import StoreFacts ScanFacts EdgeFacts SyncFacts ReportFacts.

Lemma refreshed_edge_source P tt fs st e :
  owned st → e ∈ edges (refresh_index P tt fs st).1 →
  src_file e ∈ (_iter_python_files fs).*1.
Proof.
  intros Hown He.
  pose proof (refresh_scan_owned P tt fs st Hown) as (Hs & Hi & Hc).
  assert (is_Some (indexed_files (refresh_index P tt fs st).1 !! src_file e))
    as Hsome.
  { rewrite refresh_index_indexed_files. rewrite refresh_index_store in He.
    apply rebuild_edges_sound in He
      as [(_ & _ & _ & row & Hrow & <- & _)
         |(_ & _ & _ & row & sym & Hrow & _ & <- & _)].
    - by apply (proj1 (Forall_forall _ _) Hi).
    - by apply (proj1 (Forall_forall _ _) Hc). }
  apply elem_of_dom in Hsome. rewrite refresh_dom in Hsome.
  by apply elem_of_list_to_set in Hsome.
Qed.

(** X23 ([refresh_index] followed by [impact_for_files], as the command
    line runs them): on a store whose fact rows are owned by indexed
    files, every entry of an impact report computed right after a refresh
    names a file that the refresh enumerated, whatever the inputs, the
    depth and the oracle are. *)
Theorem impact_after_refresh_names_files P tt fs st self cognitive
    relative_to_root inputs max_depth e :
  owned st →
  e ∈ impacted (impact_for_files self cognitive relative_to_root
                  (refresh_index P tt fs st).1 inputs max_depth) →
  ∃ f, (file_path e, f) ∈ _iter_python_files fs.
Proof.
  intros Hown (f & d & Hd & ->)%elem_of_impacted.
  rewrite entry_of_file_path.
  assert (∀ g, g ∈ dom (get_indexed_file_meta (refresh_index P tt fs st).1) →
               ∃ x, (g, x) ∈ _iter_python_files fs) as Hidx.
  { intros g. unfold get_indexed_file_meta.
    rewrite dom_fmap_L, refresh_dom, elem_of_list_to_set.
    intros ([g' x] & -> & ?)%list_elem_of_fmap. by exists x. }
  rewrite pred_distance_cases in Hd. case_decide as Hp.
  - by apply predicted_indexed, Hidx in Hp.
  - apply sd_facts in Hd as (_ & _ & [Hc|(e & He & <-)]).
    + by apply changed_indexed, Hidx in Hc.
    + apply (refreshed_edge_source P tt fs st e Hown) in He.
      apply list_elem_of_fmap in He as ([g' x] & -> & ?). by exists x.
Qed.

End PipelineTheorems.

Module ReportExamples.
Import StateStore IndexService Scenario BfsFacts RefreshFacts ImpactFacts
  OracleFacts Spec Views.
Import ReportFacts ReportTheorems PipelineTheorems.
#[local] Open Scope string_scope.

Lemma impact_of_unknown_files_witness :
  impacted (impact_for_files default_config (inr oracle) no_abs store_abc
              ["nope.py"] 8) = [].
Proof.
  apply (impact_of_unknown_files default_config (inr oracle) no_abs store_abc
           ["nope.py"] 8).
  by vm_compute.
Defined.

Lemma entry_confidence_bounds_witness :
  confidence entry_a = (classify (distance entry_a)).2.
Proof.
  assert (entry_a ∈ impacted (impact_for_files default_config no_grilly
                                no_abs store_abc ["b.py"] 8)) as Hin.
  { vm_compute. repeat constructor. }
  apply (entry_confidence_bounds default_config no_grilly no_abs store_abc
           ["b.py"] 8 entry_a Hin).
  discriminate.
Defined.

Lemma nonpositive_depth_reports_changed_only_witness :
  impacted (impact_for_files default_config no_grilly no_abs store_abc
              ["b.py"] 0) =
  [{| file_path := "b.py"; distance := 0; impact_kind := "changed";
      confidence := 1 # 1; impact_source := "changed" |}].
Proof.
  rewrite (nonpositive_depth_reports_changed_only default_config no_grilly
             no_abs store_abc ["b.py"] 0).
  - by vm_compute.
  - right. exact I.
  - done.
Defined.

Lemma deeper_traversal_keeps_entries_witness :
  entry_a ∈ impacted (impact_for_files default_config no_grilly no_abs
                        store_abc ["b.py"] 8).
Proof.
  apply (deeper_traversal_keeps_entries default_config no_grilly no_abs
           store_abc ["b.py"] 1 8 entry_a).
  - right. exact I.
  - done.
  - vm_compute. repeat constructor.
Defined.

Lemma impact_after_refresh_names_files_witness :
  ∃ f, (file_path entry_a, f) ∈ _iter_python_files tree_abc.
Proof.
  apply (impact_after_refresh_names_files python clock tree_abc
           StateStore.empty default_config no_grilly no_abs ["b.py"] 8
           entry_a).
  - exact RefreshFacts.owned_empty.
  - vm_compute. repeat constructor.
Defined.

End ReportExamples.

Module ConfigTheorems.
Import StateStore IndexService Scenario Spec Views.

(** X24 ([IndexService.__init__]): the constructor clamps its arguments:
    the dimension is at least 64, the capsule dimension and the two fact
    limits are not negative, the semantic dimensions are at least 1, at
    most the requested number (when that is positive) and, for a capsule
    dimension of 2 or more, below the capsule dimension; a configuration
    that was clamped is not changed by clamping it again. *)
Theorem init_clamps enabled dim capsule semantic max_edge max_symbol :
  world_model_enabled
    (init enabled dim capsule semantic max_edge max_symbol) = enabled ∧
  (64 ≤ world_model_dim
          (init enabled dim capsule semantic max_edge max_symbol))%Z ∧
  (0 ≤ world_model_capsule_dim
         (init enabled dim capsule semantic max_edge max_symbol))%Z ∧
  (1 ≤ world_model_semantic_dims
         (init enabled dim capsule semantic max_edge max_symbol) ≤
   Z.max 1 semantic)%Z ∧
  ((2 ≤ world_model_capsule_dim
          (init enabled dim capsule semantic max_edge max_symbol))%Z →
   (world_model_semantic_dims
      (init enabled dim capsule semantic max_edge max_symbol) <
    world_model_capsule_dim
      (init enabled dim capsule semantic max_edge max_symbol))%Z) ∧
  (0 ≤ world_model_max_edge_facts
         (init enabled dim capsule semantic max_edge max_symbol))%Z ∧
  (0 ≤ world_model_max_symbol_facts
         (init enabled dim capsule semantic max_edge max_symbol))%Z ∧
  init enabled
    (world_model_dim (init enabled dim capsule semantic max_edge max_symbol))
    (world_model_capsule_dim
       (init enabled dim capsule semantic max_edge max_symbol))
    (world_model_semantic_dims
       (init enabled dim capsule semantic max_edge max_symbol))
    (world_model_max_edge_facts
       (init enabled dim capsule semantic max_edge max_symbol))
    (world_model_max_symbol_facts
       (init enabled dim capsule semantic max_edge max_symbol)) =
  init enabled dim capsule semantic max_edge max_symbol.
Proof.
  unfold init. cbn.
  destruct (0 <? Z.max 0 capsule)%Z eqn:E1;
    destruct (Z.max 0 capsule <=? Z.max 1 semantic)%Z eqn:E2; cbn;
    rewrite ?Z.ltb_lt, ?Z.ltb_ge, ?Z.leb_le, ?Z.leb_gt in *.
  all: repeat split; try lia.
  all: f_equal; try lia.
  all: repeat match goal with
       | |- context [(?a <? ?b)%Z] => destruct (Z.ltb_spec a b)
       | |- context [(?a <=? ?b)%Z] => destruct (Z.leb_spec a b)
       end; cbn; lia.
Qed.

Lemma length_slice_to {A} (n : Z) (l : list A) :
  (0 ≤ n)%Z → length (slice_to n l) = Nat.min (Z.to_nat n) (length l).
Proof.
  intros Hn. unfold slice_to. rewrite (proj2 (Z.leb_le 0 n)) by done.
  apply length_take.
Qed.

(** X25 ([_build_cognitive_world], for a service built by [__init__]
    with the world model enabled, when the oracle's constructor
    succeeds): a world is returned, the summary is enabled and carries no
    error; the number of edge facts is the smaller of [max_edge_facts]
    and the number of edges, the number of symbol facts the smaller of
    [max_symbol_facts] and the number of symbols, and the truncated
    symbols are the rest; the limits reported are the clamped ones. *)
Theorem world_summary_counts dim capsule semantic max_edge max_symbol
    (C : WorldModelClass) (w : world C) st :
  WorldModel C
    (world_model_dim (init true dim capsule semantic max_edge max_symbol))
    (world_model_capsule_dim
       (init true dim capsule semantic max_edge max_symbol))
    (world_model_semantic_dims
       (init true dim capsule semantic max_edge max_symbol)) = inr w →
  is_Some (_build_cognitive_world
             (init true dim capsule semantic max_edge max_symbol)
             (inr C) st).1 ∧
  enabled (_build_cognitive_world
             (init true dim capsule semantic max_edge max_symbol)
             (inr C) st).2 = true ∧
  error (_build_cognitive_world
           (init true dim capsule semantic max_edge max_symbol)
           (inr C) st).2 = None ∧
  edge_facts (_build_cognitive_world
                (init true dim capsule semantic max_edge max_symbol)
                (inr C) st).2 =
    Nat.min (Z.to_nat (Z.max 0 max_edge)) (length (edges st)) ∧
  symbol_facts (_build_cognitive_world
                  (init true dim capsule semantic max_edge max_symbol)
                  (inr C) st).2 =
    Nat.min (Z.to_nat (Z.max 0 max_symbol)) (length (symbols st)) ∧
  symbol_facts (_build_cognitive_world
                  (init true dim capsule semantic max_edge max_symbol)
                  (inr C) st).2 +
  symbol_facts_truncated
    (_build_cognitive_world
       (init true dim capsule semantic max_edge max_symbol) (inr C) st).2 =
    length (symbols st) ∧
  max_edge_facts (_build_cognitive_world
                    (init true dim capsule semantic max_edge max_symbol)
                    (inr C) st).2 = Z.max 0 max_edge ∧
  max_symbol_facts (_build_cognitive_world
                      (init true dim capsule semantic max_edge max_symbol)
                      (inr C) st).2 = Z.max 0 max_symbol.
Proof.
  intros Hw. unfold _build_cognitive_world.
  change (world_model_enabled
            (init true dim capsule semantic max_edge max_symbol)) with true.
  cbn [negb]. rewrite Hw. cbn [fst snd enabled error edge_facts symbol_facts
    symbol_facts_truncated max_edge_facts max_symbol_facts summary_base].
  change (world_model_max_edge_facts
            (init true dim capsule semantic max_edge max_symbol))
    with (Z.max 0 max_edge).
  change (world_model_max_symbol_facts
            (init true dim capsule semantic max_edge max_symbol))
    with (Z.max 0 max_symbol).
  unfold list_edges, list_symbols. rewrite !length_slice_to by lia.
  repeat split; eauto; lia.
Qed.

Lemma world_summary_counts_witness :
  edge_facts (_build_cognitive_world default_config (inr oracle) store_abc).2 =
  Nat.min (Z.to_nat (Z.max 0 20000)) (length (edges store_abc)).
Proof.
  apply (world_summary_counts 512 32 28 20000 5000 oracle () store_abc).
  reflexivity.
Defined.

End ConfigTheorems.

Module EnvFacts.
Import EnvUtils.

Lemma load_line_cases st l :
  load_line st l = st ∨
  ∃ k v, parse_line l = Some (k, v) ∧ st.1 !! k = None ∧
         load_line st l = (<[k := v]> st.1, S st.2).
Proof.
  unfold load_line. destruct (parse_line l) as [[k v]|]; [|by left].
  case_bool_decide as Hk; [by left|]. right. exists k, v.
  split; [done|]. split; [|done].
  destruct (st.1 !! k) eqn:E; [|done]. exfalso. apply Hk. eauto.
Qed.

Lemma load_lines_grow lines st :
  st.1 ⊆ (foldl load_line st lines).1 ∧
  size (foldl load_line st lines).1 + st.2 =
  size st.1 + (foldl load_line st lines).2.
Proof.
  revert st. induction lines as [|l lines IH]; intros st; cbn [foldl].
  - split; [done|lia].
  - destruct (IH (load_line st l)) as [IH1 IH2].
    destruct (load_line_cases st l) as [E|(k & v & _ & Hk & E)];
      rewrite E in IH1, IH2 |- *; [done|]. cbn [fst snd] in *.
    split.
    + etrans; [|exact IH1]. by apply insert_subseteq.
    + rewrite map_size_insert_None in IH2 by done. lia.
Qed.


End EnvFacts.

Module EnvTheorems.
Import EnvUtils EnvFacts.

(** X26 ([load_dotenv]): variables that are set keep their values, the
    number returned is the number of variables added, and a missing file
    changes nothing and returns 0. *)
Theorem load_dotenv_keeps_existing dotenv environ :
  environ ⊆ (load_dotenv dotenv environ).1 ∧
  size (load_dotenv dotenv environ).1 =
    size environ + (load_dotenv dotenv environ).2 ∧
  load_dotenv None environ = (environ, 0).
Proof.
  destruct dotenv as [lines|]; cbn [load_dotenv].
  - destruct (load_lines_grow lines (environ, 0)) as [H1 H2].
    cbn [fst snd] in *. split; [done|]. split; [lia|done].
  - cbn. split; [done|]. split; [lia|done].
Qed.



End EnvTheorems.

Module CollectorFacts.
Import Ast StateStore Parser IndexService Spec Views.

Section Induction.
Variable Pn : node → Prop.
Hypothesis step : ∀ n, Forall Pn (children n) → Pn n.

Lemma node_children_ind : ∀ n, Pn n.
Proof.
  fix IH 1. intros n. apply step.
  destruct n; cbn [children];
    repeat match goal with
    | |- Forall _ (_ ++ _) => apply Forall_app_2
    | |- Forall _ (_ :: _) => constructor
    | |- Forall _ [] => constructor
    | |- Pn _ => apply IH
    | |- Forall _ (option_list (?o ≫= _)) =>
        destruct o as [[? [?|]]|]; cbn
    | |- Forall _ (option_list ?o) => is_var o; destruct o as [?|]; cbn
    | |- Forall _ (omap snd ?l) =>
        revert l; fix IHl 1; intros [|[? [?|]] ?]; cbn;
        [constructor | constructor; [apply IH | apply IHl] | apply IHl]
    | |- Forall _ (omap id ?l) =>
        revert l; fix IHl 1; intros [|[?|] ?]; cbn;
        [constructor | constructor; [apply IH | apply IHl] | apply IHl]
    | |- Forall _ ?l =>
        is_var l; revert l; fix IHl 1; intros [|? ?];
        constructor; [apply IH | apply IHl]
    end.
Qed.
End Induction.

Lemma flat_map_omap {A B C} (f : A → option B) (g : B → list C)
    (h : A → list C) (l : list A) :
  (∀ a, h a = from_option g [] (f a)) →
  flat_map h l = flat_map g (omap f l).
Proof.
  intros Hh. induction l as [|a l IH]; [done|]. cbn. rewrite Hh, IH.
  by destruct (f a).
Qed.

Lemma flat_map_option_list {B C} (g : B → list C) (o : option B) :
  from_option g [] o = flat_map g (option_list o).
Proof. destruct o; cbn; by rewrite ?app_nil_r. Qed.

Lemma walk_children n : walk n = n :: flat_map walk (children n).
Proof.
  destruct n; cbn [walk children flat_map]; f_equal;
    rewrite ?flat_map_app, ?app_nil_r; try done.
  repeat f_equal;
    first [ apply flat_map_omap; by intros [? [?|]]
          | apply flat_map_omap; by intros [?|]
          | by destruct vararg as [[? [?|]]|]; cbn; rewrite ?app_nil_r
          | by destruct kwarg as [[? [?|]]|]; cbn; rewrite ?app_nil_r
          | by destruct returns; cbn; rewrite ?app_nil_r ].
Qed.

Section Visit.
Variable P : Platform.

Abbreviation V := (λ (c : Collector) (x : node), visit P x c).

Lemma fold_left_omap {A} (f : A → option node) (h : A → Collector → Collector)
    (l : list A) c :
  (∀ a c, h a c = from_option (λ x, visit P x c) c (f a)) →
  fold_left (λ c a, h a c) l c = fold_left V (omap f l) c.
Proof.
  intros Hh. revert c. induction l as [|a l IH]; intros c; [done|].
  cbn. rewrite Hh, IH. by destruct (f a).
Qed.

Lemma qualname_join c name : _qualname c name = Py.join "." (scope c ++ [name]).
Proof. unfold _qualname. by destruct (scope c). Qed.

Lemma visit_children n c :
  visit P n c = leave n (fold_left V (children n) (enter P n c)).
Proof.
  destruct n; cbn [visit children]; unfold enter, leave;
    cbn [symbol_of call_of def_name from_option foldl];
    rewrite ?fold_left_app; cbn [fold_left]; try done.
  - by rewrite qualname_join.
  - rewrite qualname_join.
    destruct vararg as [[? [?|]]|], kwarg as [[? [?|]]|], returns;
      cbn [option_list mbind option_bind snd fold_left app];
      rewrite ?fold_left_app; cbn [fold_left];
      rewrite !(fold_left_omap snd) by (by intros [? [?|]]);
      rewrite (fold_left_omap id) by (by intros [?|]);
      reflexivity.
  - rewrite fold_left_app. by case_bool_decide.
Qed.

Lemma grow_nil c : grow c [] [] = c.
Proof. destruct c. unfold grow. cbn. by rewrite !app_nil_r. Qed.

Lemma grow_grow c s1 k1 s2 k2 :
  grow (grow c s1 k1) s2 k2 = grow c (s1 ++ s2) (k1 ++ k2).
Proof. unfold grow. cbn. by rewrite !app_assoc. Qed.

Lemma symbol_of_is_Some sc n : is_Some (symbol_of P sc n) ↔ def_name n ≠ [].
Proof. destruct n; cbn; split; (done || by intros []). Qed.

Lemma call_of_is_Some sc n : is_Some (call_of sc n) ↔ is_Some (call_of [] n).
Proof. destruct n; cbn; try done. by case_bool_decide. Qed.

Lemma call_of_def sc n : def_name n ≠ [] → call_of sc n = None.
Proof. by destruct n. Qed.

Lemma enter_grow n c :
  enter P n c =
  {| scope := scope c ++ def_name n;
     coll_symbols := coll_symbols c ++ option_list (symbol_of P (scope c) n);
     coll_calls := coll_calls c ++ option_list (call_of (scope c) n) |}.
Proof.
  unfold enter. destruct c as [sc ss cs].
  destruct n; cbn; rewrite ?app_nil_r; try done.
  case_bool_decide; cbn; by rewrite ?app_nil_r.
Qed.

Lemma leave_scope n c sc :
  scope c = sc ++ def_name n →
  leave n c = {| scope := sc; coll_symbols := coll_symbols c;
                 coll_calls := coll_calls c |}.
Proof.
  unfold leave. destruct c as [sc' ss cs]. cbn. intros ->.
  destruct n; cbn; rewrite ?app_nil_r; try done;
    unfold scope_pop; cbn; by rewrite removelast_last.
Qed.

Lemma visit_all_grow (l : list node) :
  Forall (λ x, ∀ c, ∃ syms cls,
            visit P x c = grow c syms cls ∧
            collected P (scope c) x syms cls) l →
  ∀ c, ∃ syms cls,
    fold_left V l c = grow c syms cls ∧
    (∀ s, s ∈ syms ↔
          ∃ x p d, x ∈ l ∧ occurs p x d ∧
                   symbol_of P (scope c ++ p) d = Some s) ∧
    (∀ k, k ∈ cls ↔
          ∃ x p d, x ∈ l ∧ occurs p x d ∧
                   call_of (scope c ++ p) d = Some k) ∧
    length syms = length (filter (λ d, def_name d ≠ []) (flat_map walk l)) ∧
    length cls =
      length (filter (λ d, is_Some (call_of [] d)) (flat_map walk l)).
Proof.
  induction 1 as [|x l Hx _ IH]; intros c.
  - exists [], []. rewrite grow_nil. split; [done|].
    split; [|split; [|done]].
    + intros s. split; [by intros ?%elem_of_nil|].
      by intros (? & ? & ? & ?%elem_of_nil & _).
    + intros s. split; [by intros ?%elem_of_nil|].
      by intros (? & ? & ? & ?%elem_of_nil & _).
  - destruct (Hx c) as (s1 & k1 & E1 & Hs1 & Hk1 & Ls1 & Lk1).
    destruct (IH (grow c s1 k1)) as (s2 & k2 & E2 & Hs2 & Hk2 & Ls2 & Lk2).
    exists (s1 ++ s2), (k1 ++ k2). cbn [fold_left flat_map].
    rewrite E1, E2, grow_grow. split; [done|].
    rewrite !filter_app, !length_app, Ls1, Ls2, Lk1, Lk2.
    split; [|split; [|done]].
    + intros s. rewrite elem_of_app, Hs1, Hs2. cbn [scope grow]. split.
      * intros [(p & d & ? & ?)|(y & p & d & ? & ? & ?)].
        -- exists x, p, d. split; [apply list_elem_of_here|done].
        -- exists y, p, d. split; [by apply list_elem_of_further|done].
      * intros (y & p & d & [->|?]%elem_of_cons & ? & ?).
        -- left. by exists p, d.
        -- right. by exists y, p, d.
    + intros s. rewrite elem_of_app, Hk1, Hk2. cbn [scope grow]. split.
      * intros [(p & d & ? & ?)|(y & p & d & ? & ? & ?)].
        -- exists x, p, d. split; [apply list_elem_of_here|done].
        -- exists y, p, d. split; [by apply list_elem_of_further|done].
      * intros (y & p & d & [->|?]%elem_of_cons & ? & ?).
        -- left. by exists p, d.
        -- right. by exists y, p, d.
Qed.

Lemma occurs_inv p n d :
  occurs p n d →
  (p = [] ∧ d = n) ∨
  ∃ x q, p = def_name n ++ q ∧ x ∈ children n ∧ occurs q x d.
Proof. destruct 1; [by left|right; eauto]. Qed.

Lemma visit_grow n :
  ∀ c, ∃ syms cls,
    visit P n c = grow c syms cls ∧ collected P (scope c) n syms cls.
Proof.
  induction n as [n IH] using node_children_ind. intros c.
  destruct (visit_all_grow _ IH (enter P n c))
    as (s2 & k2 & E & Hs & Hk & Ls & Lk).
  exists (option_list (symbol_of P (scope c) n) ++ s2),
         (option_list (call_of (scope c) n) ++ k2).
  rewrite visit_children, E.
  rewrite enter_grow in E, Hs, Hk |- *. cbn [scope] in Hs, Hk.
  split.
  { rewrite (leave_scope _ _ (scope c)) by done.
    unfold grow. cbn. by rewrite !app_assoc. }
  unfold collected. rewrite walk_children, !filter_cons, !length_app, Ls, Lk.
  split; [|split; [|split]].
  - intros s. rewrite elem_of_app, Hs. split.
    + intros [Hown|(x & p & d & ? & ? & Hd)].
      * exists [], n. split; [constructor|]. rewrite app_nil_r.
        destruct (symbol_of P (scope c) n); cbn in Hown;
          [by apply list_elem_of_singleton in Hown as ->
          |by apply elem_of_nil in Hown].
      * exists (def_name n ++ p), d. split; [by econstructor|].
        by rewrite app_assoc.
    + intros (p & d & [[-> ->]|(x & q & -> & ? & ?)]%occurs_inv & Hd).
      * left. rewrite app_nil_r in Hd. rewrite Hd. cbn.
        apply list_elem_of_here.
      * right. exists x, q, d. by rewrite <- app_assoc.
  - intros s. rewrite elem_of_app, Hk. split.
    + intros [Hown|(x & p & d & ? & ? & Hd)].
      * exists [], n. split; [constructor|]. rewrite app_nil_r.
        destruct (call_of (scope c) n); cbn in Hown;
          [by apply list_elem_of_singleton in Hown as ->
          |by apply elem_of_nil in Hown].
      * exists (def_name n ++ p), d. split; [by econstructor|].
        by rewrite app_assoc.
    + intros (p & d & [[-> ->]|(x & q & -> & ? & ?)]%occurs_inv & Hd).
      * left. rewrite app_nil_r in Hd. rewrite Hd. cbn.
        apply list_elem_of_here.
      * right. exists x, q, d. by rewrite <- app_assoc.
  - pose proof (symbol_of_is_Some (scope c) n) as Hiff.
    case_decide as Hn.
    + apply Hiff in Hn as [s ->]. done.
    + destruct (symbol_of P (scope c) n) eqn:E'; [|done].
      exfalso. apply (proj1 Hiff); eauto.
  - pose proof (call_of_is_Some (scope c) n) as Hiff.
    case_decide as Hn.
    + apply Hiff in Hn as [s ->]. done.
    + destruct (call_of (scope c) n) eqn:E'; [|done].
      exfalso. apply Hn, Hiff. eauto.
Qed.

End Visit.
End CollectorFacts.

Module CollectorTheorems.
Import Ast StateStore Parser IndexService Scenario Spec Views CollectorFacts.

(** X28 ([_Collector]): a visit of any node leaves the scope stack as it
    found it (every name pushed by [visit_ClassDef] and
    [_record_function] is popped again), and it only appends to the
    symbols and calls collected so far. *)
Theorem collector_restores_scope P n c :
  scope (visit P n c) = scope c ∧
  coll_symbols c `prefix_of` coll_symbols (visit P n c) ∧
  coll_calls c `prefix_of` coll_calls (visit P n c).
Proof.
  destruct (visit_grow P n c) as (syms & cls & -> & _). cbn.
  split; [done|]. split; by eexists.
Qed.

(** X29 ([_parse_python_file], [_Collector]): for a file that parses, the
    symbols are exactly the class and function definitions of the tree,
    at any depth, one symbol for each definition node, with the names of
    the enclosing definitions joined by dots as qualified name; the calls
    are exactly the call nodes whose callee is a name or an attribute,
    one for each, and the caller is the dotted chain of the enclosing
    definitions, or [<module>] outside every definition. *)
Theorem parsed_symbols_and_calls_by_nesting P source filename tree :
  ast_parse P source filename = Parsed tree →
  (∀ s, s ∈ (_parse_python_file P source filename).1.1.1 ↔
        ∃ p d, occurs p tree d ∧ symbol_of P p d = Some s) ∧
  length (_parse_python_file P source filename).1.1.1 =
    length (filter (λ d, def_name d ≠ []) (walk tree)) ∧
  (∀ k, k ∈ (_parse_python_file P source filename).1.2 ↔
        ∃ p d, occurs p tree d ∧ call_of p d = Some k) ∧
  length (_parse_python_file P source filename).1.2 =
    length (filter (λ d, is_Some (call_of [] d)) (walk tree)).
Proof.
  intros Hp. unfold _parse_python_file. rewrite Hp. cbn [fst snd].
  destruct (visit_grow P tree new_collector)
    as (syms & cls & -> & Hs & Hk & Ls & Lk).
  cbn in *. done.
Qed.

Lemma parsed_symbols_and_calls_by_nesting_witness :
  length (_parse_python_file python text_use_foo "c.py").1.1.1 =
  length (filter (λ d, def_name d ≠ []) (walk tree_use_foo)).
Proof.
  exact (proj1 (proj2 (parsed_symbols_and_calls_by_nesting python
                         text_use_foo "c.py" tree_use_foo eq_refl))).
Defined.

(** A class with one method that calls [self.helper()]: the method is
    recorded as [C.m], and the call with [C.m] as its caller. *)
Example collector_nested_class :
  (λ c, ((λ s, (item_symbol_name s, item_qualname s, item_kind s))
           <$> coll_symbols c,
         (λ k, (item_caller_qualname k, item_callee_name k))
           <$> coll_calls c, scope c))
    (visit python
       (Module_
          [ClassDef "C" [] []
             [def_ "m"
                [return_ (Call (Attribute (Name "self") "helper") [] [])]
                2 3]
             [] 1 3])
       new_collector) =
  ([("C", "C", "class"); ("m", "C.m", "function")],
   [("C.m", "helper")], []).
Proof. by vm_compute. Qed.

(** X30 ([_parse_python_file], [_extract_imports]): for a file that
    parses, the import list is sorted, has no duplicates and holds
    exactly the module tokens of the import statements found anywhere in
    the tree. *)
Theorem parsed_imports_any_depth P source filename tree :
  ast_parse P source filename = Parsed tree →
  StronglySorted String.le (_parse_python_file P source filename).1.1.2 ∧
  NoDup (_parse_python_file P source filename).1.1.2 ∧
  ∀ x, x ∈ (_parse_python_file P source filename).1.1.2 ↔
       ∃ n, n ∈ walk tree ∧ x ∈ tokens_of n.
Proof.
  intros Hp. unfold _parse_python_file. rewrite Hp. cbn [fst snd].
  apply ParserTheorems.extract_imports_spec.
Qed.

Lemma parsed_imports_any_depth_witness :
  NoDup (_parse_python_file python text_use_foo "c.py").1.1.2.
Proof.
  exact (proj1 (proj2 (parsed_imports_any_depth python text_use_foo "c.py"
                         tree_use_foo eq_refl))).
Defined.

End CollectorTheorems.
